(** * darwin-py: verification of the command layer [darwin/cli_functions.py]

    The command functions of [cli_functions.py] are embedded as programs of a
    small monad [M] that threads the log of everything the process did
    (lines printed, collaborator methods invoked, exceptions raised) and ends
    in one of three ways: a normal return, an exception that leaves the
    function, or [sys.exit].

    The classes [Client], [RemoteDataset], [Release], [DatasetIdentifier],
    [Config] and [Table] and the helpers of [darwin.utils] live in modules
    that are not part of [src/]; their methods are collaborator calls answered
    by an arbitrary [World].  Where a property is decided by such a method,
    the method is modelled from the specification in a module of its own
    ([DatasetIdentifier], [ReleaseLedger], [TransferEngine]). *)

From Stdlib Require Import Bool Arith ZArith List Ascii String Lia PrimFloat.
From Stdlib Require Import Sorted Permutation.
Import ListNotations.

Local Open Scope list_scope.
Local Open Scope string_scope.

(** ** Strings *)

(** [prefix_of p s]: [s.startswith(p)]. *)
Fixpoint prefix_of (p s : string) : bool :=
  match p, s with
  | EmptyString, _ => true
  | String a p', String b s' => Ascii.eqb a b && prefix_of p' s'
  | String _ _, EmptyString => false
  end.

(** [contains needle hay]: Python's [needle in hay]. *)
Fixpoint contains (needle hay : string) : bool :=
  prefix_of needle hay ||
  match hay with
  | EmptyString => false
  | String _ hay' => contains needle hay'
  end.

(** [count_char c s]: [s.count(c)] for a one-character [c]. *)
Fixpoint count_char (c : ascii) (s : string) : nat :=
  match s with
  | EmptyString => 0
  | String a s' => (if Ascii.eqb a c then 1 else 0) + count_char c s'
  end.

(** [split_at c s]: the text before and after the first [c] of [s], when
    there is one ([s.partition(c)] with a non-empty separator part). *)
Fixpoint split_at (c : ascii) (s : string) : option (string * string) :=
  match s with
  | EmptyString => None
  | String a s' =>
      if Ascii.eqb a c then Some (EmptyString, s')
      else match split_at c s' with
           | Some (l, r) => Some (String a l, r)
           | None => None
           end
  end.

(** [join sep parts]: [sep.join(parts)]. *)
Fixpoint join (sep : string) (parts : list string) : string :=
  match parts with
  | [] => ""
  | [p] => p
  | p :: rest => p ++ sep ++ join sep rest
  end.

(** ** Exceptions

    The classes of [darwin.exceptions] that [cli_functions.py] imports, the
    built-in [ValueError] it catches in [upload_data], the error kinds the
    specification adds ([MalformedReference], [ReleaseUnavailable]) and a
    catch-all for every other exception a collaborator may raise.  The
    classes are taken to be unrelated by inheritance.  [NotFound] carries the
    [name] attribute the handlers read. *)
Inductive exn : Type :=
| InvalidLogin
| MissingConfig
| NameTaken
| NotFound (name : string)
| Unauthenticated
| ValidationError
| ValueError
| MalformedReference
| ReleaseUnavailable
| OtherError (what : string).

(** ** Dataset identifiers *)

Module DatasetIdentifier.

Record t : Type := mk
  { team_slug : option string;
    dataset_slug : string;
    version : option string }.

(** [identifier.version = name] *)
Definition set_version (id : t) (v : option string) : t :=
  {| team_slug := team_slug id;
     dataset_slug := dataset_slug id;
     version := v |}.

(** Modelled from the spec: [DatasetIdentifier.parse], whose module
    [darwin/dataset/identifier.py] is not under [src/].  The grammar is
    [[team_slug "/"] dataset_slug [":" version]]; a reference with more
    than one ["/"] or more than one [":"], or with an empty dataset slug,
    is malformed.  The specification names no escape syntax, so every
    ["/"] and [":"] counts as unescaped. *)
Definition parse (reference : string) : exn + t :=
  if Nat.ltb 1 (count_char "/" reference) || Nat.ltb 1 (count_char ":" reference)
  then inl MalformedReference
  else
    let (team, rest) :=
      match split_at "/" reference with
      | Some (team, rest) => (Some team, rest)
      | None => (None, reference)
      end in
    let (dataset, ver) :=
      match split_at ":" rest with
      | Some (dataset, ver) => (dataset, Some ver)
      | None => (rest, None)
      end in
    match dataset with
    | EmptyString => inl MalformedReference
    | _ => inr {| team_slug := team; dataset_slug := dataset; version := ver |}
    end.

(** Modelled from the spec: [DatasetIdentifier.__str__] (the spec's
    [render]), not under [src/]: the canonical form [team/dataset:version]
    with [team/] and [:version] each left out when absent. *)
Definition render (id : t) : string :=
  match team_slug id with Some team => team ++ "/" | None => "" end
  ++ dataset_slug id
  ++ match version id with Some v => ":" ++ v | None => "" end.

End DatasetIdentifier.

(** ** Values exchanged with the collaborators *)

(** [pathlib.Path], as the sequence of its components. *)
Module Path.

Definition t : Type := list string.

(** [p.name]: the final component, empty when there is none. *)
Definition name (p : t) : string := last p "".

(** [p.parent] *)
Definition parent (p : t) : t := removelast p.

(** [p / component] *)
Definition div (p : t) (component : string) : t := (p ++ [component])%list.

(** [Path(text)] *)
Fixpoint of_string_fuel (fuel : nat) (text : string) : t :=
  match fuel with
  | O => [text]
  | S fuel' =>
      match split_at "/" text with
      | Some (first, rest) => first :: of_string_fuel fuel' rest
      | None => [text]
      end
  end.

Definition of_string (text : string) : t :=
  of_string_fuel (String.length text) text.

(** [str(p)] *)
Definition str (p : t) : string := join "/" p.

End Path.

Notation "p // c" := (Path.div p c) (at level 40, left associativity).

(** The attributes of a [Client] that the commands read. *)
Module Client.
Record t : Type := mk
  { team : string;
    default_team : string;
    url : string }.
End Client.

(** A [Config] object, known by the file it was opened on. *)
Module Config.
Record t : Type := mk { file : Path.t }.
End Config.

(** An entry of [Config.get_all_teams()]: the keys ["slug"] and ["default"]. *)
Module Team.
Record t : Type := mk
  { slug : string;
    default : bool }.
End Team.

(** The attributes of a [RemoteDataset] that the commands read. *)
Module RemoteDataset.
Record t : Type := mk
  { name : string;
    team : string;
    slug : string;
    remote_path : string;
    local_path : Path.t;
    identifier : DatasetIdentifier.t;
    image_count : Z;
    progress : float }.
End RemoteDataset.

(** A [Release], with the fields the specification gives it. *)
Module Release.
Record t : Type := mk
  { identifier : DatasetIdentifier.t;
    image_count : Z;
    class_count : Z;
    export_date : Z;
    available : bool }.

(** The release's name is the version of its identifier. *)
Definition name (r : t) : option string :=
  DatasetIdentifier.version (identifier r).
End Release.

(** [os.stat_result]: the two fields [local] reads. *)
Module Stat.
Record t : Type := mk
  { st_mtime : float;
    st_size : Z }.
End Stat.

(** What iterating a finite generator shows: the items it yields and, when
    it ends by raising instead of stopping, the exception. *)
Record generator (A : Type) : Type := mk_generator
  { yielded : list A;
    failure : option exn }.
Arguments mk_generator {A} _ _.
Arguments yielded {A} _.
Arguments failure {A} _.

(** The first argument of [Client.get_remote_dataset]: the commands pass the
    reference string, [export_dataset] passes the parsed identifier. *)
Inductive dataset_ref : Type :=
| RefString (reference : string)
| RefIdentifier (identifier : DatasetIdentifier.t).

(** One upload task of the transfer engine: a file as it is, or one frame
    of a video taken at a frame rate. *)
Inductive task : Type :=
| ImageTask (file : string)
| FrameTask (file : string) (frame_rate : Z) (index : Z).

(** [darwin.table.Table] is not under [src/]; it is taken to be what its use
    shows: columns and alignments fixed at construction, rows appended by
    [add_row], [len] the number of rows.  Its rendering is external. *)
Module Table.

Inductive align : Type := L | R.

Inductive cell : Type :=
| Str (s : string)
| Int (n : Z)
| Identifier (id : DatasetIdentifier.t).

Definition row : Type := list (string * cell).

Record t : Type := mk
  { columns : list string;
    alignments : list align;
    rows : list row }.

Definition new (columns : list string) (alignments : list align) : t :=
  {| columns := columns; alignments := alignments; rows := [] |}.

Definition add_row (table : t) (r : row) : t :=
  {| columns := columns table;
     alignments := alignments table;
     rows := (rows table ++ [r])%list |}.

Definition len (table : t) : nat := List.length (rows table).

End Table.

(** ** Collaborator calls

    One constructor per method or helper that [cli_functions.py] calls on a
    class or module that is not under [src/], indexed by the type of its
    result.  The last three are the calls of the transfer engine and the
    release download, used by the models written from the specification. *)
Inductive call : Type -> Type :=
| PathHome : call Path.t
| Mkdir (p : Path.t) (parents exist_ok : bool) : call unit
| ExpandUser (p : Path.t) : call Path.t
| StatOf (p : Path.t) : call Stat.t
| FindFiles (roots : list Path.t) : call (list Path.t)
| Input (message : string) : call string
| Prompt (message default : string) : call string
| SecureContinueRequest : call bool
| FromApiKey (api_key : string) : call Client.t
| FromConfig (config_path : Path.t) (team_slug : option string) : call Client.t
| SetDatasetsDir (client : Client.t) (datasets_dir : Path.t) : call unit
| PersistClientConfiguration (client : Client.t) (default_team : option string)
    : call Config.t
| NewConfig (file : Path.t) : call Config.t
| GetAllTeams (config : Config.t) : call (list Team.t)
| SetDefaultTeam (config : Config.t) (team_slug : string) : call unit
| CreateDataset (client : Client.t) (name : string) : call RemoteDataset.t
| ListLocalDatasets (client : Client.t) (team : option string)
    : call (generator Path.t)
| ListRemoteDatasets (client : Client.t) : call (list RemoteDataset.t)
| GetRemoteDataset (client : Client.t) (dataset_identifier : dataset_ref)
    : call RemoteDataset.t
| GetReport (dataset : RemoteDataset.t) (granularity : string) : call string
| Export (dataset : RemoteDataset.t) (annotation_class_ids : option (list Z))
    (name : option string) : call unit
| GetReleases (dataset : RemoteDataset.t) : call (list Release.t)
| GetRelease (dataset : RemoteDataset.t) (version : string) : call Release.t
| Pull (dataset : RemoteDataset.t) (release : Release.t) : call unit
| RemoveRemote (dataset : RemoteDataset.t) : call unit
| Push (dataset : RemoteDataset.t) (files_to_exclude : option (list string))
    (fps : Z) (files_to_upload : option (list string)) : call unit
| ScanFiles (dataset : RemoteDataset.t) : call (list string)
| UploadTask (dataset : RemoteDataset.t) (job : task) : call unit
| DownloadRelease (dataset : RemoteDataset.t) (release : Release.t) : call unit.

(** ** The log of a run

    [Called c]: the call [c] was made and returned.  [Failed c e]: the call
    [c] was made and raised [e], or the generator it returned raised [e]
    when iterated to its end.  [Threw e]: [e] was raised by something that
    is not a call (a parse, a check). *)
Inductive event : Type :=
| Printed (line : string)
| PrintedTable (table : Table.t)
| Called {X : Type} (c : call X)
| Failed {X : Type} (c : call X) (e : exn)
| Threw (e : exn).

(** The collaborators: how identifiers are parsed and shown, how
    [humanize] and [round] format, and what every call answers after a
    given history. *)
Record World : Type := mk_World
  { parse_identifier : string -> exn + DatasetIdentifier.t;
    str_identifier : DatasetIdentifier.t -> string;
    naturaldate : float -> string;
    naturalsize : Z -> string;
    str_round1 : float -> string;
    respond : forall X : Type, list event -> call X -> exn + X }.
Arguments respond _ {X} _ _.

(** ** The monad of commands *)

(** How a function call ends: [return], an exception, or [sys.exit]. *)
Inductive outcome (A : Type) : Type :=
| Returned (a : A)
| Raised (e : exn)
| Exited (code : Z).
Arguments Returned {A} _.
Arguments Raised {A} _.
Arguments Exited {A} _.

(** A command maps the history so far to the events it adds and its end. *)
Definition M (A : Type) : Type := list event -> list event * outcome A.

Definition ret {A} (a : A) : M A := fun _ => ([], Returned a).

Definition bind {A B} (m : M A) (k : A -> M B) : M B :=
  fun h =>
    match m h with
    | (t, Returned a) => let (t', o) := k a (h ++ t)%list in ((t ++ t')%list, o)
    | (t, Raised e) => (t, Raised e)
    | (t, Exited code) => (t, Exited code)
    end.

Notation "x <- c1 ;; c2" := (bind c1 (fun x => c2))
  (at level 100, c1 at next level, right associativity).
Notation "c1 ;; c2" := (bind c1 (fun _ => c2))
  (at level 100, right associativity).

Definition raise {A} (e : exn) : M A := fun _ => ([Threw e], Raised e).

(** [sys.exit(code)] *)
Definition sys_exit {A} (code : Z) : M A := fun _ => ([], Exited code).

Definition print (line : string) : M unit := fun _ => ([Printed line], Returned tt).

Definition print_table (table : Table.t) : M unit :=
  fun _ => ([PrintedTable table], Returned tt).

(** A pure collaborator that may raise. *)
Definition lift {A} (r : exn + A) : M A :=
  match r with
  | inr a => ret a
  | inl e => raise e
  end.

(** [try: body except ...: ...]; [handler e] is the clause that matches [e],
    if any.  [sys.exit] passes through: no clause of this file catches
    [SystemExit]. *)
Definition try_except {A} (body : M A) (handler : exn -> option (M A)) : M A :=
  fun h =>
    match body h with
    | (t, Raised e) =>
        match handler e with
        | Some recover => let (t', o) := recover (h ++ t)%list in ((t ++ t')%list, o)
        | None => (t, Raised e)
        end
    | r => r
    end.

(** [for x in items: acc = body(acc, x)] *)
Fixpoint for_fold {A S} (items : list A) (acc : S) (body : S -> A -> M S) : M S :=
  match items with
  | [] => ret acc
  | x :: rest => acc' <- body acc x ;; for_fold rest acc' body
  end.

(** [for x in items: body(x)] *)
Definition for_each {A} (items : list A) (body : A -> M unit) : M unit :=
  for_fold items tt (fun _ x => body x).

(** The end of the generator [g] that the call [c] returned:
    [StopIteration], or the exception it raises. *)
Definition exhaust {X A} (c : call X) (g : generator A) : M unit :=
  match failure g with
  | Some e => fun _ => ([Failed c e], Raised e)
  | None => ret tt
  end.

(** [for x in g: ...] where the body may [return]: [Some b] when it did,
    [None] when the loop ran to its end. *)
Fixpoint for_return_items {A B} (items : list A) (stop : M unit)
    (body : A -> M (option B)) : M (option B) :=
  match items with
  | [] => stop ;; ret None
  | x :: rest =>
      r <- body x ;;
      match r with
      | Some b => ret (Some b)
      | None => for_return_items rest stop body
      end
  end.

Definition for_return {X A B} (c : call X) (g : generator A)
    (body : A -> M (option B)) : M (option B) :=
  for_return_items (yielded g) (exhaust c g) body.

(** The line feed of ["\n"]. *)
Definition nl : string := String (ascii_of_nat 10) "".


(** ** The commands of [cli_functions.py] *)

Section Commands.

Variable w : World.

(** A collaborator call, answered by the world from the history so far
    and logged with how it ended. *)
Definition invoke {X} (c : call X) : M X :=
  fun h =>
    match respond w h c with
    | inr x => ([Called c], Returned x)
    | inl e => ([Failed c e], Raised e)
    end.

(** [_error]: print the message after ["Error: "], then [sys.exit(1)]. *)
Definition _error {A} (message : string) : M A :=
  print ("Error: " ++ message) ;;
  sys_exit 1.

(** [_config] *)
Definition _config : M Config.t :=
  home <- invoke PathHome ;;
  invoke (NewConfig (home // ".darwin" // "config.yaml")).

(** [_load_client]; [offline] is accepted and not used, as in the source. *)
Definition _load_client (team : option string) (offline : bool) : M Client.t :=
  try_except
    (home <- invoke PathHome ;;
     let config_dir := home // ".darwin" // "config.yaml" in
     client <- invoke (FromConfig config_dir team) ;;
     ret client)
    (fun e =>
       match e with
       | MissingConfig => Some (_error "Authenticate first")
       | InvalidLogin => Some (_error "Please re-authenticate")
       | Unauthenticated => Some (_error "Please re-authenticate")
       | _ => None
       end).

(** [authenticate] *)
Definition authenticate (api_key : string) (default_team : option bool)
    (datasets_dir : option Path.t) : M Config.t :=
  try_except
    (client <- invoke (FromApiKey api_key) ;;
     home <- invoke PathHome ;;
     let config_path := home // ".darwin" // "config.yaml" in
     invoke (Mkdir (Path.parent config_path) false true) ;;
     default_team <-
       match default_team with
       | None =>
           answer <- invoke (Input ("Make " ++ Client.default_team client
                                    ++ " the default team? [y/N] ")) ;;
           ret (String.eqb answer "Y" || String.eqb answer "y")
       | Some flag => ret flag
       end ;;
     datasets_dir <-
       match datasets_dir with
       | None =>
           text <- invoke (Prompt "Datasets directory" "~/.darwin/datasets") ;;
           ret (Path.of_string text)
       | Some dir => ret dir
       end ;;
     datasets_dir <- invoke (ExpandUser datasets_dir) ;;
     invoke (Mkdir datasets_dir true true) ;;
     invoke (SetDatasetsDir client datasets_dir) ;;
     let default_team :=
       if default_team : bool then Some (Client.default_team client) else None in
     invoke (PersistClientConfiguration client default_team))
    (fun e =>
       match e with
       | InvalidLogin => Some (_error "Invalid API key")
       | _ => None
       end).

(** [current_team] *)
Definition current_team : M unit :=
  client <- _load_client None false ;;
  print (Client.team client).

(** [list_teams] *)
Definition list_teams : M unit :=
  config <- _config ;;
  teams <- invoke (GetAllTeams config) ;;
  for_each teams (fun team =>
    if Team.default team
    then print (Team.slug team ++ " (default)")
    else print (Team.slug team)).

(** [set_team] *)
Definition set_team (team_slug : string) : M unit :=
  config <- _config ;;
  invoke (SetDefaultTeam config team_slug).

(** [create_dataset] *)
Definition create_dataset (name : string) (team : option string) : M unit :=
  client <- _load_client team false ;;
  try_except
    (dataset <- invoke (CreateDataset client name) ;;
     print ("Dataset '" ++ RemoteDataset.name dataset ++ "' ("
            ++ RemoteDataset.team dataset ++ "/" ++ RemoteDataset.slug dataset
            ++ ") has been created." ++ nl ++ "Access at "
            ++ RemoteDataset.remote_path dataset))
    (fun e =>
       match e with
       | NameTaken => Some (_error ("Dataset name '" ++ name ++ "' is already taken."))
       | ValidationError => Some (_error ("Dataset name '" ++ name ++ "' is not valid."))
       | _ => None
       end).

(** The ["size"] entry of a row of [local]: the sizes of the files found,
    added up. *)
Definition total_size (files : list Path.t) : M Z :=
  for_fold files 0%Z (fun total p =>
    st <- invoke (StatOf p) ;;
    ret (total + Stat.st_size st)%Z).

(** [local] *)
Definition local : M unit :=
  let table := Table.new ["name"; "images"; "sync_date"; "size"]
                         [Table.L; Table.R; Table.R; Table.R] in
  client <- _load_client None true ;;
  datasets <- invoke (ListLocalDatasets client None) ;;
  table <- for_fold (yielded datasets) table (fun table dataset_path =>
    images <- invoke (FindFiles [dataset_path]) ;;
    st <- invoke (StatOf dataset_path) ;;
    files <- invoke (FindFiles [dataset_path]) ;;
    size <- total_size files ;;
    ret (Table.add_row table
           [("name", Table.Str (Path.name dataset_path));
            ("images", Table.Int (Z.of_nat (List.length images)));
            ("sync_date", Table.Str (naturaldate w (Stat.st_mtime st)));
            ("size", Table.Str (naturalsize w size))])) ;;
  exhaust (ListLocalDatasets client None) datasets ;;
  print_table table.

(** [path]: [Some p] is [return p]; [None] is the end of the function body
    reached without a [return]. *)
Definition path (dataset_slug : string) : M (option Path.t) :=
  identifier <- lift (parse_identifier w dataset_slug) ;;
  client <- _load_client None true ;;
  try_except
    (let listing := ListLocalDatasets client
                      (DatasetIdentifier.team_slug identifier) in
     datasets <- invoke listing ;;
     for_return listing datasets (fun p =>
       if String.eqb (DatasetIdentifier.dataset_slug identifier) (Path.name p)
       then ret (Some p)
       else ret None))
    (fun e =>
       match e with
       | NotFound name =>
           Some (_error ("Dataset '" ++ name ++ "' does not exist locally. "
                         ++ "Use 'darwin dataset remote' to see all the available datasets, "
                         ++ "and 'darwin dataset pull' to pull them."))
       | _ => None
       end).

(** [url] *)
Definition url (dataset_slug : string) : M unit :=
  client <- _load_client None true ;;
  try_except
    (remote_dataset <- invoke (GetRemoteDataset client (RefString dataset_slug)) ;;
     print (RemoteDataset.remote_path remote_dataset))
    (fun e =>
       match e with
       | NotFound name => Some (_error ("Dataset '" ++ name ++ "' does not exist."))
       | _ => None
       end).

(** [dataset_report] *)
Definition dataset_report (dataset_slug granularity : string) : M unit :=
  client <- _load_client None true ;;
  try_except
    (remote_dataset <- invoke (GetRemoteDataset client (RefString dataset_slug)) ;;
     report <- invoke (GetReport remote_dataset granularity) ;;
     print report)
    (fun e =>
       match e with
       | NotFound _ => Some (_error ("Dataset '" ++ dataset_slug ++ "' does not exist."))
       | _ => None
       end).

(** [export_dataset] *)
Definition export_dataset (dataset_slug : string)
    (annotation_class_ids : option (list Z)) (name : option string) : M unit :=
  client <- _load_client None false ;;
  identifier <- lift (parse_identifier w dataset_slug) ;;
  ds <- invoke (GetRemoteDataset client (RefIdentifier identifier)) ;;
  invoke (Export ds annotation_class_ids name) ;;
  let identifier := DatasetIdentifier.set_version identifier name in
  print ("Dataset " ++ dataset_slug ++ " successfully exported to "
         ++ str_identifier w identifier).

(** [x or "latest"] for an optional string [x]: [None] and the empty
    string are both false. *)
Definition or_latest (version : option string) : string :=
  match version with
  | None => "latest"
  | Some EmptyString => "latest"
  | Some v => v
  end.

(** [pull_dataset], over the two methods of [RemoteDataset] it calls. *)
Definition pull_dataset_with
    (get_release : RemoteDataset.t -> string -> M Release.t)
    (pull : RemoteDataset.t -> Release.t -> M unit)
    (dataset_slug : string) : M unit :=
  identifier <- lift (parse_identifier w dataset_slug) ;;
  let version := or_latest (DatasetIdentifier.version identifier) in
  client <- _load_client None false ;;
  dataset <-
    try_except
      (invoke (GetRemoteDataset client (RefString dataset_slug)))
      (fun e =>
         match e with
         | NotFound _ =>
             Some (_error ("dataset '" ++ dataset_slug ++ "' does not exist at "
                           ++ Client.url client ++ ". "
                           ++ "Use 'darwin remote' to list all the remote datasets."))
         | Unauthenticated => Some (_error "please re-authenticate")
         | _ => None
         end) ;;
  release <-
    try_except
      (release <- get_release dataset version ;;
       pull dataset release ;;
       ret release)
      (fun e =>
         match e with
         | NotFound _ =>
             Some (_error ("Version '"
                           ++ str_identifier w (RemoteDataset.identifier dataset)
                           ++ ":" ++ version ++ "' does not exist "
                           ++ "Use 'darwin dataset releases' to list all available versions."))
         | _ => None
         end) ;;
  print ("Dataset " ++ str_identifier w (Release.identifier release)
         ++ " downloaded at " ++ Path.str (RemoteDataset.local_path dataset) ++ ". ").

(** [pull_dataset], with [get_release] and [pull] as collaborator calls. *)
Definition pull_dataset : string -> M unit :=
  pull_dataset_with
    (fun dataset version => invoke (GetRelease dataset version))
    (fun dataset release => invoke (Pull dataset release)).

(** The row [list_remote_datasets] adds for a dataset. *)
Definition remote_row (dataset : RemoteDataset.t) : Table.row :=
  [("name", Table.Str (RemoteDataset.team dataset ++ "/" ++ RemoteDataset.slug dataset));
   ("images", Table.Int (RemoteDataset.image_count dataset));
   ("progress",
    Table.Str (str_round1 w (RemoteDataset.progress dataset * 100)%float ++ "%"))].

(** [list_remote_datasets] *)
Definition list_remote_datasets (all_teams : bool) (team : option string) : M unit :=
  let table := Table.new ["name"; "images"; "progress"]
                         [Table.L; Table.R; Table.R] in
  datasets <-
    (if all_teams
     then
       config <- _config ;;
       teams <- invoke (GetAllTeams config) ;;
       for_fold teams [] (fun datasets team =>
         client <- _load_client (Some (Team.slug team)) false ;;
         more <- invoke (ListRemoteDatasets client) ;;
         ret (datasets ++ more)%list)
     else
       client <- _load_client team false ;;
       invoke (ListRemoteDatasets client)) ;;
  let table :=
    fold_left (fun table dataset => Table.add_row table (remote_row dataset))
              datasets table in
  if Nat.eqb (Table.len table) 0
  then print "No dataset available."
  else print_table table.

(** [remove_remote_dataset] *)
Definition remove_remote_dataset (dataset_slug : string) : M unit :=
  client <- _load_client None false ;;
  try_except
    (dataset <- invoke (GetRemoteDataset client (RefString dataset_slug)) ;;
     print ("About to delete " ++ str_identifier w (RemoteDataset.identifier dataset)
            ++ " on darwin.") ;;
     go_on <- invoke SecureContinueRequest ;;
     if negb go_on
     then print "Cancelled."
     else invoke (RemoveRemote dataset))
    (fun e =>
       match e with
       | NotFound _ => Some (_error ("No dataset with name '" ++ dataset_slug ++ "'"))
       | _ => None
       end).

(** The row [dataset_list_releases] adds for a release. *)
Definition release_row (release : Release.t) : Table.row :=
  [("name", Table.Identifier (Release.identifier release));
   ("images", Table.Int (Release.image_count release));
   ("classes", Table.Int (Release.class_count release));
   ("export_date", Table.Int (Release.export_date release))].

(** The loop of [dataset_list_releases]: unavailable releases are passed over. *)
Definition release_rows (table : Table.t) (releases : list Release.t) : Table.t :=
  fold_left
    (fun table release =>
       if negb (Release.available release)
       then table
       else Table.add_row table (release_row release))
    releases table.

(** [dataset_list_releases] *)
Definition dataset_list_releases (dataset_slug : string) : M unit :=
  client <- _load_client None false ;;
  try_except
    (dataset <- invoke (GetRemoteDataset client (RefString dataset_slug)) ;;
     releases <- invoke (GetReleases dataset) ;;
     if Nat.eqb (List.length releases) 0
     then print "No available releases, export one first."
     else
       let table := Table.new ["name"; "images"; "classes"; "export_date"]
                              [Table.L; Table.R; Table.R; Table.R] in
       let table := release_rows table releases in
       print_table table)
    (fun e =>
       match e with
       | NotFound _ => Some (_error ("No dataset with name '" ++ dataset_slug ++ "'"))
       | _ => None
       end).

(** [upload_data], over the method [RemoteDataset.push] it calls. *)
Definition upload_data_with
    (push : RemoteDataset.t -> option (list string) -> Z
            -> option (list string) -> M unit)
    (dataset_slug : string) (files files_to_exclude : option (list string))
    (fps : Z) : M unit :=
  client <- _load_client None false ;;
  try_except
    (dataset <- invoke (GetRemoteDataset client (RefString dataset_slug)) ;;
     push dataset files_to_exclude fps files)
    (fun e =>
       match e with
       | NotFound name => Some (_error ("No dataset with name '" ++ name ++ "'"))
       | ValueError => Some (_error "No files found")
       | _ => None
       end).

(** [upload_data], with [push] as a collaborator call. *)
Definition upload_data : string -> option (list string) -> option (list string)
                         -> Z -> M unit :=
  upload_data_with
    (fun dataset files_to_exclude fps files =>
       invoke (Push dataset files_to_exclude fps files)).

End Commands.

(** ** The release ledger and the transfer engine, from the specification *)

Module ReleaseLedger.
Section Ledger.

Variable w : World.

(** The release with the greatest [export_date] of a list (the earliest
    such release when several share it). *)
Fixpoint newest (releases : list Release.t) : option Release.t :=
  match releases with
  | [] => None
  | r :: rest =>
      match newest rest with
      | Some r' =>
          if (Release.export_date r <? Release.export_date r')%Z
          then Some r' else Some r
      | None => Some r
      end
  end.

Definition named (version : string) (r : Release.t) : bool :=
  match Release.name r with
  | Some n => String.eqb n version
  | None => false
  end.

(** Modelled from the spec: [resolve_version] (section 4.3), the
    selection made by [RemoteDataset.get_release], which is not under
    [src/].  ["latest"] is the release with the greatest [export_date]
    among the available ones; any other version is matched exactly
    against the release names; no match is the not-found failure, which
    carries the dataset identifier and the requested version. *)
Definition resolve_version (remote : RemoteDataset.t)
    (releases : list Release.t) (version : string) : exn + Release.t :=
  let found :=
    if String.eqb version "latest"
    then newest (filter Release.available releases)
    else find (named version) releases in
  match found with
  | Some r => inr r
  | None =>
      inl (NotFound (str_identifier w (RemoteDataset.identifier remote)
                     ++ ":" ++ version))
  end.

(** Modelled from the spec: [RemoteDataset.get_release], not under
    [src/]: [resolve_version] over the releases the remote lists. *)
Definition get_release (remote : RemoteDataset.t) (version : string)
    : M Release.t :=
  releases <- invoke w (GetReleases remote) ;;
  lift (resolve_version remote releases version).

End Ledger.
End ReleaseLedger.

Module TransferEngine.
Section Engine.

Variable w : World.

(** The classification of a candidate file and the number of frames a
    video yields at a frame rate: external to the engine. *)
Variable is_video : string -> bool.
Variable frame_count : string -> Z -> nat.

(** The normal form of a path that exclusion compares. *)
Variable normalize : string -> string.

Record summary : Type := mk_summary
  { succeeded : nat;
    failed : list (string * exn) }.

Definition excluded (files_to_exclude : option (list string)) (file : string)
    : bool :=
  match files_to_exclude with
  | Some out => existsb (fun x => String.eqb (normalize x) (normalize file)) out
  | None => false
  end.

(** Modelled from the spec: step 1 of push (section 4.4).  The explicit
    list if given, else what the scan of the source root found, less the
    excluded files. *)
Definition candidates (remote : RemoteDataset.t)
    (files_to_upload files_to_exclude : option (list string))
    : M (list string) :=
  match files_to_upload with
  | Some files => ret files
  | None =>
      found <- invoke w (ScanFiles remote) ;;
      ret (filter (fun f => negb (excluded files_to_exclude f)) found)
  end.

(** Step 3: a video becomes one task per frame, any other file one task. *)
Definition tasks_of (fps : Z) (file : string) : list (string * task) :=
  if is_video file
  then map (fun i => (file, FrameTask file fps (Z.of_nat i)))
           (seq 0 (frame_count file fps))
  else [(file, ImageTask file)].

(** Step 4: one upload; its failure is recorded, not raised. *)
Definition upload (remote : RemoteDataset.t) (acc : summary)
    (job : string * task) : M summary :=
  try_except
    (invoke w (UploadTask remote (snd job)) ;;
     ret {| succeeded := S (succeeded acc); failed := failed acc |})
    (fun e =>
       Some (ret {| succeeded := succeeded acc;
                    failed := (failed acc ++ [(fst job, e)])%list |})).

(** Modelled from the spec: push (section 4.4), the method
    [RemoteDataset.push], which is not under [src/].  An empty candidate
    set is the empty-file-set failure, which [upload_data] receives as
    [ValueError]; a frame rate that is not positive is a validation
    failure; both come before any task is scheduled. *)
Definition push_summary (remote : RemoteDataset.t)
    (files_to_exclude : option (list string)) (fps : Z)
    (files_to_upload : option (list string)) : M summary :=
  files <- candidates remote files_to_upload files_to_exclude ;;
  match files with
  | [] => raise ValueError
  | _ :: _ =>
      if (fps <=? 0)%Z then raise ValidationError
      else
        for_fold (flat_map (tasks_of fps) files)
                 {| succeeded := 0; failed := [] |}
                 (upload remote)
  end.

(** [dataset.push(...)] as [upload_data] calls it: the summary is dropped. *)
Definition push (remote : RemoteDataset.t)
    (files_to_exclude : option (list string)) (fps : Z)
    (files_to_upload : option (list string)) : M unit :=
  push_summary remote files_to_exclude fps files_to_upload ;;
  ret tt.

(** Modelled from the spec: pull (section 4.4), the method
    [RemoteDataset.pull], which is not under [src/].  A release that is
    not available fails before anything is created; otherwise the
    destination directory is made and the content downloaded. *)
Definition pull (remote : RemoteDataset.t) (release : Release.t) : M unit :=
  if negb (Release.available release)
  then raise ReleaseUnavailable
  else
    invoke w (Mkdir (RemoteDataset.local_path remote) true true) ;;
    invoke w (DownloadRelease remote release).

End Engine.
End TransferEngine.

(** ** The commands over the ledger and the engine *)

(** [pull_dataset] with the release ledger and the transfer engine of the
    specification in the place of [get_release] and [pull]. *)
Definition pull_dataset_by_spec (w : World) : string -> M unit :=
  pull_dataset_with w (ReleaseLedger.get_release w) (TransferEngine.pull w).

(** [pull_dataset] with the release ledger of the specification in the
    place of [get_release]; [pull] stays a collaborator call, so that the
    log shows which release was handed to it. *)
Definition pull_dataset_by_ledger (w : World) : string -> M unit :=
  pull_dataset_with w (ReleaseLedger.get_release w)
    (fun dataset release => invoke w (Pull dataset release)).

(** [upload_data] with the push of the specification's transfer engine in
    the place of [RemoteDataset.push]. *)
Definition upload_data_by_spec (w : World) (is_video : string -> bool)
    (frame_count : string -> Z -> nat) (normalize : string -> string)
    : string -> option (list string) -> option (list string) -> Z -> M unit :=
  upload_data_with w (TransferEngine.push w is_video frame_count normalize).

(** ** The command line as a whole *)

(** One constructor per command function, with its arguments.  [help], which
    only walks the argument parser and has no failure path, is left out. *)
Inductive command : Type :=
| CmdAuthenticate (api_key : string) (default_team : option bool)
    (datasets_dir : option Path.t)
| CmdCurrentTeam
| CmdListTeams
| CmdSetTeam (team_slug : string)
| CmdCreateDataset (name : string) (team : option string)
| CmdLocal
| CmdPath (dataset_slug : string)
| CmdUrl (dataset_slug : string)
| CmdDatasetReport (dataset_slug granularity : string)
| CmdExportDataset (dataset_slug : string) (annotation_class_ids : option (list Z))
    (name : option string)
| CmdPullDataset (dataset_slug : string)
| CmdListRemoteDatasets (all_teams : bool) (team : option string)
| CmdRemoveRemoteDataset (dataset_slug : string)
| CmdDatasetListReleases (dataset_slug : string)
| CmdUploadData (dataset_slug : string) (files files_to_exclude : option (list string))
    (fps : Z).

(** Running a command; what it returns is dropped. *)
Definition run (w : World) (cmd : command) : M unit :=
  match cmd with
  | CmdAuthenticate api_key default_team datasets_dir =>
      authenticate w api_key default_team datasets_dir ;; ret tt
  | CmdCurrentTeam => current_team w
  | CmdListTeams => list_teams w
  | CmdSetTeam team_slug => set_team w team_slug
  | CmdCreateDataset name team => create_dataset w name team
  | CmdLocal => local w
  | CmdPath dataset_slug => path w dataset_slug ;; ret tt
  | CmdUrl dataset_slug => url w dataset_slug
  | CmdDatasetReport dataset_slug granularity =>
      dataset_report w dataset_slug granularity
  | CmdExportDataset dataset_slug annotation_class_ids name =>
      export_dataset w dataset_slug annotation_class_ids name
  | CmdPullDataset dataset_slug => pull_dataset w dataset_slug
  | CmdListRemoteDatasets all_teams team => list_remote_datasets w all_teams team
  | CmdRemoveRemoteDataset dataset_slug => remove_remote_dataset w dataset_slug
  | CmdDatasetListReleases dataset_slug => dataset_list_releases w dataset_slug
  | CmdUploadData dataset_slug files files_to_exclude fps =>
      upload_data w dataset_slug files files_to_exclude fps
  end.

(** ** Reading a log *)

(** The exception an event records, if it records one. *)
Definition failure_of (ev : event) : option exn :=
  match ev with
  | Failed _ e => Some e
  | Threw e => Some e
  | _ => None
  end.

(** The exceptions raised during a run, in order. *)
Fixpoint failures (t : list event) : list exn :=
  match t with
  | [] => []
  | ev :: rest =>
      match failure_of ev with
      | Some e => e :: failures rest
      | None => failures rest
      end
  end.

(** The names carried by the [NotFound] exceptions raised during a run. *)
Fixpoint not_found_names (t : list event) : list string :=
  match t with
  | [] => []
  | ev :: rest =>
      match failure_of ev with
      | Some (NotFound name) => name :: not_found_names rest
      | _ => not_found_names rest
      end
  end.

(** The line [_error] prints for a message. *)
Definition error_line (message : string) : event :=
  Printed ("Error: " ++ message).

(** How a run may end: with no exception raised, or with a single one that
    is the last thing that happened before the command was left or before
    the error line and [sys.exit(1)]. *)
Definition tidy {A} (r : list event * outcome A) : Prop :=
  match r with
  | (t, Returned _) => failures t = []
  | (t, Raised e) =>
      exists pre ev, t = (pre ++ [ev])%list /\ failures pre = []
                     /\ failure_of ev = Some e
  | (t, Exited code) =>
      code = 1%Z /\
      exists pre ev e message,
        t = (pre ++ [ev; error_line message])%list /\ failures pre = []
        /\ failure_of ev = Some e
  end.

(** *** The failure branches of the commands *)

Definition credentials (e : exn) : bool :=
  match e with
  | MissingConfig | InvalidLogin | Unauthenticated => true
  | _ => false
  end.

Definition is_not_found (e : exn) : bool :=
  match e with NotFound _ => true | _ => false end.

(** [has_branch cmd c e]: the command [cmd] has an [except] clause for the
    exception [e] raised by the call [c] (or by iterating what [c]
    returned).  Read off the [try] statements of the source: the clause of
    [authenticate] around its whole body, the three clauses of
    [_load_client] around [Client.from_config], and the clauses of each
    command around the calls of its own [try] body.  [Path.home()], which
    the source calls both inside the [try] of [_load_client] and outside
    any [try] in [_config], is not listed. *)
Definition has_branch (cmd : command) {X} (c : call X) (e : exn) : bool :=
  match cmd with
  | CmdAuthenticate _ _ _ =>
      match e with InvalidLogin => true | _ => false end
  | _ =>
      match c with
      | FromConfig _ _ => credentials e
      | CreateDataset _ _ =>
          match e with NameTaken | ValidationError => true | _ => false end
      | ListLocalDatasets _ _ =>
          match cmd with CmdPath _ => is_not_found e | _ => false end
      | GetRemoteDataset _ _ =>
          match cmd, e with
          | CmdExportDataset _ _ _, _ => false
          | CmdPullDataset _, Unauthenticated => true
          | CmdUploadData _ _ _ _, ValueError => true
          | _, _ => is_not_found e
          end
      | Push _ _ _ _ =>
          match e with NotFound _ | ValueError => true | _ => false end
      | GetReport _ _ | GetReleases _ | GetRelease _ _ | Pull _ _
      | SecureContinueRequest | RemoveRemote _ => is_not_found e
      | _ => false
      end
  end.

(** [handled cmd ev]: [ev] records a failure [cmd] has a branch for. *)
Definition handled (cmd : command) (ev : event) : bool :=
  match ev with
  | Failed c e => has_branch cmd c e
  | _ => false
  end.

(** *** The names a command was given *)

Definition names_of (x : option string) : list string :=
  match x with Some n => [n] | None => [] end.

(** The reference as typed, and the version, dataset and team it parses to. *)
Definition reference_names (w : World) (reference : string) : list string :=
  reference ::
  match parse_identifier w reference with
  | inr id =>
      or_latest (DatasetIdentifier.version id)
      :: DatasetIdentifier.dataset_slug id
      :: names_of (DatasetIdentifier.team_slug id)
  | inl _ => []
  end.

(** The dataset, team and version names a command was given. *)
Definition context (w : World) (cmd : command) : list string :=
  match cmd with
  | CmdAuthenticate _ _ _ | CmdCurrentTeam | CmdListTeams | CmdLocal => []
  | CmdSetTeam team_slug => [team_slug]
  | CmdCreateDataset name team => name :: names_of team
  | CmdListRemoteDatasets _ team => names_of team
  | CmdExportDataset dataset_slug _ name =>
      (reference_names w dataset_slug ++ names_of name)%list
  | CmdPath dataset_slug | CmdUrl dataset_slug | CmdDatasetReport dataset_slug _
  | CmdPullDataset dataset_slug | CmdRemoveRemoteDataset dataset_slug
  | CmdDatasetListReleases dataset_slug | CmdUploadData dataset_slug _ _ _ =>
      reference_names w dataset_slug
  end.

(** [mentions names message]: one of [names] occurs in [message]. *)
Definition mentions (names : list string) (message : string) : bool :=
  existsb (fun n => contains n message) names.

(** The messages that are the same whatever the command was given. *)
Definition fixed_messages : list string :=
  ["Invalid API key"; "Authenticate first"; "Please re-authenticate";
   "please re-authenticate"; "No files found"].

(** The calls that change what the remote service holds. *)
Definition mutates_remote (ev : event) : bool :=
  match ev with
  | Called c | Failed c _ =>
      match c with
      | CreateDataset _ _ | Export _ _ _ | RemoveRemote _ | Push _ _ _ _
      | UploadTask _ _ => true
      | _ => false
      end
  | _ => false
  end.

(** The calls that reach the remote service. *)
Definition on_network (ev : event) : bool :=
  match ev with
  | Called c | Failed c _ =>
      match c with
      | FromApiKey _ | CreateDataset _ _ | ListRemoteDatasets _
      | GetRemoteDataset _ _ | GetReport _ _ | Export _ _ _ | GetReleases _
      | GetRelease _ _ | Pull _ _ | RemoveRemote _ | Push _ _ _ _
      | UploadTask _ _ | DownloadRelease _ _ => true
      | _ => false
      end
  | _ => false
  end.

(** ** Worlds to run the commands in *)

Module Demo.

Definition home : Path.t := ["home"; "ada"].

Definition client : Client.t :=
  {| Client.team := "acme";
     Client.default_team := "acme";
     Client.url := "https://darwin.example" |}.

Definition cars : RemoteDataset.t :=
  {| RemoteDataset.name := "Cars";
     RemoteDataset.team := "acme";
     RemoteDataset.slug := "cars";
     RemoteDataset.remote_path := "https://darwin.example/datasets/7";
     RemoteDataset.local_path := home // ".darwin" // "datasets" // "acme" // "cars";
     RemoteDataset.identifier := DatasetIdentifier.mk (Some "acme") "cars" None;
     RemoteDataset.image_count := 3;
     RemoteDataset.progress := 0.5 |}.

Definition release (version : string) (date : Z) (ready : bool) : Release.t :=
  {| Release.identifier := DatasetIdentifier.mk (Some "acme") "cars" (Some version);
     Release.image_count := 3;
     Release.class_count := 2;
     Release.export_date := date;
     Release.available := ready |}.

(** The three releases of the specification's example. *)
Definition v1 : Release.t := release "v1" 20230101 true.
Definition v2 : Release.t := release "v2" 20230201 false.
Definition v3 : Release.t := release "v3" 20220101 true.

(** What the collaborators of a scripted world answer. *)
Record script : Type := mk_script
  { client_answer : exn + Client.t;
    dataset_answer : exn + RemoteDataset.t;
    releases_answer : exn + list Release.t;
    locals_answer : generator Path.t;
    confirm_answer : bool;
    scan_answer : list string }.

(** An answer of the right type for every call. *)
Definition nothing {X} (c : call X) : X :=
  match c in call X return X with
  | PathHome => home
  | Mkdir _ _ _ => tt
  | ExpandUser p => p
  | StatOf _ => {| Stat.st_mtime := 0; Stat.st_size := 0 |}
  | FindFiles _ => []
  | Input _ => ""
  | Prompt _ default => default
  | SecureContinueRequest => false
  | FromApiKey _ => client
  | FromConfig _ _ => client
  | SetDatasetsDir _ _ => tt
  | PersistClientConfiguration _ _ => Config.mk (home // ".darwin" // "config.yaml")
  | NewConfig file => Config.mk file
  | GetAllTeams _ => []
  | SetDefaultTeam _ _ => tt
  | CreateDataset _ _ => cars
  | ListLocalDatasets _ _ => mk_generator [] None
  | ListRemoteDatasets _ => []
  | GetRemoteDataset _ _ => cars
  | GetReport _ _ => ""
  | Export _ _ _ => tt
  | GetReleases _ => []
  | GetRelease _ _ => v1
  | Pull _ _ => tt
  | RemoveRemote _ => tt
  | Push _ _ _ _ => tt
  | ScanFiles _ => []
  | UploadTask _ _ => tt
  | DownloadRelease _ _ => tt
  end.

(** The world that follows a script, whatever the history. *)
Definition scripted (s : script) : World :=
  {| parse_identifier := DatasetIdentifier.parse;
     str_identifier := DatasetIdentifier.render;
     naturaldate := fun _ => "today";
     naturalsize := fun _ => "0 Bytes";
     str_round1 := fun _ => "50.0";
     respond := fun X _ c =>
       match c in call X return exn + X with
       | FromConfig _ _ => client_answer s
       | GetRemoteDataset _ _ => dataset_answer s
       | GetReleases _ => releases_answer s
       | ListLocalDatasets _ _ => inr (locals_answer s)
       | SecureContinueRequest => inr (confirm_answer s)
       | ScanFiles _ => inr (scan_answer s)
       | c' => inr (nothing c')
       end |}.

(** Signed in, the dataset [acme/cars] with the three example releases, two
    other datasets on disk, the deletion prompt declined, nothing to scan. *)
Definition usual : script :=
  {| client_answer := inr client;
     dataset_answer := inr cars;
     releases_answer := inr [v1; v2; v3];
     locals_answer :=
       mk_generator [home // ".darwin" // "datasets" // "acme" // "trucks";
                     home // ".darwin" // "datasets" // "acme" // "boats"] None;
     confirm_answer := false;
     scan_answer := [] |}.

(** No configuration file: [Client.from_config] raises [MissingConfig]. *)
Definition signed_out : script :=
  {| client_answer := inl MissingConfig;
     dataset_answer := dataset_answer usual;
     releases_answer := releases_answer usual;
     locals_answer := locals_answer usual;
     confirm_answer := confirm_answer usual;
     scan_answer := scan_answer usual |}.

(** As [usual], with the releases replaced. *)
Definition with_releases (releases : list Release.t) : script :=
  {| client_answer := client_answer usual;
     dataset_answer := dataset_answer usual;
     releases_answer := inr releases;
     locals_answer := locals_answer usual;
     confirm_answer := confirm_answer usual;
     scan_answer := scan_answer usual |}.

End Demo.

(** ** The discipline of the failure branches *)

(** A command is disciplined when every run of it, from any history, is
    [tidy]. *)
Definition disciplined {A} (m : M A) : Prop :=
  forall h, tidy (m h).

(** A command is guarded for the failures [B] marks when a run in which one
    of them happened ends in [sys.exit(1)]. *)
Definition guarded {A} (B : event -> bool) (m : M A) : Prop :=
  forall h ev, In ev (fst (m h)) -> B ev = true -> snd (m h) = Exited 1%Z.

(** Every clause of a handler is a call of [_error]. *)
Definition only_errors {A} (handler : exn -> option (M A)) : Prop :=
  forall e m, handler e = Some m -> exists message, m = _error message.

(** The failures a handler has a clause for. *)
Definition covered {A} (handler : exn -> option (M A)) (ev : event) : bool :=
  match failure_of ev with
  | Some e => match handler e with Some _ => true | None => false end
  | None => false
  end.

(** What is left of [B] inside a [try] whose handler is [handler]. *)
Definition uncovered {A} (B : event -> bool) (handler : exn -> option (M A))
    (ev : event) : bool :=
  B ev && negb (covered handler ev).

(** An error message is accounted for when it is one of the fixed messages or
    mentions a name the command was given or a name a [NotFound] carried. *)
Definition accounted (names : list string) (t : list event) (message : string)
    : Prop :=
  In message fixed_messages
  \/ mentions (names ++ not_found_names t)%list message = true.

(** Every exit of the command is behind an error line that is accounted for. *)
Definition explains {A} (names : list string) (m : M A) : Prop :=
  forall h t code,
    m h = (t, Exited code) ->
    exists pre message,
      t = (pre ++ [error_line message])%list /\ accounted names pre message.

(** Every clause of a handler is a call of [_error] with a fixed message, a
    message that mentions one of [names], or one that mentions the name of
    the [NotFound] it handles. *)
Definition explaining {A} (names : list string) (handler : exn -> option (M A))
    : Prop :=
  forall e m,
    handler e = Some m ->
    exists message,
      m = _error message
      /\ (In message fixed_messages
          \/ mentions names message = true
          \/ exists name, e = NotFound name /\ contains name message = true).

(** [B] marks nothing but failed calls. *)
Definition only_calls (B : event -> bool) : Prop :=
  forall ev, B ev = true -> exists X (c : call X) e, ev = Failed c e.

(** The three properties together: the shape of every run, the failures
    that lead to [_error], and the error messages. *)
Definition well_behaved {A} (B : event -> bool) (names : list string) (m : M A)
    : Prop :=
  disciplined m /\ guarded B m /\ explains names m.

(** ** What a log shows of the releases *)

(** The release an event shows being pulled or downloaded. *)
Definition pulled (ev : event) : option Release.t :=
  match ev with
  | Called c | Failed c _ =>
      match c with
      | Pull _ r => Some r
      | DownloadRelease _ r => Some r
      | _ => None
      end
  | _ => None
  end.

(** [always P m]: every event a run of [m] logs satisfies [P]. *)
Definition always {A} (P : event -> Prop) (m : M A) : Prop :=
  forall h ev, In ev (fst (m h)) -> P ev.

(** An event that shows a release being pulled or downloaded shows an
    available one. *)
Definition pulls_available (ev : event) : Prop :=
  forall r, pulled ev = Some r -> Release.available r = true.

(** ** Sessions *)

(** The file [_load_client] and [_config] open. *)
Definition config_file (home : Path.t) : Path.t :=
  home // ".darwin" // "config.yaml".

(** The log of a [_load_client] that returned. *)
Definition loaded (home : Path.t) (team : option string) : list event :=
  [Called PathHome; Called (FromConfig (config_file home) team)].

(** [signed_in w home team client]: at the start of a run the home directory
    is [home] and the configuration there yields [client] for [team]. *)
Definition signed_in (w : World) (home : Path.t) (team : option string)
    (client : Client.t) : Prop :=
  respond w [] PathHome = inr home
  /\ respond w [Called PathHome] (FromConfig (config_file home) team) = inr client.

(** The log of a command that loaded its client and fetched the dataset a
    reference names. *)
Definition fetched (home : Path.t) (client : Client.t) (reference : dataset_ref)
    : list event :=
  (loaded home None ++ [Called (GetRemoteDataset client reference)])%list.

(** ** Lines and tables the commands print *)

(** What [dataset_list_releases] prints for an empty list. *)
Definition no_releases_line : event :=
  Printed "No available releases, export one first.".

(** The table of [dataset_list_releases] with the given rows. *)
Definition releases_table (rows : list Table.row) : Table.t :=
  {| Table.columns := ["name"; "images"; "classes"; "export_date"];
     Table.alignments := [Table.L; Table.R; Table.R; Table.R];
     Table.rows := rows |}.

(** The version [pull_dataset] asks for. *)
Definition requested (identifier : DatasetIdentifier.t) : string :=
  or_latest (DatasetIdentifier.version identifier).

(** The log of a command that fetched the dataset and listed its releases. *)
Definition listed (home : Path.t) (client : Client.t) (reference : dataset_ref)
    (ds : RemoteDataset.t) : list event :=
  (fetched home client reference ++ [Called (GetReleases ds)])%list.

(** What [pull_dataset] prints when the version is not found. *)
Definition version_not_found_line (w : World) (ds : RemoteDataset.t)
    (version : string) : event :=
  Printed ("Error: Version '" ++ str_identifier w (RemoteDataset.identifier ds)
           ++ ":" ++ version ++ "' does not exist "
           ++ "Use 'darwin dataset releases' to list all available versions.").

(** What [remove_remote_dataset] prints before it asks. *)
Definition about_to_delete_line (w : World) (dataset : RemoteDataset.t) : event :=
  Printed ("About to delete "
           ++ str_identifier w (RemoteDataset.identifier dataset) ++ " on darwin.").

(** The log of [remove_remote_dataset] up to the question. *)
Definition asked (w : World) (home : Path.t) (client : Client.t)
    (dataset_slug : string) (dataset : RemoteDataset.t) : list event :=
  (fetched home client (RefString dataset_slug)
   ++ [about_to_delete_line w dataset])%list.

(** ** [help]

    The argument parser as [help] reads it: a parser has a description and
    actions; a sub-parsers action ([argparse._SubParsersAction]) has its
    [choices], a dict from command name to parser, here the list of its
    items, looked up by key, and its [_choices_actions], one entry per
    command with its [dest] and [help]. *)
Module Argparse.

Record choice : Type := mk_choice
  { dest : string;
    help : option string }.

Inductive parser : Type :=
| Parser (description : option string) (_actions : list action)
with action : Type :=
| SubParsersAction (choices : list (string * parser))
    (_choices_actions : list choice)
| OtherAction.

Definition description (p : parser) : option string :=
  match p with Parser d _ => d end.

Definition _actions (p : parser) : list action :=
  match p with Parser _ actions => actions end.

(** [isinstance(action, argparse._SubParsersAction)] *)
Definition is_subparsers (a : action) : bool :=
  match a with SubParsersAction _ _ => true | OtherAction => false end.

Definition _choices_actions (a : action) : list choice :=
  match a with SubParsersAction _ entries => entries | OtherAction => [] end.

(** [choices[name]], when [name in choices]. *)
Fixpoint lookup (name : string) (choices : list (string * parser))
    : option parser :=
  match choices with
  | [] => None
  | (key, p) :: rest => if String.eqb key name then Some p else lookup name rest
  end.

End Argparse.

(** [str(x)] for an optional string: [None] shows as ["None"]. *)
Definition str_optional (x : option string) : string :=
  match x with Some s => s | None => "None" end.

(** [n] spaces. *)
Fixpoint spaces (n : nat) : string :=
  match n with O => "" | S n' => String " " (spaces n') end.

(** The format [{:<width}]: [s] filled with spaces on the right up to
    [width] characters, never cut.  Names are taken to be ASCII, one byte a
    character. *)
Definition ljust (width : nat) (s : string) : string :=
  s ++ spaces (width - String.length s).

(** [sorted(entries, key=lambda x: x.dest)]: Python's sort is stable and
    ascending for [<] on strings, so it is this insertion sort. *)
Fixpoint insert_by_dest (c : Argparse.choice) (sorted : list Argparse.choice)
    : list Argparse.choice :=
  match sorted with
  | [] => [c]
  | d :: rest =>
      if String.leb (Argparse.dest c) (Argparse.dest d)
      then c :: d :: rest
      else d :: insert_by_dest c rest
  end.

Fixpoint sorted_by_dest (entries : list Argparse.choice) : list Argparse.choice :=
  match entries with
  | [] => []
  | c :: rest => insert_by_dest c (sorted_by_dest rest)
  end.

(** [next(action.choices[subparser] for action in actions
          if isinstance(action, _SubParsersAction)
             and subparser in action.choices)], [None] for [StopIteration]. *)
Fixpoint first_subparser (subparser : string) (actions : list Argparse.action)
    : option Argparse.parser :=
  match actions with
  | [] => None
  | Argparse.SubParsersAction choices _ :: rest =>
      match Argparse.lookup subparser choices with
      | Some p => Some p
      | None => first_subparser subparser rest
      end
  | Argparse.OtherAction :: rest => first_subparser subparser rest
  end.

(** ["    {:<19} {}".format(choice.dest, choice.help)] *)
Definition command_line (c : Argparse.choice) : string :=
  "    " ++ ljust 19 (Argparse.dest c) ++ " " ++ str_optional (Argparse.help c).

(** The built-in [StopIteration], among the other exceptions. *)
Definition StopIteration : exn := OtherError "StopIteration".

(** [help] *)
Definition help (parser : Argparse.parser) (subparser : option string) : M unit :=
  parser <-
    match subparser with
    | None | Some EmptyString => ret parser
    | Some name =>
        match first_subparser name (Argparse._actions parser) with
        | Some p => ret p
        | None => raise StopIteration
        end
    end ;;
  let actions := filter Argparse.is_subparsers (Argparse._actions parser) in
  print (str_optional (Argparse.description parser)) ;;
  print (nl ++ "Commands:") ;;
  for_each actions (fun action =>
    for_each (sorted_by_dest (Argparse._choices_actions action)) (fun choice =>
      print (command_line choice))).

(** The lines [help] prints for the commands of a parser. *)
Definition command_lines (p : Argparse.parser) : list event :=
  flat_map
    (fun action =>
       map (fun choice => Printed (command_line choice))
           (sorted_by_dest (Argparse._choices_actions action)))
    (filter Argparse.is_subparsers (Argparse._actions p)).

(** ** More to read from a log *)

(** The client and default team a returned call of
    [persist_client_configuration] was given. *)
Definition persisted (ev : event) : option (Client.t * option string) :=
  match ev with
  | Called c =>
      match c with
      | PersistClientConfiguration client default_team => Some (client, default_team)
      | _ => None
      end
  | _ => None
  end.

(** The event is a call of [input]. *)
Definition asks_input (ev : event) : bool :=
  match ev with
  | Called c | Failed c _ => match c with Input _ => true | _ => false end
  | _ => false
  end.

(** The event is a call of [prompt]. *)
Definition asks_prompt (ev : event) : bool :=
  match ev with
  | Called c | Failed c _ => match c with Prompt _ _ => true | _ => false end
  | _ => false
  end.

(** The dataset and release a call of [pull] was given. *)
Definition pull_of (ev : event) : option (RemoteDataset.t * Release.t) :=
  match ev with
  | Called c | Failed c _ =>
      match c with
      | Pull dataset release => Some (dataset, release)
      | _ => None
      end
  | _ => None
  end.

(** The number of events of a log that change the remote. *)
Definition mutations (t : list event) : nat :=
  List.length (filter mutates_remote t).

(** The commands that create, export, remove or upload. *)
Definition changes_remote (cmd : command) : bool :=
  match cmd with
  | CmdCreateDataset _ _ | CmdExportDataset _ _ _ | CmdRemoveRemoteDataset _
  | CmdUploadData _ _ _ _ => true
  | _ => false
  end.

(** What [list_remote_datasets] prints at its end: a table or the message. *)
Definition is_listing (ev : event) : bool :=
  match ev with
  | PrintedTable _ => true
  | Printed line => String.eqb line "No dataset available."
  | _ => false
  end.

(** The table of [list_remote_datasets] with the given rows. *)
Definition datasets_table (rows : list Table.row) : Table.t :=
  {| Table.columns := ["name"; "images"; "progress"];
     Table.alignments := [Table.L; Table.R; Table.R];
     Table.rows := rows |}.

(** The table of [local] with the given rows. *)
Definition local_table (rows : list Table.row) : Table.t :=
  {| Table.columns := ["name"; "images"; "sync_date"; "size"];
     Table.alignments := [Table.L; Table.R; Table.R; Table.R];
     Table.rows := rows |}.

(** The line [list_teams] prints for a team. *)
Definition team_line (team : Team.t) : event :=
  Printed (if Team.default team
           then Team.slug team ++ " (default)"
           else Team.slug team).

(** The ["name"] entry of a row. *)
Definition name_cell (r : Table.row) : option Table.cell :=
  match r with
  | (key, cell) :: _ => if String.eqb key "name" then Some cell else None
  | [] => None
  end.

(** ** Properties of commands, by composition *)

(** [returns R m]: whatever [m] returns satisfies [R]. *)
Definition returns {A} (R : A -> Prop) (m : M A) : Prop :=
  forall h t a, m h = (t, Returned a) -> R a.

(** [never_exits m]: no run of [m] ends in [sys.exit]. *)
Definition never_exits {A} (m : M A) : Prop :=
  forall h code, snd (m h) <> Exited code.

(** [at_most n m]: no run of [m] changes the remote more than [n] times. *)
Definition at_most {A} (n : nat) (m : M A) : Prop :=
  forall h, mutations (fst (m h)) <= n.

(** The remote changes one call makes. *)
Definition weight {X} (c : call X) : nat :=
  if mutates_remote (Called c) then 1 else 0.

(** ** A second family of worlds *)

Module Sample.

Definition tools : Client.t :=
  {| Client.team := "tools";
     Client.default_team := "tools";
     Client.url := "https://darwin.example" |}.

Definition boats : RemoteDataset.t :=
  {| RemoteDataset.name := "Boats";
     RemoteDataset.team := "tools";
     RemoteDataset.slug := "boats";
     RemoteDataset.remote_path := "https://darwin.example/datasets/9";
     RemoteDataset.local_path :=
       Demo.home // ".darwin" // "datasets" // "tools" // "boats";
     RemoteDataset.identifier := DatasetIdentifier.mk (Some "tools") "boats" None;
     RemoteDataset.image_count := 12;
     RemoteDataset.progress := 0.25 |}.

Definition trucks_dir : Path.t :=
  Demo.home // ".darwin" // "datasets" // "acme" // "trucks".

Definition cars_dir : Path.t :=
  Demo.home // ".darwin" // "datasets" // "acme" // "cars".

(** The two teams of the configuration, [acme] the default one. *)
Definition teams : list Team.t :=
  [Team.mk "acme" true; Team.mk "tools" false].

(** A world with a configuration for [acme] and [tools], one remote dataset
    each, two local datasets of two and no files, and a user who answers
    [answer] to every question. *)
Definition world (answer : string) : World :=
  {| parse_identifier := DatasetIdentifier.parse;
     str_identifier := DatasetIdentifier.render;
     naturaldate := fun _ => "today";
     naturalsize := fun n => if (n =? 0)%Z then "0 Bytes" else "some bytes";
     str_round1 := fun _ => "50.0";
     respond := fun X _ c =>
       match c in call X return exn + X with
       | Input _ => inr answer
       | Prompt _ _ => inr answer
       | GetAllTeams _ => inr teams
       | FromConfig _ (Some "tools") => inr tools
       | ListRemoteDatasets client =>
           inr (if String.eqb (Client.team client) "tools" then [boats] else [Demo.cars])
       | ListLocalDatasets _ _ => inr (mk_generator [trucks_dir; cars_dir] None)
       | FindFiles [p] =>
           inr (if String.eqb (Path.name p) "trucks"
                then [p // "1.png"; p // "2.png"] else [])
       | StatOf _ => inr {| Stat.st_mtime := 0; Stat.st_size := 100 |}
       | c' => inr (Demo.nothing c')
       end |}.

(** The same world with an API key the server refuses. *)
Definition refusing : World :=
  {| parse_identifier := DatasetIdentifier.parse;
     str_identifier := DatasetIdentifier.render;
     naturaldate := fun _ => "today";
     naturalsize := fun _ => "0 Bytes";
     str_round1 := fun _ => "50.0";
     respond := fun X _ c =>
       match c in call X return exn + X with
       | FromApiKey _ => inl InvalidLogin
       | c' => inr (Demo.nothing c')
       end |}.

End Sample.

(** ** Output and failure *)

(** The event is a [print]. *)
Definition is_print (ev : event) : bool :=
  match ev with
  | Printed _ | PrintedTable _ => true
  | _ => false
  end.

(** What a run printed, in order. *)
Definition prints (t : list event) : list event := filter is_print t.

(** A run that failed printed nothing, or nothing but the error line. *)
Definition failed_quietly {A} (r : list event * outcome A) : Prop :=
  match r with
  | (_, Returned _) => True
  | (t, Raised _) => prints t = []
  | (t, Exited _) => exists message, prints t = [error_line message]
  end.

(** [all_or_nothing m]: every run of [m] that fails, failed quietly. *)
Definition all_or_nothing {A} (m : M A) : Prop :=
  forall h, failed_quietly (m h).

(** [quiet m]: moreover, a run of [m] that returns printed nothing. *)
Definition quiet {A} (m : M A) : Prop :=
  forall h, failed_quietly (m h)
            /\ forall a, snd (m h) = Returned a -> prints (fst (m h)) = [].

(** [total m]: every run of [m] returns. *)
Definition total {A} (m : M A) : Prop :=
  forall h, exists a, snd (m h) = Returned a.

(** The event is a call that writes a question to standard output before
    it reads the answer: [input], and [prompt] and
    [secure_continue_request], which ask through it. *)
Definition asks (ev : event) : bool :=
  match ev with
  | Called c | Failed c _ =>
      match c with
      | Input _ | Prompt _ _ | SecureContinueRequest => true
      | _ => false
      end
  | _ => false
  end.

(** The event wrote to standard output: a [print] or a question. *)
Definition writes (ev : event) : bool := is_print ev || asks ev.

(** The commands that write to standard output before they are done with
    what may fail: [remove_remote_dataset], which announces the deletion
    and asks for confirmation, and [authenticate] when it has to ask for
    the default team or the datasets directory. *)
Definition announces (cmd : command) : bool :=
  match cmd with
  | CmdRemoveRemoteDataset _ => true
  | CmdAuthenticate _ default_team datasets_dir =>
      match default_team, datasets_dir with
      | Some _, Some _ => false
      | _, _ => true
      end
  | _ => false
  end.

(** [commits m]: the configuration is persisted in exactly the runs of [m]
    that return. *)
Definition commits {A} (m : M A) : Prop :=
  forall h,
    (exists ev, In ev (fst (m h)) /\ persisted ev <> None)
    <-> (exists a, snd (m h) = Returned a).

(** ** What the listings are made of *)

(** [answered w c x]: at some point of some run the world answers [x] to
    the call [c]. *)
Definition answered (w : World) {X} (c : call X) (x : X) : Prop :=
  exists hist, respond w hist c = inr x.

(** The sum of a list of sizes. *)
Definition total_of (sizes : list Z) : Z := fold_right Z.add 0%Z sizes.

(** [sized w file size]: [size] is the [st_size] of a [stat] of [file]. *)
Definition sized (w : World) (file : Path.t) (size : Z) : Prop :=
  exists st, answered w (StatOf file) st /\ Stat.st_size st = size.

(** [local_row_of w p row]: [row] is the row of [local] for the dataset
    directory [p]: its name, the number of files one scan found, the date
    of its [stat], and the summed sizes of the files another scan found. *)
Definition local_row_of (w : World) (p : Path.t) (row : Table.row) : Prop :=
  exists images st files sizes,
    answered w (FindFiles [p]) images
    /\ answered w (StatOf p) st
    /\ answered w (FindFiles [p]) files
    /\ Forall2 (sized w) files sizes
    /\ row = [("name", Table.Str (Path.name p));
              ("images", Table.Int (Z.of_nat (List.length images)));
              ("sync_date", Table.Str (naturaldate w (Stat.st_mtime st)));
              ("size", Table.Str (naturalsize w (total_of sizes)))].

(** [listed_for w team datasets]: [datasets] is what
    [list_remote_datasets] answered for a client loaded for [team]. *)
Definition listed_for (w : World) (team : option string)
    (datasets : list RemoteDataset.t) : Prop :=
  exists p client,
    answered w (FromConfig p team) client
    /\ answered w (ListRemoteDatasets client) datasets.

(** What [list_remote_datasets] prints for the datasets it gathered. *)
Definition datasets_output (w : World) (datasets : list RemoteDataset.t) : event :=
  match datasets with
  | [] => Printed "No dataset available."
  | _ :: _ => PrintedTable (datasets_table (map (remote_row w) datasets))
  end.

(** The order of [sorted(..., key=lambda x: x.dest)]. *)
Definition dest_le (a b : Argparse.choice) : Prop :=
  String.leb (Argparse.dest a) (Argparse.dest b) = true.

(** What comes before the help text in a line of [help]. *)
Definition command_lead (c : Argparse.choice) : string :=
  "    " ++ ljust 19 (Argparse.dest c) ++ " ".

(** The event is a call of [persist_client_configuration], returned or
    not. *)
Definition attempts_persist (ev : event) : bool :=
  match ev with
  | Called c | Failed c _ =>
      match c with PersistClientConfiguration _ _ => true | _ => false end
  | _ => false
  end.

(** [settles m]: a call of [persist_client_configuration] that fails in a
    run of [m] ends the run, as the exception it raised. *)
Definition settles {A} (m : M A) : Prop :=
  forall h ev e,
    In ev (fst (m h)) -> attempts_persist ev = true -> failure_of ev = Some e ->
    snd (m h) = Raised e.

(** * Properties *)

(** ** Strings *)

Lemma append_assoc (a b c : string) : (a ++ b) ++ c = a ++ (b ++ c).
Proof.
  induction a as [|x a IH]; simpl; [reflexivity | now rewrite IH].
Qed.

Lemma append_empty_r (a : string) : a ++ "" = a.
Proof.
  induction a as [|x a IH]; simpl; [reflexivity | now rewrite IH].
Qed.

Lemma prefix_of_append (p s : string) : prefix_of p (p ++ s) = true.
Proof.
  induction p as [|x p IH]; simpl; [reflexivity|].
  now rewrite Ascii.eqb_refl, IH.
Qed.

Lemma contains_append_l (n a s : string) :
  contains n s = true -> contains n (a ++ s) = true.
Proof.
  intros H. induction a as [|x a IH]; simpl; [exact H|].
  rewrite IH. apply orb_true_r.
Qed.

(** A text occurs in whatever is written after it, and in whatever is
    written before a text it occurs in. *)
Lemma contains_here (n b : string) : contains n (n ++ b) = true.
Proof.
  destruct n; [now destruct b|].
  simpl. now rewrite Ascii.eqb_refl, prefix_of_append.
Qed.

Lemma contains_skip (n : string) (c : ascii) (s : string) :
  contains n s = true -> contains n (String c s) = true.
Proof. intros H. simpl. rewrite H. apply orb_true_r. Qed.

Lemma split_at_Some (c : ascii) (s l r : string) :
  split_at c s = Some (l, r) -> s = l ++ String c r.
Proof.
  revert l. induction s as [|a s IH]; simpl; intros l H; [discriminate|].
  destruct (Ascii.eqb a c) eqn:E.
  - apply Ascii.eqb_eq in E. injection H as <- <-. now subst.
  - destruct (split_at c s) as [[l' r']|]; [|discriminate].
    injection H as <- <-. simpl. f_equal. now apply IH.
Qed.

(** ** The identifier resolver *)

(** What [parse] accepts, it read off a text that [render] writes back. *)
Lemma render_parse (reference : string) (id : DatasetIdentifier.t) :
  DatasetIdentifier.parse reference = inr id ->
  DatasetIdentifier.render id = reference.
Proof.
  unfold DatasetIdentifier.parse, DatasetIdentifier.render.
  destruct (_ || _); [discriminate|].
  destruct (split_at "/" reference) as [[team rest]|] eqn:Hteam.
  - apply split_at_Some in Hteam. subst reference.
    destruct (split_at ":" rest) as [[dataset ver]|] eqn:Hver.
    + apply split_at_Some in Hver. subst rest.
      destruct dataset; [discriminate|]. intros [= <-]. simpl.
      now rewrite !append_assoc.
    + destruct rest; [discriminate|]. intros [= <-]. simpl.
      now rewrite append_assoc, append_empty_r.
  - destruct (split_at ":" reference) as [[dataset ver]|] eqn:Hver.
    + apply split_at_Some in Hver. subst reference.
      destruct dataset; [discriminate|]. intros [= <-]. reflexivity.
    + destruct reference; [discriminate|]. intros [= <-]. simpl.
      now rewrite append_empty_r.
Qed.

(** C7.  Round trip: an identifier that [parse] produced from some reference
    is what [parse] produces again from its rendering. *)
Theorem parse_render_roundtrip (reference : string) (id : DatasetIdentifier.t) :
  DatasetIdentifier.parse reference = inr id ->
  DatasetIdentifier.parse (DatasetIdentifier.render id) = inr id.
Proof.
  intros H. now rewrite (render_parse _ _ H).
Qed.

Lemma parse_render_roundtrip_witness :
  DatasetIdentifier.parse "team/dataset:v1"
    = inr (DatasetIdentifier.mk (Some "team") "dataset" (Some "v1"))
  /\ DatasetIdentifier.parse
       (DatasetIdentifier.render
          (DatasetIdentifier.mk (Some "team") "dataset" (Some "v1")))
     = inr (DatasetIdentifier.mk (Some "team") "dataset" (Some "v1")).
Proof.
  split; [reflexivity|].
  apply (parse_render_roundtrip "team/dataset:v1"). reflexivity.
Defined.

(** ** Logs *)

Lemma failures_app (a b : list event) :
  failures (a ++ b) = (failures a ++ failures b)%list.
Proof.
  induction a as [|ev a IH]; simpl; [reflexivity|].
  destruct (failure_of ev); simpl; now rewrite IH.
Qed.

Lemma not_found_names_app (a b : list event) :
  not_found_names (a ++ b) = (not_found_names a ++ not_found_names b)%list.
Proof.
  induction a as [|ev a IH]; simpl; [reflexivity|].
  destruct (failure_of ev) as [[]|]; simpl; now rewrite IH.
Qed.

Lemma failures_nil_In (t : list event) (ev : event) :
  failures t = [] -> In ev t -> failure_of ev = None.
Proof.
  induction t as [|x t IH]; simpl; [tauto|].
  destruct (failure_of x) eqn:E; [discriminate|].
  intros H [<-|Hin]; auto.
Qed.

Lemma mentions_app (a b : list string) (message : string) :
  mentions (a ++ b) message = mentions a message || mentions b message.
Proof. unfold mentions. apply existsb_app. Qed.

Lemma mentions_In (names : list string) (n message : string) :
  In n names -> contains n message = true -> mentions names message = true.
Proof.
  intros Hin Hc. unfold mentions. apply existsb_exists. eauto.
Qed.

Lemma accounted_app (names : list string) (t pre : list event) (message : string) :
  accounted names pre message -> accounted names (t ++ pre) message.
Proof.
  intros [H|H]; [now left|right].
  rewrite mentions_app in *. rewrite not_found_names_app, mentions_app.
  apply orb_true_iff in H as [H|H]; rewrite H; auto using orb_true_r.
  now rewrite !orb_true_r.
Qed.

(** ** The monad *)

Lemma error_runs {A} (message : string) (h : list event) :
  @_error A message h = ([error_line message], Exited 1%Z).
Proof. reflexivity. Qed.

Section Discipline.

Variable w : World.

Lemma disciplined_ret {A} (a : A) : disciplined (ret a).
Proof. intros h. reflexivity. Qed.

Lemma disciplined_print (line : string) : disciplined (print line).
Proof. intros h. reflexivity. Qed.

Lemma disciplined_print_table (table : Table.t) : disciplined (print_table table).
Proof. intros h. reflexivity. Qed.

Lemma disciplined_raise {A} (e : exn) : disciplined (@raise A e).
Proof. intros h. exists [], (Threw e). auto. Qed.

Lemma disciplined_lift {A} (r : exn + A) : disciplined (lift r).
Proof. destruct r; [apply disciplined_raise | apply disciplined_ret]. Qed.

Lemma disciplined_invoke {X} (c : call X) : disciplined (invoke w c).
Proof.
  intros h. unfold invoke. destruct (respond w h c) as [e|x]; simpl; [|reflexivity].
  exists [], (Failed c e). auto.
Qed.

Lemma disciplined_exhaust {X A} (c : call X) (g : generator A) :
  disciplined (exhaust c g).
Proof.
  intros h. unfold exhaust. destruct (failure g) as [e|]; simpl; [|reflexivity].
  exists [], (Failed c e). auto.
Qed.

Lemma disciplined_bind {A B} (m : M A) (k : A -> M B) :
  disciplined m -> (forall a, disciplined (k a)) -> disciplined (bind m k).
Proof.
  intros Hm Hk h. unfold bind. specialize (Hm h).
  destruct (m h) as [t [a|e|code]]; simpl in *; auto.
  specialize (Hk a (h ++ t)%list).
  destruct (k a (h ++ t)%list) as [t' [b|e|code]]; simpl in *.
  - rewrite failures_app, Hm, Hk. reflexivity.
  - destruct Hk as (pre & ev & -> & Hpre & Hev).
    exists (t ++ pre)%list, ev. rewrite app_assoc, failures_app, Hm, Hpre. auto.
  - destruct Hk as (-> & pre & ev & e & message & -> & Hpre & Hev).
    split; [reflexivity|].
    exists (t ++ pre)%list, ev, e, message.
    rewrite app_assoc, failures_app, Hm, Hpre. auto.
Qed.

Lemma disciplined_try {A} (body : M A) (handler : exn -> option (M A)) :
  disciplined body -> only_errors handler -> disciplined (try_except body handler).
Proof.
  intros Hb Hh h. unfold try_except. specialize (Hb h).
  destruct (body h) as [t [a|e|code]]; simpl in *; auto.
  destruct (handler e) as [recover|] eqn:E; simpl; auto.
  destruct (Hh _ _ E) as [message ->]. rewrite error_runs.
  destruct Hb as (pre & ev & -> & Hpre & Hev).
  split; [reflexivity|].
  exists pre, ev, e, message. rewrite <- app_assoc. auto.
Qed.

Lemma disciplined_for_fold {A S} (items : list A) (acc : S) (body : S -> A -> M S) :
  (forall acc x, disciplined (body acc x)) -> disciplined (for_fold items acc body).
Proof.
  intros Hb. revert acc. induction items as [|x items IH]; intros acc; simpl.
  - apply disciplined_ret.
  - apply disciplined_bind; auto.
Qed.

Lemma disciplined_for_return_items {A B} (items : list A) (stop : M unit)
    (body : A -> M (option B)) :
  disciplined stop -> (forall x, disciplined (body x)) ->
  disciplined (for_return_items items stop body).
Proof.
  intros Hs Hb. induction items as [|x items IH]; simpl.
  - apply disciplined_bind; auto using @disciplined_ret.
  - apply disciplined_bind; auto. intros [b|]; auto using @disciplined_ret.
Qed.

End Discipline.

(** ** Composing well-behaved commands *)

Lemma only_calls_failure (B : event -> bool) (ev : event) :
  only_calls B -> B ev = true -> failure_of ev <> None.
Proof. intros HB H. destruct (HB _ H) as (X & c & e & ->). discriminate. Qed.

Lemma only_calls_uncovered {A} (B : event -> bool) (handler : exn -> option (M A)) :
  only_calls B -> only_calls (uncovered B handler).
Proof.
  intros HB ev H. apply HB. unfold uncovered in H.
  now apply andb_true_iff in H.
Qed.

Lemma explaining_only_errors {A} (names : list string)
    (handler : exn -> option (M A)) :
  explaining names handler -> only_errors handler.
Proof. intros H e m E. destruct (H _ _ E) as (message & -> & _). eauto. Qed.

Section Composition.

Variable w : World.
Variable B : event -> bool.
Variable names : list string.
Hypothesis B_calls : only_calls B.

(** A command that always returns is well behaved once it is disciplined. *)
Lemma well_behaved_returning {A} (m : M A) :
  disciplined m -> (forall h, exists a, snd (m h) = Returned a) ->
  well_behaved B names m.
Proof.
  intros Hd Hr. split; [exact Hd|split].
  - intros h ev Hin Hb. exfalso.
    specialize (Hd h). destruct (Hr h) as [a Ha].
    destruct (m h) as [t o]; simpl in *; subst o.
    now apply (only_calls_failure B ev B_calls Hb), (failures_nil_In t).
  - intros h t code E. destruct (Hr h) as [a Ha]. now rewrite E in Ha.
Qed.

Lemma well_behaved_ret {A} (a : A) : well_behaved B names (ret a).
Proof.
  apply well_behaved_returning; [apply disciplined_ret|].
  intros h. eexists. reflexivity.
Qed.

Lemma well_behaved_print (line : string) : well_behaved B names (print line).
Proof.
  apply well_behaved_returning; [apply disciplined_print|].
  intros h. eexists. reflexivity.
Qed.

Lemma well_behaved_print_table (table : Table.t) :
  well_behaved B names (print_table table).
Proof.
  apply well_behaved_returning; [apply disciplined_print_table|].
  intros h. eexists. reflexivity.
Qed.

Lemma well_behaved_raise {A} (e : exn) : well_behaved B names (@raise A e).
Proof.
  split; [apply disciplined_raise|split].
  - intros h ev [<-|[]] Hb. destruct (B_calls _ Hb) as (X & c & e' & [=]).
  - intros h t code [=].
Qed.

Lemma well_behaved_lift {A} (r : exn + A) : well_behaved B names (lift r).
Proof. destruct r; [apply well_behaved_raise | apply well_behaved_ret]. Qed.

(** A call outside every [try]: [B] must not mark its failures. *)
Lemma well_behaved_invoke {X} (c : call X) :
  (forall e, B (Failed c e) = false) -> well_behaved B names (invoke w c).
Proof.
  intros Hc. split; [apply disciplined_invoke|split].
  - intros h ev. unfold invoke. destruct (respond w h c) as [e|x]; simpl.
    + intros [<-|[]] Hb. now rewrite Hc in Hb.
    + intros [<-|[]] Hb. destruct (B_calls _ Hb) as (Y & c' & e' & [=]).
  - intros h t code. unfold invoke. now destruct (respond w h c).
Qed.

Lemma well_behaved_exhaust {X A} (c : call X) (g : generator A) :
  (forall e, B (Failed c e) = false) -> well_behaved B names (exhaust c g).
Proof.
  intros Hc. split; [apply disciplined_exhaust|split].
  - intros h ev. unfold exhaust. destruct (failure g) as [e|]; simpl.
    + intros [<-|[]] Hb. now rewrite Hc in Hb.
    + tauto.
  - intros h t code. unfold exhaust. now destruct (failure g).
Qed.

Lemma well_behaved_bind {A C} (m : M A) (k : A -> M C) :
  well_behaved B names m -> (forall a, well_behaved B names (k a)) ->
  well_behaved B names (bind m k).
Proof.
  intros (Hd & Hg & He) Hk. split; [|split].
  - apply disciplined_bind; [exact Hd | intros a; apply Hk].
  - intros h ev. specialize (Hd h). specialize (Hg h). unfold bind.
    destruct (m h) as [t [a|e|code]] eqn:E; simpl in *;
      [| intros Hin Hb; discriminate (Hg ev Hin Hb)
       | intros Hin Hb; now injection (Hg ev Hin Hb) as ->].
    destruct (Hk a) as (_ & Hga & _). specialize (Hga (h ++ t)%list).
    destruct (k a (h ++ t)%list) as [t' o']; simpl in *.
    intros Hin Hb. apply in_app_or in Hin as [Hin|Hin]; [exfalso|eauto].
    now apply (only_calls_failure B ev B_calls Hb), (failures_nil_In t).
  - intros h t code. specialize (He h). unfold bind.
    destruct (m h) as [t1 [a|e|c1]] eqn:E; simpl in *.
    + destruct (Hk a) as (_ & _ & Hea). specialize (Hea (h ++ t1)%list).
      destruct (k a (h ++ t1)%list) as [t2 o2]; simpl in *.
      intros [= <- ->]. destruct (Hea _ _ eq_refl) as (pre & message & -> & Hacc).
      exists (t1 ++ pre)%list, message.
      rewrite app_assoc. split; [reflexivity | now apply accounted_app].
    + discriminate.
    + intros [= <- <-]. eauto.
Qed.

End Composition.

(** A [try] statement whose clauses all call [_error]: the failures its
    handler covers need not be guarded inside. *)
Lemma well_behaved_try {A} (B : event -> bool) (names : list string)
    (body : M A) (handler : exn -> option (M A)) :
  only_calls B ->
  well_behaved (uncovered B handler) names body ->
  explaining names handler ->
  well_behaved B names (try_except body handler).
Proof.
  intros HB (Hd & Hg & He) Hh.
  pose proof (explaining_only_errors _ _ Hh) as Ho.
  split; [|split].
  - now apply disciplined_try.
  - intros h ev. specialize (Hd h). specialize (Hg h ev). unfold try_except.
    destruct (body h) as [t [a|e|code]] eqn:E; simpl in *.
    + intros Hin Hb. exfalso.
      now apply (only_calls_failure B ev HB Hb), (failures_nil_In t).
    + destruct (handler e) as [recover|] eqn:Eh.
      * destruct (Ho _ _ Eh) as [message ->]. now rewrite error_runs.
      * simpl. intros Hin Hb. exfalso.
        destruct Hd as (pre & ev' & -> & Hpre & Hev).
        apply in_app_or in Hin as [Hin|[<-|[]]].
        -- now apply (only_calls_failure B ev HB Hb), (failures_nil_In pre).
        -- assert (Hu : uncovered B handler ev' = true).
           { unfold uncovered, covered. now rewrite Hb, Hev, Eh. }
           discriminate Hg; [apply in_or_app; right; apply in_eq | exact Hu].
    + destruct Hd as [-> _]. reflexivity.
  - intros h t code. specialize (Hd h). specialize (He h). unfold try_except.
    destruct (body h) as [t1 [a|e|c1]] eqn:E; simpl in *.
    + discriminate.
    + destruct (handler e) as [recover|] eqn:Eh; [|discriminate].
      destruct (Hh _ _ Eh) as (message & -> & Hm). rewrite error_runs.
      intros [= <- <-]. exists t1, message. split; [reflexivity|].
      destruct Hm as [Hm|[Hm|(name & -> & Hm)]].
      * now left.
      * right. rewrite mentions_app, Hm. reflexivity.
      * right. rewrite mentions_app. apply orb_true_iff. right.
        destruct Hd as (pre & ev & -> & Hpre & Hev).
        rewrite not_found_names_app. simpl. rewrite Hev.
        rewrite mentions_app. apply orb_true_iff. right.
        simpl. now rewrite Hm.
    + intros [= <- <-]. eauto.
Qed.

Lemma well_behaved_for_fold {A S} (B : event -> bool) (names : list string)
    (items : list A) (acc : S) (body : S -> A -> M S) :
  only_calls B ->
  (forall acc x, well_behaved B names (body acc x)) ->
  well_behaved B names (for_fold items acc body).
Proof.
  intros HB Hb. revert acc. induction items as [|x items IH]; intros acc; simpl.
  - now apply well_behaved_ret.
  - apply well_behaved_bind; auto.
Qed.

Lemma well_behaved_for_return_items {A C} (B : event -> bool)
    (names : list string) (items : list A) (stop : M unit)
    (body : A -> M (option C)) :
  only_calls B ->
  well_behaved B names stop ->
  (forall x, well_behaved B names (body x)) ->
  well_behaved B names (for_return_items items stop body).
Proof.
  intros HB Hs Hb. induction items as [|x items IH]; simpl.
  - apply well_behaved_bind; auto. intros _. now apply well_behaved_ret.
  - apply well_behaved_bind; auto.
    intros [b|]; auto. now apply well_behaved_ret.
Qed.

Lemma well_behaved_ext {A} (B : event -> bool) (names : list string) (m m' : M A) :
  (forall h, m h = m' h) -> well_behaved B names m' -> well_behaved B names m.
Proof.
  intros E (Hd & Hg & He). split; [|split].
  - intros h. rewrite E. apply Hd.
  - intros h ev. rewrite E. apply Hg.
  - intros h t code. rewrite E. apply He.
Qed.

Lemma bind_ret_run {A C} (a : A) (k : A -> M C) (h : list event) :
  bind (ret a) k h = k a h.
Proof. unfold bind, ret. rewrite app_nil_r. now destruct (k a h). Qed.

Lemma bind_raise_run {A C} (e : exn) (k : A -> M C) (h : list event) :
  bind (raise e) k h = raise e h.
Proof. reflexivity. Qed.

(** Binding the result of a pure collaborator: the continuation only has to
    behave on the value that was returned. *)
Lemma well_behaved_bind_lift {A C} (B : event -> bool) (names : list string)
    (r : exn + A) (k : A -> M C) :
  only_calls B ->
  (forall a, r = inr a -> well_behaved B names (k a)) ->
  well_behaved B names (bind (lift r) k).
Proof.
  intros HB Hk. destruct r as [e|a]; simpl.
  - apply well_behaved_ext with (m' := raise e); [apply bind_raise_run|].
    now apply well_behaved_raise.
  - apply well_behaved_ext with (m' := k a); [apply bind_ret_run | auto].
Qed.

(** ** Every command is well behaved *)

Lemma only_calls_handled (cmd : command) : only_calls (handled cmd).
Proof. intros [| | | |] H; try discriminate. eauto. Qed.

Create HintDb behaviour.
#[local] Hint Resolve only_calls_handled : behaviour.
#[local] Hint Resolve only_calls_uncovered : behaviour.

(** Finds [n] in a text written as [a ++ ... ++ n ++ b]. *)
Ltac find_name :=
  first [ apply contains_here
        | apply contains_skip; find_name
        | apply contains_append_l; find_name ].

(** A call whose failures are not marked, or are covered by the handler. *)
Ltac unmarked :=
  let e := fresh "e" in intros e; destruct e; reflexivity.

(** The clauses of a handler, one by one. *)
Ltac clauses :=
  let e := fresh "e" in
  let m := fresh "m" in
  let H := fresh "H" in
  intros e m H; destruct e; try discriminate H;
  injection H as <-; eexists; (split; [reflexivity|]).

Ltac fixed_message := left; simpl; tauto.
Ltac names_message n :=
  right; left; apply mentions_In with n;
  [ unfold context, reference_names; simpl; auto | find_name ].
Ltac not_found_message :=
  right; right; eexists; (split; [reflexivity | find_name]).

Ltac behave_step :=
  first
    [ apply well_behaved_ret; solve [auto with behaviour]
    | apply well_behaved_print; solve [auto with behaviour]
    | apply well_behaved_print_table; solve [auto with behaviour]
    | apply well_behaved_raise; solve [auto with behaviour]
    | apply well_behaved_lift; solve [auto with behaviour]
    | apply well_behaved_invoke; [solve [auto with behaviour] | unmarked]
    | apply well_behaved_exhaust; unmarked
    | apply well_behaved_bind; [solve [auto with behaviour] | | intros ?]
    | apply well_behaved_for_fold; [solve [auto with behaviour] | intros ? ?]
    | match goal with
      | |- well_behaved _ _ (if ?b then _ else _) => destruct b
      | |- well_behaved _ _ (match ?x with _ => _ end) => destruct x
      end ].

Ltac behave := repeat behave_step.

Section Behaviour.

Variable w : World.

Lemma well_behaved_load_client (B : event -> bool) (names : list string)
    (team : option string) (offline : bool) :
  only_calls B ->
  (forall e, B (Failed PathHome e) = false) ->
  (forall p t e, credentials e = false -> B (Failed (FromConfig p t) e) = false) ->
  well_behaved B names (_load_client w team offline).
Proof.
  intros HB Hhome Hconfig. unfold _load_client.
  apply well_behaved_try; [exact HB| |].
  - apply well_behaved_bind; [auto with behaviour| |intros home].
    + apply well_behaved_invoke; [auto with behaviour|].
      intros e. unfold uncovered. now rewrite Hhome.
    + apply well_behaved_bind; [auto with behaviour| |intros client].
      * apply well_behaved_invoke; [auto with behaviour|].
        intros e. unfold uncovered, covered. simpl.
        destruct e; try (rewrite Hconfig by reflexivity); try reflexivity;
          apply andb_false_r.
      * apply well_behaved_ret. auto with behaviour.
  - clauses; fixed_message.
Qed.

Lemma well_behaved_config (B : event -> bool) (names : list string) :
  only_calls B ->
  (forall e, B (Failed PathHome e) = false) ->
  (forall p e, B (Failed (NewConfig p) e) = false) ->
  well_behaved B names (_config w).
Proof.
  intros HB Hhome Hnew. unfold _config.
  apply well_behaved_bind; [exact HB| |intros home];
    apply well_behaved_invoke; auto.
Qed.

End Behaviour.

(** [_load_client], as the commands other than [authenticate] call it. *)
Ltac load_client :=
  apply well_behaved_load_client;
  [ auto with behaviour
  | unmarked
  | let e := fresh "e" in intros ? ? e; destruct e; (discriminate || reflexivity) ].

Ltac config :=
  apply well_behaved_config;
  [ auto with behaviour | unmarked | intros ?; unmarked ].

Section CommandBehaviour.

Variable w : World.

Lemma authenticate_behaves api_key default_team datasets_dir :
  let cmd := CmdAuthenticate api_key default_team datasets_dir in
  well_behaved (handled cmd) (context w cmd) (run w cmd).
Proof.
  intros cmd. unfold run, cmd, authenticate.
  apply well_behaved_bind; [auto with behaviour| |intros ?; behave].
  apply well_behaved_try; [auto with behaviour| |clauses; fixed_message].
  behave.
Qed.

Lemma current_team_behaves :
  well_behaved (handled CmdCurrentTeam) (context w CmdCurrentTeam)
               (run w CmdCurrentTeam).
Proof.
  unfold run, current_team.
  apply well_behaved_bind; [auto with behaviour|load_client|intros ?; behave].
Qed.

Lemma list_teams_behaves :
  well_behaved (handled CmdListTeams) (context w CmdListTeams) (run w CmdListTeams).
Proof.
  unfold run, list_teams, for_each.
  apply well_behaved_bind; [auto with behaviour|config|intros ?; behave].
Qed.

Lemma set_team_behaves team_slug :
  let cmd := CmdSetTeam team_slug in
  well_behaved (handled cmd) (context w cmd) (run w cmd).
Proof.
  intros cmd. unfold run, cmd, set_team.
  apply well_behaved_bind; [auto with behaviour|config|intros ?; behave].
Qed.

Lemma create_dataset_behaves name team :
  let cmd := CmdCreateDataset name team in
  well_behaved (handled cmd) (context w cmd) (run w cmd).
Proof.
  intros cmd. unfold run, cmd, create_dataset.
  apply well_behaved_bind; [auto with behaviour|load_client|intros client].
  apply well_behaved_try; [auto with behaviour|behave|].
  clauses; names_message name.
Qed.

Lemma local_behaves :
  well_behaved (handled CmdLocal) (context w CmdLocal) (run w CmdLocal).
Proof.
  unfold run, local, total_size.
  apply well_behaved_bind; [auto with behaviour|load_client|intros client].
  behave.
Qed.

Lemma path_behaves dataset_slug :
  let cmd := CmdPath dataset_slug in
  well_behaved (handled cmd) (context w cmd) (run w cmd).
Proof.
  intros cmd. unfold run, cmd, path.
  apply well_behaved_bind; [auto with behaviour| |intros ?; behave].
  apply well_behaved_bind; [auto with behaviour|behave|intros identifier].
  apply well_behaved_bind; [auto with behaviour|load_client|intros client].
  apply well_behaved_try; [auto with behaviour| |clauses; not_found_message].
  apply well_behaved_bind; [auto with behaviour|behave|intros datasets].
  apply well_behaved_for_return_items; [auto with behaviour|behave|intros p; behave].
Qed.

Lemma url_behaves dataset_slug :
  let cmd := CmdUrl dataset_slug in
  well_behaved (handled cmd) (context w cmd) (run w cmd).
Proof.
  intros cmd. unfold run, cmd, url.
  apply well_behaved_bind; [auto with behaviour|load_client|intros client].
  apply well_behaved_try; [auto with behaviour|behave|clauses; not_found_message].
Qed.

Lemma dataset_report_behaves dataset_slug granularity :
  let cmd := CmdDatasetReport dataset_slug granularity in
  well_behaved (handled cmd) (context w cmd) (run w cmd).
Proof.
  intros cmd. unfold run, cmd, dataset_report.
  apply well_behaved_bind; [auto with behaviour|load_client|intros client].
  apply well_behaved_try; [auto with behaviour|behave|clauses; names_message dataset_slug].
Qed.

Lemma export_dataset_behaves dataset_slug annotation_class_ids name :
  let cmd := CmdExportDataset dataset_slug annotation_class_ids name in
  well_behaved (handled cmd) (context w cmd) (run w cmd).
Proof.
  intros cmd. unfold run, cmd, export_dataset.
  apply well_behaved_bind; [auto with behaviour|load_client|intros client].
  behave.
Qed.

End CommandBehaviour.

Ltac behave_all := repeat first [ behave_step | load_client | config ].

Section RemoteCommandBehaviour.

Variable w : World.

Lemma pull_dataset_behaves dataset_slug :
  let cmd := CmdPullDataset dataset_slug in
  well_behaved (handled cmd) (context w cmd) (run w cmd).
Proof.
  intros cmd. unfold run, cmd, pull_dataset, pull_dataset_with.
  apply well_behaved_bind_lift; [auto with behaviour|intros identifier Ep].
  apply well_behaved_bind; [auto with behaviour|load_client|intros client].
  apply well_behaved_bind; [auto with behaviour| |intros dataset].
  { apply well_behaved_try; [auto with behaviour|behave|].
    clauses; [names_message dataset_slug | fixed_message]. }
  apply well_behaved_bind; [auto with behaviour| |intros release; behave].
  apply well_behaved_try; [auto with behaviour|behave|].
  clauses. right; left.
  apply mentions_In with (or_latest (DatasetIdentifier.version identifier)).
  - unfold context, reference_names. rewrite Ep. simpl. auto.
  - find_name.
Qed.

Lemma list_remote_datasets_behaves all_teams team :
  let cmd := CmdListRemoteDatasets all_teams team in
  well_behaved (handled cmd) (context w cmd) (run w cmd).
Proof.
  intros cmd. unfold run, cmd, list_remote_datasets.
  apply well_behaved_bind; [auto with behaviour| |intros datasets; behave].
  destruct all_teams; behave_all.
Qed.

Lemma remove_remote_dataset_behaves dataset_slug :
  let cmd := CmdRemoveRemoteDataset dataset_slug in
  well_behaved (handled cmd) (context w cmd) (run w cmd).
Proof.
  intros cmd. unfold run, cmd, remove_remote_dataset.
  apply well_behaved_bind; [auto with behaviour|load_client|intros client].
  apply well_behaved_try; [auto with behaviour|behave|].
  clauses; names_message dataset_slug.
Qed.

Lemma dataset_list_releases_behaves dataset_slug :
  let cmd := CmdDatasetListReleases dataset_slug in
  well_behaved (handled cmd) (context w cmd) (run w cmd).
Proof.
  intros cmd. unfold run, cmd, dataset_list_releases.
  apply well_behaved_bind; [auto with behaviour|load_client|intros client].
  apply well_behaved_try; [auto with behaviour|behave|].
  clauses; names_message dataset_slug.
Qed.

Lemma upload_data_behaves dataset_slug files files_to_exclude fps :
  let cmd := CmdUploadData dataset_slug files files_to_exclude fps in
  well_behaved (handled cmd) (context w cmd) (run w cmd).
Proof.
  intros cmd. unfold run, cmd, upload_data, upload_data_with.
  apply well_behaved_bind; [auto with behaviour|load_client|intros client].
  apply well_behaved_try; [auto with behaviour|behave|].
  clauses; [not_found_message | fixed_message].
Qed.

End RemoteCommandBehaviour.

(** Every command, in every world: its runs are tidy, the failures it has a
    branch for end in [sys.exit(1)], and its error messages are accounted
    for. *)
Lemma run_behaves (w : World) (cmd : command) :
  well_behaved (handled cmd) (context w cmd) (run w cmd).
Proof.
  destruct cmd.
  - apply authenticate_behaves.
  - apply current_team_behaves.
  - apply list_teams_behaves.
  - apply set_team_behaves.
  - apply create_dataset_behaves.
  - apply local_behaves.
  - apply path_behaves.
  - apply url_behaves.
  - apply dataset_report_behaves.
  - apply export_dataset_behaves.
  - apply pull_dataset_behaves.
  - apply list_remote_datasets_behaves.
  - apply remove_remote_dataset_behaves.
  - apply dataset_list_releases_behaves.
  - apply upload_data_behaves.
Qed.

(** ** Failure branches (C8) *)

(** C8.  Every failure branch of every command ends the process through
    [_error].  In any world and from any history, a run of a command either
    saw no exception and did not exit; or saw exactly one, as the last thing
    before it left the command or before the line ["Error: ..."] and
    [sys.exit(1)].  So a run that exits does so with status 1 right behind
    an error line, and no run returns normally once something failed.  And
    whenever the failure is one the command has an [except] clause for
    ([has_branch]: invalid login, missing configuration, unauthenticated,
    dataset or release not found, name taken, name not valid, no files), the
    run ends in that exit. *)
Theorem failure_branches_exit_through_error
    (w : World) (cmd : command) (h t : list event) (o : outcome unit) :
  run w cmd h = (t, o) ->
  match o with
  | Returned _ => failures t = []
  | Raised e =>
      exists pre ev,
        t = (pre ++ [ev])%list /\ failures pre = [] /\ failure_of ev = Some e
  | Exited code =>
      code = 1%Z /\
      exists pre ev e message,
        t = (pre ++ [ev; Printed ("Error: " ++ message)])%list
        /\ failures pre = [] /\ failure_of ev = Some e
  end
  /\ (forall X (c : call X) e,
        In (Failed c e) t -> has_branch cmd c e = true -> o = Exited 1%Z).
Proof.
  intros E. destruct (run_behaves w cmd) as (Hd & Hg & _).
  specialize (Hd h). specialize (Hg h). rewrite E in Hd, Hg. split.
  - exact Hd.
  - intros X c e Hin Hb. exact (Hg (Failed c e) Hin Hb).
Qed.

Lemma failure_branches_exit_through_error_witness :
  run (Demo.scripted Demo.signed_out) (CmdCreateDataset "cars" None) []
  = ([Called PathHome;
      Failed (FromConfig (config_file Demo.home) None) MissingConfig;
      Printed "Error: Authenticate first"], Exited 1%Z)
  /\ (1 = 1 /\
      exists pre ev e message,
        [Called PathHome;
         Failed (FromConfig (config_file Demo.home) None) MissingConfig;
         Printed "Error: Authenticate first"]
        = (pre ++ [ev; Printed ("Error: " ++ message)])%list
        /\ failures pre = [] /\ failure_of ev = Some e)%Z
  /\ (forall X (c : call X) e,
        In (Failed c e)
           [Called PathHome;
            Failed (FromConfig (config_file Demo.home) None) MissingConfig;
            Printed "Error: Authenticate first"] ->
        has_branch (CmdCreateDataset "cars" None) c e = true ->
        @Exited unit 1 = Exited 1%Z).
Proof.
  split; [reflexivity|].
  exact (failure_branches_exit_through_error
           (Demo.scripted Demo.signed_out) (CmdCreateDataset "cars" None) []
           _ (Exited 1%Z) eq_refl).
Defined.

(** [export_dataset] has no [try]: a dataset that is not found leaves the
    command as the exception it is, with no error line. *)
Example export_dataset_not_found_propagates :
  run (Demo.scripted
         {| Demo.client_answer := inr Demo.client;
            Demo.dataset_answer := inl (NotFound "acme/cars");
            Demo.releases_answer := inr [];
            Demo.locals_answer := mk_generator [] None;
            Demo.confirm_answer := false;
            Demo.scan_answer := [] |})
      (CmdExportDataset "acme/cars" None (Some "v4")) []
  = ([Called PathHome;
      Called (FromConfig (config_file Demo.home) None);
      Failed (GetRemoteDataset Demo.client
                (RefIdentifier (DatasetIdentifier.mk (Some "acme") "cars" None)))
             (NotFound "acme/cars")],
     Raised (NotFound "acme/cars")).
Proof. reflexivity. Qed.

(** ** Error messages (C2) *)




(** ** Running a command in a world that answers *)

Lemma load_client_run (w : World) (home : Path.t) (team : option string)
    (client : Client.t) (offline : bool) :
  signed_in w home team client ->
  _load_client w team offline [] = (loaded home team, Returned client).
Proof.
  intros [Hhome Hclient].
  unfold _load_client, try_except, bind, invoke. rewrite Hhome. simpl.
  unfold config_file in Hclient. rewrite Hclient. reflexivity.
Qed.

(** What a command does once [_load_client] has returned. *)
Lemma after_load_client {A} (w : World) (home : Path.t) (team : option string)
    (client : Client.t) (offline : bool) (k : Client.t -> M A) :
  signed_in w home team client ->
  bind (_load_client w team offline) k []
  = (let (t, o) := k client (loaded home team) in ((loaded home team ++ t)%list, o)).
Proof.
  intros Hs. unfold bind at 1. now rewrite (load_client_run _ _ _ _ _ Hs).
Qed.

(** ** Export (C6) *)

(** C6.  [export_dataset] triggers the export and is done: with the client
    loaded, the reference parsed and the dataset fetched, once the call of
    [export] has returned the command calls nothing else (it does not poll
    the releases), sets the version of the identifier to the name it was
    given, prints the success line with that identifier, and returns. *)
Theorem export_returns_once_triggered
    (w : World) (dataset_slug : string) (annotation_class_ids : option (list Z))
    (name : option string) (home : Path.t) (client : Client.t)
    (identifier : DatasetIdentifier.t) (ds : RemoteDataset.t) :
  signed_in w home None client ->
  parse_identifier w dataset_slug = inr identifier ->
  respond w (loaded home None) (GetRemoteDataset client (RefIdentifier identifier))
    = inr ds ->
  respond w (fetched home client (RefIdentifier identifier))
            (Export ds annotation_class_ids name) = inr tt ->
  export_dataset w dataset_slug annotation_class_ids name []
  = ((fetched home client (RefIdentifier identifier)
      ++ [Called (Export ds annotation_class_ids name);
          Printed ("Dataset " ++ dataset_slug ++ " successfully exported to "
                   ++ str_identifier w
                        (DatasetIdentifier.mk (DatasetIdentifier.team_slug identifier)
                           (DatasetIdentifier.dataset_slug identifier) name))])%list,
     Returned tt).
Proof.
  intros Hs Hparse Hds Hexport. unfold export_dataset.
  rewrite (after_load_client _ _ _ _ _ _ Hs).
  unfold bind, invoke, lift, ret. rewrite Hparse. simpl.
  unfold loaded in Hds. simpl in Hds. rewrite Hds. simpl.
  unfold fetched, loaded in Hexport. simpl in Hexport. rewrite Hexport.
  reflexivity.
Qed.

Lemma export_returns_once_triggered_witness :
  export_dataset (Demo.scripted Demo.usual) "acme/cars" None (Some "v4") []
  = ([Called PathHome;
      Called (FromConfig (config_file Demo.home) None);
      Called (GetRemoteDataset Demo.client
                (RefIdentifier (DatasetIdentifier.mk (Some "acme") "cars" None)));
      Called (Export Demo.cars None (Some "v4"));
      Printed "Dataset acme/cars successfully exported to acme/cars:v4"],
     Returned tt).
Proof.
  apply (export_returns_once_triggered
           (Demo.scripted Demo.usual) "acme/cars" None (Some "v4")
           Demo.home Demo.client (DatasetIdentifier.mk (Some "acme") "cars" None)
           Demo.cars).
  - split; reflexivity.
  - reflexivity.
  - reflexivity.
  - reflexivity.
Defined.

(** ** The local lookup (C1) *)

(** The loop of [path] over datasets none of which has the name looked for:
    it reaches the end of the generator. *)
Lemma path_loop_no_match (slug : string) (items : list Path.t)
    (stop : M unit) (h : list event) :
  (forall p, In p items -> Path.name p <> slug) ->
  for_return_items items stop
    (fun p => if String.eqb slug (Path.name p) then ret (Some p) else ret None) h
  = (let (t, o) := stop h in
     (t, match o with
         | Returned _ => Returned None
         | Raised e => Raised e
         | Exited code => Exited code
         end)).
Proof.
  intros Hno. induction items as [|p items IH]; simpl.
  - unfold bind, ret. destruct (stop h) as [t [[]|e|code]]; simpl;
      try reflexivity. now rewrite app_nil_r.
  - assert (E : String.eqb slug (Path.name p) = false).
    { apply String.eqb_neq. intros ->. now apply (Hno p); [left|]. }
    rewrite E. rewrite bind_ret_run. apply IH. intros q Hq. apply Hno. now right.
Qed.

(** C1 fails on the code.  When the local listing ends without raising and
    none of its entries has the name of the parsed dataset slug, [path]
    reaches the end of its body: it prints nothing, raises nothing and
    returns [None]. *)
Theorem path_returns_none_when_absent
    (w : World) (dataset_slug : string) (identifier : DatasetIdentifier.t)
    (home : Path.t) (client : Client.t) (datasets : generator Path.t) :
  parse_identifier w dataset_slug = inr identifier ->
  signed_in w home None client ->
  respond w (loaded home None)
    (ListLocalDatasets client (DatasetIdentifier.team_slug identifier))
    = inr datasets ->
  failure datasets = None ->
  (forall p, In p (yielded datasets) ->
             Path.name p <> DatasetIdentifier.dataset_slug identifier) ->
  path w dataset_slug []
  = ((loaded home None
      ++ [Called (ListLocalDatasets client
                    (DatasetIdentifier.team_slug identifier))])%list,
     Returned None).
Proof.
  intros Hparse Hs Hlist Hend Hno. unfold path.
  rewrite Hparse. simpl lift. rewrite bind_ret_run.
  rewrite (after_load_client _ _ _ _ _ _ Hs).
  unfold try_except, bind at 1, invoke. rewrite Hlist.
  unfold for_return. rewrite (path_loop_no_match _ _ _ _ Hno).
  unfold exhaust. rewrite Hend. reflexivity.
Qed.

Lemma path_returns_none_when_absent_witness :
  path (Demo.scripted Demo.usual) "acme/cars" []
  = ([Called PathHome;
      Called (FromConfig (config_file Demo.home) None);
      Called (ListLocalDatasets Demo.client (Some "acme"))],
     Returned None).
Proof.
  apply (path_returns_none_when_absent
           (Demo.scripted Demo.usual) "acme/cars"
           (DatasetIdentifier.mk (Some "acme") "cars" None)
           Demo.home Demo.client (Demo.locals_answer Demo.usual)).
  - reflexivity.
  - split; reflexivity.
  - reflexivity.
  - reflexivity.
  - simpl. intros p [<-|[<-|[]]]; discriminate.
Defined.

(** The sibling path: when the listing itself raises [NotFound], [path]
    reports it through [_error]. *)
Example path_reports_not_found :
  path (Demo.scripted
          {| Demo.client_answer := inr Demo.client;
             Demo.dataset_answer := inr Demo.cars;
             Demo.releases_answer := inr [];
             Demo.locals_answer := mk_generator [] (Some (NotFound "acme"));
             Demo.confirm_answer := false;
             Demo.scan_answer := [] |}) "acme/cars" []
  = ([Called PathHome;
      Called (FromConfig (config_file Demo.home) None);
      Called (ListLocalDatasets Demo.client (Some "acme"));
      Failed (ListLocalDatasets Demo.client (Some "acme")) (NotFound "acme");
      Printed ("Error: Dataset 'acme' does not exist locally. "
               ++ "Use 'darwin dataset remote' to see all the available datasets, "
               ++ "and 'darwin dataset pull' to pull them.")],
     Exited 1%Z).
Proof. reflexivity. Qed.

(** ** The release listing (C10, C4) *)

Lemma filter_none {A} (f : A -> bool) (l : list A) :
  (forall x, In x l -> f x = false) -> filter f l = [].
Proof.
  induction l as [|x l IH]; simpl; intros H; [reflexivity|].
  rewrite (H x) by now left. apply IH. intros y Hy. apply H. now right.
Qed.

Lemma release_rows_spec (table : Table.t) (releases : list Release.t) :
  release_rows table releases
  = {| Table.columns := Table.columns table;
       Table.alignments := Table.alignments table;
       Table.rows := (Table.rows table
                      ++ map release_row (filter Release.available releases))%list |}.
Proof.
  unfold release_rows. revert table.
  induction releases as [|r releases IH]; intros table; simpl.
  - destruct table; simpl. now rewrite app_nil_r.
  - rewrite IH. destruct (Release.available r); simpl; [|reflexivity].
    now rewrite <- app_assoc.
Qed.

(** The run of [dataset_list_releases] when every collaborator answers. *)
Lemma dataset_list_releases_run
    (w : World) (dataset_slug : string) (home : Path.t) (client : Client.t)
    (ds : RemoteDataset.t) (releases : list Release.t) :
  signed_in w home None client ->
  respond w (loaded home None) (GetRemoteDataset client (RefString dataset_slug))
    = inr ds ->
  respond w (fetched home client (RefString dataset_slug)) (GetReleases ds)
    = inr releases ->
  dataset_list_releases w dataset_slug []
  = ((fetched home client (RefString dataset_slug)
      ++ [Called (GetReleases ds);
          match releases with
          | [] => no_releases_line
          | _ :: _ =>
              PrintedTable
                (releases_table (map release_row (filter Release.available releases)))
          end])%list,
     Returned tt).
Proof.
  intros Hs Hds Hrel. unfold dataset_list_releases.
  rewrite (after_load_client _ _ _ _ _ _ Hs).
  unfold try_except, bind, invoke.
  rewrite Hds. simpl.
  unfold fetched, loaded in Hrel. simpl in Hrel. rewrite Hrel.
  destruct releases as [|r releases]; [reflexivity|].
  cbn [List.length Nat.eqb]. rewrite release_rows_spec. reflexivity.
Qed.

(** C10.  In [dataset_list_releases] the emptiness test comes before the
    availability filter.  With the dataset fetched and its releases listed:
    an empty list prints the message; a list that is not empty and holds
    only unavailable releases prints the table with no row; and the
    message is in the log exactly when the list is empty. *)
Theorem empty_check_precedes_availability_filter
    (w : World) (dataset_slug : string) (home : Path.t) (client : Client.t)
    (ds : RemoteDataset.t) (releases : list Release.t) :
  signed_in w home None client ->
  respond w (loaded home None) (GetRemoteDataset client (RefString dataset_slug))
    = inr ds ->
  respond w (fetched home client (RefString dataset_slug)) (GetReleases ds)
    = inr releases ->
  (releases = [] ->
   dataset_list_releases w dataset_slug []
   = ((fetched home client (RefString dataset_slug)
       ++ [Called (GetReleases ds);
           Printed "No available releases, export one first."])%list,
      Returned tt))
  /\ (releases <> [] ->
      (forall r, In r releases -> Release.available r = false) ->
      dataset_list_releases w dataset_slug []
      = ((fetched home client (RefString dataset_slug)
          ++ [Called (GetReleases ds); PrintedTable (releases_table [])])%list,
         Returned tt))
  /\ (In (Printed "No available releases, export one first.")
         (fst (dataset_list_releases w dataset_slug []))
      <-> releases = []).
Proof.
  intros Hs Hds Hrel.
  rewrite (dataset_list_releases_run _ _ _ _ _ _ Hs Hds Hrel).
  split; [|split].
  - intros ->. reflexivity.
  - intros Hne Hall. destruct releases as [|r releases]; [congruence|].
    now rewrite (filter_none _ _ Hall).
  - simpl. destruct releases as [|r releases].
    + split; [reflexivity|]. intros _. do 4 right. now left.
    + split; [|discriminate].
      intros [H|[H|[H|[H|[H|[]]]]]]; discriminate H.
Qed.

Lemma empty_check_precedes_availability_filter_witness :
  dataset_list_releases (Demo.scripted (Demo.with_releases [Demo.v2])) "acme/cars" []
  = ([Called PathHome;
      Called (FromConfig (config_file Demo.home) None);
      Called (GetRemoteDataset Demo.client (RefString "acme/cars"));
      Called (GetReleases Demo.cars);
      PrintedTable (releases_table [])],
     Returned tt).
Proof.
  apply (empty_check_precedes_availability_filter
           (Demo.scripted (Demo.with_releases [Demo.v2])) "acme/cars"
           Demo.home Demo.client Demo.cars [Demo.v2]).
  - split; reflexivity.
  - reflexivity.
  - reflexivity.
  - discriminate.
  - simpl. intros r [<-|[]]. reflexivity.
Defined.

(** ** Pulling a release (C4, C5) *)

Section Always.

Variable w : World.
Variable P : event -> Prop.

Lemma always_ret {A} (a : A) : always P (ret a).
Proof. intros h ev []. Qed.

Lemma always_print (line : string) : P (Printed line) -> always P (print line).
Proof. intros H h ev [<-|[]]. exact H. Qed.

Lemma always_raise {A} (e : exn) : P (Threw e) -> always P (@raise A e).
Proof. intros H h ev [<-|[]]. exact H. Qed.

Lemma always_lift {A} (r : exn + A) :
  (forall e, P (Threw e)) -> always P (lift r).
Proof. intros H. destruct r; [apply always_raise, H | apply always_ret]. Qed.

Lemma always_invoke {X} (c : call X) :
  P (Called c) -> (forall e, P (Failed c e)) -> always P (invoke w c).
Proof.
  intros Hc Hf h ev. unfold invoke.
  destruct (respond w h c); intros [<-|[]]; auto.
Qed.

Lemma always_bind {A C} (m : M A) (k : A -> M C) :
  always P m -> (forall a, always P (k a)) -> always P (bind m k).
Proof.
  intros Hm Hk h ev. specialize (Hm h ev). unfold bind.
  destruct (m h) as [t [a|e|code]]; simpl in *; auto.
  specialize (Hk a (h ++ t)%list ev).
  destruct (k a (h ++ t)%list) as [t' o]; simpl in *.
  intros Hin. apply in_app_or in Hin as [Hin|Hin]; auto.
Qed.

Lemma always_try {A} (body : M A) (handler : exn -> option (M A)) :
  always P body ->
  (forall e recover, handler e = Some recover -> always P recover) ->
  always P (try_except body handler).
Proof.
  intros Hb Hh h ev. specialize (Hb h ev). unfold try_except.
  destruct (body h) as [t [a|e|code]]; simpl in *; auto.
  destruct (handler e) as [recover|] eqn:E; simpl; auto.
  specialize (Hh e recover E (h ++ t)%list ev).
  destruct (recover (h ++ t)%list) as [t' o]; simpl in *.
  intros Hin. apply in_app_or in Hin as [Hin|Hin]; auto.
Qed.

Lemma always_error {A} (message : string) :
  P (Printed ("Error: " ++ message)) -> always P (@_error A message).
Proof. intros H h ev [<-|[]]. exact H. Qed.

Lemma always_load_client (team : option string) (offline : bool) :
  P (Called PathHome) -> (forall e, P (Failed PathHome e)) ->
  (forall p, P (Called (FromConfig p team))) ->
  (forall p e, P (Failed (FromConfig p team) e)) ->
  (forall line, P (Printed line)) ->
  always P (_load_client w team offline).
Proof.
  intros H1 H2 H3 H4 H5. unfold _load_client. apply always_try.
  - apply always_bind; [now apply always_invoke|intros home].
    apply always_bind; [now apply always_invoke|intros client].
    apply always_ret.
  - intros e recover H. destruct e; try discriminate H;
      injection H as <-; apply always_error, H5.
Qed.

End Always.

(** With the ledger and the engine of the specification, [pull_dataset]
    never pulls a release that is not available. *)
Lemma pull_by_spec_only_available (w : World) (dataset_slug : string) :
  always pulls_available (pull_dataset_by_spec w dataset_slug).
Proof.
  assert (Hp : forall line, pulls_available (Printed line)) by (intros l r [=]).
  assert (Ht : forall e, pulls_available (Threw e)) by (intros l r [=]).
  unfold pull_dataset_by_spec, pull_dataset_with.
  apply always_bind; [now apply always_lift|intros identifier].
  apply always_bind.
  { apply always_load_client; auto; intros; intros r [=]. }
  intros client. apply always_bind.
  { apply always_try.
    - apply always_invoke; intros; intros r [=].
    - intros e recover H. destruct e; try discriminate H;
        injection H as <-; apply always_error, Hp. }
  intros dataset. apply always_bind; [|intros release; now apply always_print].
  apply always_try.
  - apply always_bind.
    + unfold ReleaseLedger.get_release.
      apply always_bind; [|intros releases; now apply always_lift].
      apply always_invoke; intros; intros r [=].
    + intros release. apply always_bind; [|intros _; apply always_ret].
      unfold TransferEngine.pull.
      destruct (Release.available release) eqn:E; simpl.
      * apply always_bind; [apply always_invoke; intros; intros r [=]|intros _].
        apply always_invoke; intros; intros r [= <-]; exact E.
      * now apply always_raise.
  - intros e recover H. destruct e; try discriminate H.
    injection H as <-. apply always_error, Hp.
Qed.

(** C4.  Unavailable releases are left out of the listing and are never
    pulled.  With the dataset fetched and a non-empty list of releases,
    [dataset_list_releases] prints the table whose rows are the rows of
    the available releases, in order.  And in any world, with the release
    ledger and transfer engine of the specification behind [get_release]
    and [pull], every release a run of [pull_dataset] downloads is
    available. *)
Theorem unavailable_releases_not_listed_nor_pulled
    (w : World) (dataset_slug : string) :
  (forall home client ds r releases,
     signed_in w home None client ->
     respond w (loaded home None) (GetRemoteDataset client (RefString dataset_slug))
       = inr ds ->
     respond w (fetched home client (RefString dataset_slug)) (GetReleases ds)
       = inr (r :: releases) ->
     dataset_list_releases w dataset_slug []
     = ((fetched home client (RefString dataset_slug)
         ++ [Called (GetReleases ds);
             PrintedTable
               (releases_table
                  (map release_row
                       (filter Release.available (r :: releases))))])%list,
        Returned tt))
  /\ (forall h ev r,
        In ev (fst (pull_dataset_by_spec w dataset_slug h)) ->
        pulled ev = Some r ->
        Release.available r = true).
Proof.
  split.
  - intros home client ds r releases Hs Hds Hrel.
    exact (dataset_list_releases_run _ _ _ _ _ _ Hs Hds Hrel).
  - intros h ev r Hin. exact (pull_by_spec_only_available w dataset_slug h ev Hin r).
Qed.

(** The listing of the specification's three releases: [v2], still being
    generated, has no row. *)
Example listing_of_the_three_releases :
  dataset_list_releases (Demo.scripted Demo.usual) "acme/cars" []
  = ([Called PathHome;
      Called (FromConfig (config_file Demo.home) None);
      Called (GetRemoteDataset Demo.client (RefString "acme/cars"));
      Called (GetReleases Demo.cars);
      PrintedTable (releases_table [release_row Demo.v1; release_row Demo.v3])],
     Returned tt).
Proof. reflexivity. Qed.

(** Asking for [v2] by name: the ledger finds it, the engine refuses it, and
    nothing is downloaded. *)
Example pulling_an_unavailable_release :
  pull_dataset_by_spec (Demo.scripted Demo.usual) "acme/cars:v2" []
  = ([Called PathHome;
      Called (FromConfig (config_file Demo.home) None);
      Called (GetRemoteDataset Demo.client (RefString "acme/cars:v2"));
      Called (GetReleases Demo.cars);
      Threw ReleaseUnavailable],
     Raised ReleaseUnavailable).
Proof. reflexivity. Qed.

(** *** Version resolution *)

Lemma newest_spec (releases : list Release.t) (r : Release.t) :
  ReleaseLedger.newest releases = Some r ->
  In r releases
  /\ forall r', In r' releases ->
                (Release.export_date r' <= Release.export_date r)%Z.
Proof.
  revert r. induction releases as [|x releases IH]; simpl; intros r; [discriminate|].
  destruct (ReleaseLedger.newest releases) as [best|] eqn:E.
  - destruct (IH best eq_refl) as [Hin Hmax].
    destruct (Release.export_date x <? Release.export_date best)%Z eqn:Hlt;
      intros [= <-].
    + apply Z.ltb_lt in Hlt. split; [now right|].
      intros r' [<-|Hr']; [lia | now apply Hmax].
    + apply Z.ltb_ge in Hlt. split; [now left|].
      intros r' [<-|Hr']; [lia|]. specialize (Hmax r' Hr'). lia.
  - intros [= <-]. split; [now left|].
    intros r' [<-|Hr']; [lia|].
    destruct releases; [destruct Hr'|]. simpl in E.
    destruct (ReleaseLedger.newest releases);
      [destruct (_ <? _)%Z|]; discriminate.
Qed.

Lemma newest_none (releases : list Release.t) :
  ReleaseLedger.newest releases = None -> releases = [].
Proof.
  destruct releases as [|x releases]; [reflexivity|]. simpl.
  destruct (ReleaseLedger.newest releases); [destruct (_ <? _)%Z|]; discriminate.
Qed.

Lemma named_iff (version : string) (r : Release.t) :
  ReleaseLedger.named version r = true <-> Release.name r = Some version.
Proof.
  unfold ReleaseLedger.named. destruct (Release.name r) as [n|].
  - rewrite String.eqb_eq. split; congruence.
  - split; discriminate.
Qed.

(** What [resolve_version] finds is in the list, and is the newest
    available release for ["latest"], a release of that name otherwise. *)
Lemma resolve_version_found (w : World) (ds : RemoteDataset.t)
    (releases : list Release.t) (version : string) (r : Release.t) :
  ReleaseLedger.resolve_version w ds releases version = inr r ->
  In r releases
  /\ (version = "latest" ->
      Release.available r = true
      /\ forall r', In r' releases -> Release.available r' = true ->
                    (Release.export_date r' <= Release.export_date r)%Z)
  /\ (version <> "latest" -> Release.name r = Some version).
Proof.
  unfold ReleaseLedger.resolve_version.
  destruct (String.eqb_spec version "latest") as [->|Hne].
  - destruct (ReleaseLedger.newest _) as [best|] eqn:E; [|discriminate].
    intros [= <-]. apply newest_spec in E as [Hin Hmax].
    apply filter_In in Hin as [Hin Hav].
    split; [exact Hin|split; [|congruence]].
    intros _. split; [exact Hav|].
    intros r' Hr' Hav'. apply Hmax. apply filter_In. now split.
  - destruct (find _ releases) as [hit|] eqn:E; [|discriminate].
    intros [= <-]. apply find_some in E as [Hin Hn].
    split; [exact Hin|split; [congruence|]].
    intros _. now apply named_iff.
Qed.

(** When [resolve_version] fails it is with the not-found failure, carrying
    the identifier and the version, and nothing in the list qualified. *)
Lemma resolve_version_missing (w : World) (ds : RemoteDataset.t)
    (releases : list Release.t) (version : string) (e : exn) :
  ReleaseLedger.resolve_version w ds releases version = inl e ->
  e = NotFound (str_identifier w (RemoteDataset.identifier ds) ++ ":" ++ version)
  /\ (version = "latest" ->
      forall r, In r releases -> Release.available r = false)
  /\ (version <> "latest" ->
      forall r, In r releases -> Release.name r <> Some version).
Proof.
  unfold ReleaseLedger.resolve_version.
  destruct (String.eqb_spec version "latest") as [->|Hne].
  - destruct (ReleaseLedger.newest _) as [best|] eqn:E; [discriminate|].
    intros [= <-]. apply newest_none in E.
    split; [reflexivity|split; [|congruence]].
    intros _ r Hr. destruct (Release.available r) eqn:Hav; [|reflexivity].
    assert (Hin : In r (filter Release.available releases))
      by (apply filter_In; now split).
    rewrite E in Hin. destruct Hin.
  - destruct (find _ releases) as [hit|] eqn:E; [discriminate|].
    intros [= <-]. split; [reflexivity|split; [congruence|]].
    intros _ r Hr Hname. apply named_iff in Hname.
    now rewrite (find_none _ _ E r Hr) in Hname.
Qed.

(** The example of the specification: ["latest"] over the three releases is
    [v1], the newest available one, not [v2]. *)
Example latest_of_the_three_releases :
  ReleaseLedger.resolve_version (Demo.scripted Demo.usual) Demo.cars
    [Demo.v1; Demo.v2; Demo.v3] "latest" = inr Demo.v1.
Proof. reflexivity. Qed.

(** [version or "latest"]: the version itself when there is one and it
    is not the empty string, ["latest"] otherwise. *)
Lemma or_latest_spec (version : option string) :
  (version = None -> or_latest version = "latest")
  /\ (forall v, version = Some v -> v <> "" -> or_latest version = v)
  /\ (version = Some "" -> or_latest version = "latest").
Proof.
  split; [now intros ->|split].
  - intros v -> Hv. destruct v; [now destruct Hv|reflexivity].
  - now intros ->.
Qed.

(** The run of [pull_dataset] over the ledger, up to the resolution. *)
Lemma pull_by_ledger_run
    (w : World) (dataset_slug : string) (identifier : DatasetIdentifier.t)
    (home : Path.t) (client : Client.t) (ds : RemoteDataset.t)
    (releases : list Release.t) :
  parse_identifier w dataset_slug = inr identifier ->
  signed_in w home None client ->
  respond w (loaded home None) (GetRemoteDataset client (RefString dataset_slug))
    = inr ds ->
  respond w (fetched home client (RefString dataset_slug)) (GetReleases ds)
    = inr releases ->
  pull_dataset_by_ledger w dataset_slug []
  = match ReleaseLedger.resolve_version w ds releases (requested identifier) with
    | inr r =>
        match respond w (listed home client (RefString dataset_slug) ds)
                      (Pull ds r) with
        | inr _ =>
            ((listed home client (RefString dataset_slug) ds
              ++ [Called (Pull ds r);
                  Printed ("Dataset " ++ str_identifier w (Release.identifier r)
                           ++ " downloaded at "
                           ++ Path.str (RemoteDataset.local_path ds) ++ ". ")])%list,
             Returned tt)
        | inl (NotFound name) =>
            ((listed home client (RefString dataset_slug) ds
              ++ [Failed (Pull ds r) (NotFound name);
                  version_not_found_line w ds (requested identifier)])%list,
             Exited 1%Z)
        | inl e =>
            ((listed home client (RefString dataset_slug) ds
              ++ [Failed (Pull ds r) e])%list, Raised e)
        end
    | inl (NotFound name) =>
        ((listed home client (RefString dataset_slug) ds
          ++ [Threw (NotFound name);
              version_not_found_line w ds (requested identifier)])%list,
         Exited 1%Z)
    | inl e =>
        ((listed home client (RefString dataset_slug) ds ++ [Threw e])%list,
         Raised e)
    end.
Proof.
  intros Hparse Hs Hds Hrel.
  unfold pull_dataset_by_ledger, pull_dataset_with.
  rewrite Hparse. simpl lift. rewrite bind_ret_run.
  rewrite (after_load_client _ _ _ _ _ _ Hs).
  unfold bind at 1. unfold try_except at 1. unfold invoke at 1. rewrite Hds.
  unfold ReleaseLedger.get_release, try_except, bind, invoke.
  unfold fetched, loaded in Hrel. simpl in Hrel. simpl. rewrite Hrel.
  fold (requested identifier).
  unfold listed, fetched, loaded. simpl.
  destruct (ReleaseLedger.resolve_version w ds releases (requested identifier))
    as [e|r]; simpl.
  - destruct e; reflexivity.
  - destruct (respond w _ (Pull ds r)) as [e|[]]; simpl; [|reflexivity].
    destruct e; reflexivity.
Qed.

(** C5.  With the reference parsed, the dataset fetched and its releases
    listed, and the release ledger of the specification behind
    [get_release]: the version requested is ["latest"] for a reference
    without a version and the version of the reference itself otherwise
    (a version is not empty by the grammar of release names; an empty one
    counts as absent for [or]); either a release of the list is handed to
    [pull] (the first event after the listing), and it is, for
    ["latest"], available and of the greatest export date among the
    available releases, and for any other version a release of exactly
    that name; or no release qualifies (for ["latest"] none is available,
    otherwise none has that name) and the command ends in the not-found
    failure, which carries the identifier and the version, and in the
    error line that shows both. *)
Theorem pull_resolves_requested_version
    (w : World) (dataset_slug : string) (identifier : DatasetIdentifier.t)
    (home : Path.t) (client : Client.t) (ds : RemoteDataset.t)
    (releases : list Release.t) :
  parse_identifier w dataset_slug = inr identifier ->
  signed_in w home None client ->
  respond w (loaded home None) (GetRemoteDataset client (RefString dataset_slug))
    = inr ds ->
  respond w (fetched home client (RefString dataset_slug)) (GetReleases ds)
    = inr releases ->
  (DatasetIdentifier.version identifier = None -> requested identifier = "latest")
  /\ (forall v, DatasetIdentifier.version identifier = Some v -> v <> "" ->
                requested identifier = v)
  /\ (DatasetIdentifier.version identifier = Some "" ->
      requested identifier = "latest")
  /\ ((exists r ev rest o,
         pull_dataset_by_ledger w dataset_slug []
         = ((listed home client (RefString dataset_slug) ds ++ ev :: rest)%list, o)
         /\ pulled ev = Some r
         /\ In r releases
         /\ (requested identifier = "latest" ->
             Release.available r = true
             /\ forall r', In r' releases -> Release.available r' = true ->
                           (Release.export_date r' <= Release.export_date r)%Z)
         /\ (requested identifier <> "latest" ->
             Release.name r = Some (requested identifier)))
      \/ (pull_dataset_by_ledger w dataset_slug []
          = ((listed home client (RefString dataset_slug) ds
              ++ [Threw (NotFound (str_identifier w (RemoteDataset.identifier ds)
                                   ++ ":" ++ requested identifier));
                  Printed ("Error: Version '"
                           ++ str_identifier w (RemoteDataset.identifier ds)
                           ++ ":" ++ requested identifier ++ "' does not exist "
                           ++ "Use 'darwin dataset releases' to list all available versions.")])%list,
             Exited 1%Z)
          /\ (requested identifier = "latest" ->
              forall r, In r releases -> Release.available r = false)
          /\ (requested identifier <> "latest" ->
              forall r, In r releases ->
                        Release.name r <> Some (requested identifier)))).
Proof.
  intros Hparse Hs Hds Hrel.
  destruct (or_latest_spec (DatasetIdentifier.version identifier))
    as (Hnone & Hsome & Hempty).
  split; [exact Hnone|split; [exact Hsome|split; [exact Hempty|]]].
  - rewrite (pull_by_ledger_run _ _ _ _ _ _ _ Hparse Hs Hds Hrel).
    destruct (ReleaseLedger.resolve_version w ds releases (requested identifier))
      as [e|r] eqn:E.
    + right. apply resolve_version_missing in E as (-> & Hl & Hn).
      split; [reflexivity|split; assumption].
    + left. apply resolve_version_found in E as (Hin & Hl & Hn).
      destruct (respond w _ (Pull ds r)) as [e|u].
      * destruct e;
          repeat eexists; try reflexivity; try reflexivity; auto;
          try (apply Hl; assumption).
      * repeat eexists; try reflexivity; auto; try (apply Hl; assumption).
Qed.

Lemma pull_resolves_requested_version_witness :
  (DatasetIdentifier.version (DatasetIdentifier.mk (Some "acme") "cars" (Some "v3")) = None ->
   requested (DatasetIdentifier.mk (Some "acme") "cars" (Some "v3")) = "latest")
  /\ (forall v, DatasetIdentifier.version (DatasetIdentifier.mk (Some "acme") "cars" (Some "v3")) = Some v -> v <> "" ->
                requested (DatasetIdentifier.mk (Some "acme") "cars" (Some "v3")) = v)
  /\ (DatasetIdentifier.version (DatasetIdentifier.mk (Some "acme") "cars" (Some "v3")) = Some "" ->
      requested (DatasetIdentifier.mk (Some "acme") "cars" (Some "v3")) = "latest")
  /\ ((exists r ev rest o,
         pull_dataset_by_ledger (Demo.scripted Demo.usual) "acme/cars:v3" []
         = ((listed Demo.home Demo.client (RefString "acme/cars:v3") Demo.cars
             ++ ev :: rest)%list, o)
         /\ pulled ev = Some r
         /\ In r [Demo.v1; Demo.v2; Demo.v3]
         /\ (requested (DatasetIdentifier.mk (Some "acme") "cars" (Some "v3")) = "latest" ->
             Release.available r = true
             /\ forall r', In r' [Demo.v1; Demo.v2; Demo.v3] ->
                           Release.available r' = true ->
                           (Release.export_date r' <= Release.export_date r)%Z)
         /\ (requested (DatasetIdentifier.mk (Some "acme") "cars" (Some "v3")) <> "latest" ->
             Release.name r = Some (requested (DatasetIdentifier.mk (Some "acme") "cars" (Some "v3")))))
      \/ (pull_dataset_by_ledger (Demo.scripted Demo.usual) "acme/cars:v3" []
          = ((listed Demo.home Demo.client (RefString "acme/cars:v3") Demo.cars
              ++ [Threw (NotFound
                           (str_identifier (Demo.scripted Demo.usual)
                              (RemoteDataset.identifier Demo.cars)
                            ++ ":" ++ requested (DatasetIdentifier.mk (Some "acme") "cars" (Some "v3"))));
                  Printed ("Error: Version '"
                           ++ str_identifier (Demo.scripted Demo.usual)
                                (RemoteDataset.identifier Demo.cars)
                           ++ ":" ++ requested (DatasetIdentifier.mk (Some "acme") "cars" (Some "v3"))
                           ++ "' does not exist "
                           ++ "Use 'darwin dataset releases' to list all available versions.")])%list,
             Exited 1%Z)
          /\ (requested (DatasetIdentifier.mk (Some "acme") "cars" (Some "v3")) = "latest" ->
              forall r, In r [Demo.v1; Demo.v2; Demo.v3] ->
                        Release.available r = false)
          /\ (requested (DatasetIdentifier.mk (Some "acme") "cars" (Some "v3")) <> "latest" ->
              forall r, In r [Demo.v1; Demo.v2; Demo.v3] ->
                        Release.name r <> Some (requested (DatasetIdentifier.mk (Some "acme") "cars" (Some "v3")))))).
Proof.
  apply (pull_resolves_requested_version
           (Demo.scripted Demo.usual) "acme/cars:v3"
           (DatasetIdentifier.mk (Some "acme") "cars" (Some "v3"))
           Demo.home Demo.client Demo.cars [Demo.v1; Demo.v2; Demo.v3]).
  - reflexivity.
  - split; reflexivity.
  - reflexivity.
  - reflexivity.
Defined.

(** Pulling [acme/cars:v3] in the world of the example: the release of
    that name, not the newest. *)
Example pull_of_a_named_version :
  pull_dataset_by_ledger (Demo.scripted Demo.usual) "acme/cars:v3" []
  = ([Called PathHome;
      Called (FromConfig (config_file Demo.home) None);
      Called (GetRemoteDataset Demo.client (RefString "acme/cars:v3"));
      Called (GetReleases Demo.cars);
      Called (Pull Demo.cars Demo.v3);
      Printed "Dataset acme/cars:v3 downloaded at home/ada/.darwin/datasets/acme/cars. "],
     Returned tt).
Proof. reflexivity. Qed.

(** Pulling [acme/cars] in the world of the example: ["latest"] is [v1]. *)
Example pull_latest_of_the_three_releases :
  pull_dataset_by_ledger (Demo.scripted Demo.usual) "acme/cars" []
  = ([Called PathHome;
      Called (FromConfig (config_file Demo.home) None);
      Called (GetRemoteDataset Demo.client (RefString "acme/cars"));
      Called (GetReleases Demo.cars);
      Called (Pull Demo.cars Demo.v1);
      Printed "Dataset acme/cars:v1 downloaded at home/ada/.darwin/datasets/acme/cars. "],
     Returned tt).
Proof. reflexivity. Qed.

(** Pulling a version that was never exported. *)
Example pull_of_a_missing_version :
  pull_dataset_by_ledger (Demo.scripted Demo.usual) "acme/cars:v9" []
  = ([Called PathHome;
      Called (FromConfig (config_file Demo.home) None);
      Called (GetRemoteDataset Demo.client (RefString "acme/cars:v9"));
      Called (GetReleases Demo.cars);
      Threw (NotFound "acme/cars:v9");
      Printed ("Error: Version 'acme/cars:v9' does not exist "
               ++ "Use 'darwin dataset releases' to list all available versions.")],
     Exited 1%Z).
Proof. reflexivity. Qed.

(** ** Push with nothing to upload (C3) *)

(** C3.  With the client loaded and the dataset fetched, no explicit file
    list, and a scan that leaves no candidate once the exclusions are
    taken out: the push of the specification's transfer engine raises the
    empty-file-set failure ([ValueError] to [upload_data]) having done
    nothing but the scan, which is not a network call; and [upload_data]
    turns it into ["Error: No files found"] and [sys.exit(1)], with no
    upload in its log. *)
Theorem empty_push_fails_before_any_upload
    (w : World) (is_video : string -> bool) (frame_count : string -> Z -> nat)
    (normalize : string -> string) (dataset_slug : string)
    (files_to_exclude : option (list string)) (fps : Z)
    (home : Path.t) (client : Client.t) (ds : RemoteDataset.t)
    (found : list string) :
  signed_in w home None client ->
  respond w (loaded home None) (GetRemoteDataset client (RefString dataset_slug))
    = inr ds ->
  respond w (fetched home client (RefString dataset_slug)) (ScanFiles ds)
    = inr found ->
  filter (fun f => negb (TransferEngine.excluded normalize files_to_exclude f)) found
    = [] ->
  TransferEngine.push w is_video frame_count normalize ds files_to_exclude fps None
    (fetched home client (RefString dataset_slug))
  = ([Called (ScanFiles ds); Threw ValueError], Raised ValueError)
  /\ existsb on_network [Called (ScanFiles ds); Threw ValueError] = false
  /\ upload_data_by_spec w is_video frame_count normalize
       dataset_slug None files_to_exclude fps []
     = ((fetched home client (RefString dataset_slug)
         ++ [Called (ScanFiles ds); Threw ValueError;
             Printed "Error: No files found"])%list,
        Exited 1%Z).
Proof.
  intros Hs Hds Hscan Hnone.
  assert (Hpush :
    TransferEngine.push w is_video frame_count normalize ds files_to_exclude fps None
      (fetched home client (RefString dataset_slug))
    = ([Called (ScanFiles ds); Threw ValueError], Raised ValueError)).
  { unfold TransferEngine.push, TransferEngine.push_summary,
      TransferEngine.candidates, bind, invoke, ret.
    rewrite Hscan. simpl. rewrite Hnone. reflexivity. }
  split; [exact Hpush|split; [reflexivity|]].
  unfold upload_data_by_spec, upload_data_with.
  rewrite (after_load_client _ _ _ _ _ _ Hs).
  unfold try_except, bind at 1, invoke at 1. rewrite Hds.
  change (loaded home None ++ [Called (GetRemoteDataset client (RefString dataset_slug))])%list
    with (fetched home client (RefString dataset_slug)).
  rewrite Hpush. reflexivity.
Qed.

Lemma empty_push_fails_before_any_upload_witness :
  upload_data_by_spec (Demo.scripted Demo.usual)
    (fun _ => false) (fun _ _ => O) (fun file => file)
    "acme/cars" None None 25 []
  = ([Called PathHome;
      Called (FromConfig (config_file Demo.home) None);
      Called (GetRemoteDataset Demo.client (RefString "acme/cars"));
      Called (ScanFiles Demo.cars);
      Threw ValueError;
      Printed "Error: No files found"],
     Exited 1%Z).
Proof.
  apply (empty_push_fails_before_any_upload
           (Demo.scripted Demo.usual) (fun _ => false) (fun _ _ => O)
           (fun file => file) "acme/cars" None 25
           Demo.home Demo.client Demo.cars []).
  - split; reflexivity.
  - reflexivity.
  - reflexivity.
  - reflexivity.
Defined.

(** An explicit, empty file list fails the same way, without the scan. *)
Example empty_explicit_list :
  upload_data_by_spec (Demo.scripted Demo.usual)
    (fun _ => false) (fun _ _ => O) (fun file => file)
    "acme/cars" (Some []) None 25 []
  = ([Called PathHome;
      Called (FromConfig (config_file Demo.home) None);
      Called (GetRemoteDataset Demo.client (RefString "acme/cars"));
      Threw ValueError;
      Printed "Error: No files found"],
     Exited 1%Z).
Proof. reflexivity. Qed.

(** A push of three files, one of which fails to upload: the failure is
    kept in the summary and the push returns. *)
Example push_with_one_failure :
  TransferEngine.push_summary
    {| parse_identifier := DatasetIdentifier.parse;
       str_identifier := DatasetIdentifier.render;
       naturaldate := fun _ => "today";
       naturalsize := fun _ => "0 Bytes";
       str_round1 := fun _ => "50.0";
       respond := fun X _ c =>
         match c in call X return exn + X with
         | UploadTask _ (ImageTask "b.png") => inl (OtherError "connection reset")
         | c' => inr (Demo.nothing c')
         end |}
    (fun _ => false) (fun _ _ => O) (fun file => file)
    Demo.cars None 25 (Some ["a.png"; "b.png"; "c.png"]) []
  = ([Called (UploadTask Demo.cars (ImageTask "a.png"));
      Failed (UploadTask Demo.cars (ImageTask "b.png")) (OtherError "connection reset");
      Called (UploadTask Demo.cars (ImageTask "c.png"))],
     Returned {| TransferEngine.succeeded := 2;
                 TransferEngine.failed := [("b.png", OtherError "connection reset")] |}).
Proof. reflexivity. Qed.

(** ** Removing a remote dataset (C9) *)

(** The events of a known log that change the remote: the others are ruled
    out by computing [mutates_remote]. *)
Ltac mutations :=
  let ev := fresh "ev" in
  let Hin := fresh "Hin" in
  let Hm := fresh "Hm" in
  intros ev Hin Hm; simpl in Hin;
  repeat (destruct Hin as [Hin|Hin]; [subst ev; try discriminate Hm|]);
  try destruct Hin.

(** The run of [remove_remote_dataset] once the question was answered. *)
Lemma remove_remote_dataset_run
    (w : World) (dataset_slug : string) (home : Path.t) (client : Client.t)
    (dataset : RemoteDataset.t) (go_on : bool) :
  signed_in w home None client ->
  respond w (loaded home None) (GetRemoteDataset client (RefString dataset_slug))
    = inr dataset ->
  respond w (asked w home client dataset_slug dataset) SecureContinueRequest
    = inr go_on ->
  remove_remote_dataset w dataset_slug []
  = if go_on
    then
      match respond w (asked w home client dataset_slug dataset
                       ++ [Called SecureContinueRequest])%list
                    (RemoveRemote dataset) with
      | inr _ =>
          ((asked w home client dataset_slug dataset
            ++ [Called SecureContinueRequest; Called (RemoveRemote dataset)])%list,
           Returned tt)
      | inl (NotFound name) =>
          ((asked w home client dataset_slug dataset
            ++ [Called SecureContinueRequest;
                Failed (RemoveRemote dataset) (NotFound name);
                Printed ("Error: No dataset with name '" ++ dataset_slug ++ "'")])%list,
           Exited 1%Z)
      | inl e =>
          ((asked w home client dataset_slug dataset
            ++ [Called SecureContinueRequest; Failed (RemoveRemote dataset) e])%list,
           Raised e)
      end
    else
      ((asked w home client dataset_slug dataset
        ++ [Called SecureContinueRequest; Printed "Cancelled."])%list,
       Returned tt).
Proof.
  intros Hs Hds Hask. unfold remove_remote_dataset.
  rewrite (after_load_client _ _ _ _ _ _ Hs).
  unfold try_except, bind, invoke, print. rewrite Hds.
  unfold asked, fetched, about_to_delete_line, loaded in *. simpl in *.
  rewrite Hask. destruct go_on; simpl; [|reflexivity].
  destruct (respond w _ (RemoveRemote dataset)) as [e|[]]; [|reflexivity].
  destruct e; reflexivity.
Qed.

(** C9.  [remove_remote_dataset] deletes only after a yes.  In any world,
    an event of its log that changes the remote is the event right after
    the question, and the question was answered [True] (so it is the call
    of [remove_remote]).  And when the question is answered [False] the
    command prints ["Cancelled."] and returns, with no event in its log
    that changes the remote. *)
Theorem deletion_only_after_confirmation (w : World) (dataset_slug : string) :
  (forall ev,
     In ev (fst (remove_remote_dataset w dataset_slug [])) ->
     mutates_remote ev = true ->
     exists home client dataset rest,
       signed_in w home None client
       /\ respond w (loaded home None)
            (GetRemoteDataset client (RefString dataset_slug)) = inr dataset
       /\ respond w (asked w home client dataset_slug dataset) SecureContinueRequest
          = inr true
       /\ fst (remove_remote_dataset w dataset_slug [])
          = (asked w home client dataset_slug dataset
             ++ Called SecureContinueRequest :: ev :: rest)%list)
  /\ (forall home client dataset,
        signed_in w home None client ->
        respond w (loaded home None)
          (GetRemoteDataset client (RefString dataset_slug)) = inr dataset ->
        respond w (asked w home client dataset_slug dataset) SecureContinueRequest
          = inr false ->
        remove_remote_dataset w dataset_slug []
        = ((asked w home client dataset_slug dataset
            ++ [Called SecureContinueRequest; Printed "Cancelled."])%list,
           Returned tt)
        /\ existsb mutates_remote
             (asked w home client dataset_slug dataset
              ++ [Called SecureContinueRequest; Printed "Cancelled."])%list
           = false).
Proof.
  split.
  - destruct (respond w [] PathHome) as [e|home] eqn:Ehome.
    { unfold remove_remote_dataset, _load_client, try_except, bind, invoke.
      rewrite Ehome. destruct e; simpl; mutations. }
    destruct (respond w [Called PathHome] (FromConfig (config_file home) None))
      as [e|client] eqn:Eclient.
    { unfold remove_remote_dataset, _load_client, try_except, bind, invoke.
      rewrite Ehome. simpl. unfold config_file in Eclient. rewrite Eclient.
      destruct e; simpl; mutations. }
    assert (Hs : signed_in w home None client) by (split; assumption).
    destruct (respond w (loaded home None)
                (GetRemoteDataset client (RefString dataset_slug)))
      as [e|dataset] eqn:Eds.
    { unfold remove_remote_dataset.
      rewrite (after_load_client _ _ _ _ _ _ Hs).
      unfold try_except, bind, invoke. rewrite Eds.
      destruct e; simpl; mutations. }
    destruct (respond w (asked w home client dataset_slug dataset)
                SecureContinueRequest) as [e|go_on] eqn:Eask.
    { unfold remove_remote_dataset.
      rewrite (after_load_client _ _ _ _ _ _ Hs).
      unfold try_except, bind, invoke, print. rewrite Eds.
      unfold asked, fetched, about_to_delete_line, loaded in Eask.
      simpl in *. rewrite Eask.
      destruct e; simpl; mutations. }
    rewrite (remove_remote_dataset_run _ _ _ _ _ _ Hs Eds Eask).
    destruct go_on.
    + destruct (respond w _ (RemoveRemote dataset)) as [e|u];
        [destruct e|]; unfold asked, fetched, loaded, about_to_delete_line;
        mutations;
        exists home, client, dataset; eexists;
        (split; [exact Hs|split; [exact Eds|split; [exact Eask|reflexivity]]]).
    + unfold asked, fetched, loaded, about_to_delete_line. mutations.
  - intros home client dataset Hs Hds Hask. split.
    + exact (remove_remote_dataset_run _ _ _ _ _ _ Hs Hds Hask).
    + reflexivity.
Qed.

(** Declining, in the world of the example. *)
Example removal_declined :
  remove_remote_dataset (Demo.scripted Demo.usual) "acme/cars" []
  = ([Called PathHome;
      Called (FromConfig (config_file Demo.home) None);
      Called (GetRemoteDataset Demo.client (RefString "acme/cars"));
      Printed "About to delete acme/cars on darwin.";
      Called SecureContinueRequest;
      Printed "Cancelled."],
     Returned tt).
Proof. reflexivity. Qed.

(** Accepting: the dataset is removed, as the last thing the command does. *)
Example removal_confirmed :
  remove_remote_dataset
    (Demo.scripted
       {| Demo.client_answer := inr Demo.client;
          Demo.dataset_answer := inr Demo.cars;
          Demo.releases_answer := inr [];
          Demo.locals_answer := mk_generator [] None;
          Demo.confirm_answer := true;
          Demo.scan_answer := [] |}) "acme/cars" []
  = ([Called PathHome;
      Called (FromConfig (config_file Demo.home) None);
      Called (GetRemoteDataset Demo.client (RefString "acme/cars"));
      Printed "About to delete acme/cars on darwin.";
      Called SecureContinueRequest;
      Called (RemoveRemote Demo.cars)],
     Returned tt).
Proof. reflexivity. Qed.

(** * Further properties of the commands *)

(** ** What a command returns *)

Section Returns.

Variable w : World.

Lemma returns_ret {A} (R : A -> Prop) (a : A) : R a -> returns R (ret a).
Proof. intros H h t a' [= _ <-]. exact H. Qed.

Lemma returns_raise {A} (R : A -> Prop) (e : exn) : returns R (@raise A e).
Proof. intros h t a [=]. Qed.

Lemma returns_error {A} (R : A -> Prop) (message : string) :
  returns R (@_error A message).
Proof. intros h t a [=]. Qed.

Lemma returns_lift {A} (R : A -> Prop) (r : exn + A) :
  (forall a, r = inr a -> R a) -> returns R (lift r).
Proof.
  intros H. destruct r as [e|a]; [apply returns_raise | apply returns_ret; auto].
Qed.

(** What a call returns, the world answered. *)
Lemma returns_invoke {X} (c : call X) :
  returns (fun x => exists h, respond w h c = inr x) (invoke w c).
Proof.
  intros h t x. unfold invoke.
  destruct (respond w h c) eqn:E; intros [= _ <-]. eauto.
Qed.

Lemma returns_bind {A C} (Q : A -> Prop) (R : C -> Prop) (m : M A) (k : A -> M C) :
  returns Q m -> (forall a, Q a -> returns R (k a)) -> returns R (bind m k).
Proof.
  intros Hm Hk h t c. unfold bind.
  destruct (m h) as [t1 [a|e|code]] eqn:E; try discriminate.
  destruct (k a (h ++ t1)%list) as [t2 o] eqn:E2. intros [= _ ->].
  exact (Hk a (Hm _ _ _ E) _ _ _ E2).
Qed.

Lemma returns_try {A} (R : A -> Prop) (body : M A) (handler : exn -> option (M A)) :
  returns R body -> only_errors handler -> returns R (try_except body handler).
Proof.
  intros Hb Hh h t a. unfold try_except.
  destruct (body h) as [t1 [a1|e|code]] eqn:E; try discriminate.
  - intros [= <- <-]. exact (Hb _ _ _ E).
  - destruct (handler e) as [recover|] eqn:Eh; [|discriminate].
    destruct (Hh _ _ Eh) as [message ->]. rewrite error_runs. discriminate.
Qed.

Lemma returns_any {A} (m : M A) : returns (fun _ => True) m.
Proof. intros h t a _. exact I. Qed.

Lemma returns_weaken {A} (Q R : A -> Prop) (m : M A) :
  returns Q m -> (forall a, Q a -> R a) -> returns R m.
Proof. intros Hm H h t a E. exact (H a (Hm _ _ _ E)). Qed.

(** [_load_client] returns a client that [Client.from_config] answered. *)
Lemma returns_load_client (team : option string) (offline : bool) :
  returns (fun client => exists h p, respond w h (FromConfig p team) = inr client)
          (_load_client w team offline).
Proof.
  unfold _load_client. apply returns_try.
  - apply returns_bind with (Q := fun _ => True); [apply returns_any|intros home _].
    eapply returns_bind; [apply returns_invoke|].
    intros client [h E]. apply returns_ret. eauto.
  - intros e m H. destruct e; try discriminate H; injection H as <-; eauto.
Qed.

End Returns.

(** ** Events, knowing what was returned *)

Section AlwaysMore.

Variable w : World.
Variable P : event -> Prop.

(** As [always_bind], with what [m] returns known in the continuation. *)
Lemma always_bind_returns {A C} (Q : A -> Prop) (m : M A) (k : A -> M C) :
  returns Q m -> always P m -> (forall a, Q a -> always P (k a)) ->
  always P (bind m k).
Proof.
  intros Hr Hm Hk h ev. specialize (Hm h ev). unfold bind.
  destruct (m h) as [t [a|e|code]] eqn:E; simpl in *; auto.
  specialize (Hk a (Hr _ _ _ E) (h ++ t)%list ev).
  destruct (k a (h ++ t)%list) as [t' o]; simpl in *.
  intros Hin. apply in_app_or in Hin as [Hin|Hin]; auto.
Qed.

Lemma always_print_table (table : Table.t) :
  P (PrintedTable table) -> always P (print_table table).
Proof. intros H h ev [<-|[]]. exact H. Qed.

Lemma always_exhaust {X A} (c : call X) (g : generator A) :
  (forall e, P (Failed c e)) -> always P (exhaust c g).
Proof.
  intros H h ev. unfold exhaust. destruct (failure g); simpl.
  - intros [<-|[]]. apply H.
  - intros [].
Qed.

Lemma always_for_fold {A S} (items : list A) (acc : S) (body : S -> A -> M S) :
  (forall acc x, always P (body acc x)) -> always P (for_fold items acc body).
Proof.
  intros Hb. revert acc. induction items as [|x items IH]; intros acc; simpl.
  - apply always_ret.
  - apply always_bind; auto.
Qed.

Lemma always_config :
  P (Called PathHome) -> (forall e, P (Failed PathHome e)) ->
  (forall p, P (Called (NewConfig p))) -> (forall p e, P (Failed (NewConfig p) e)) ->
  always P (_config w).
Proof.
  intros H1 H2 H3 H4. unfold _config.
  apply always_bind; [now apply always_invoke|intros home].
  now apply always_invoke.
Qed.

End AlwaysMore.

(** ** Runs that never exit *)

Section NeverExits.

Variable w : World.

Lemma never_exits_ret {A} (a : A) : never_exits (ret a).
Proof. intros h code. discriminate. Qed.

Lemma never_exits_print (line : string) : never_exits (print line).
Proof. intros h code. discriminate. Qed.

Lemma never_exits_raise {A} (e : exn) : never_exits (@raise A e).
Proof. intros h code. discriminate. Qed.

Lemma never_exits_invoke {X} (c : call X) : never_exits (invoke w c).
Proof. intros h code. unfold invoke. now destruct (respond w h c). Qed.

Lemma never_exits_bind {A C} (m : M A) (k : A -> M C) :
  never_exits m -> (forall a, never_exits (k a)) -> never_exits (bind m k).
Proof.
  intros Hm Hk h code. specialize (Hm h). unfold bind.
  destruct (m h) as [t [a|e|c]]; simpl in *;
    [|discriminate|now destruct (Hm c)].
  specialize (Hk a (h ++ t)%list code).
  now destruct (k a (h ++ t)%list).
Qed.

Lemma never_exits_for_fold {A S} (items : list A) (acc : S) (body : S -> A -> M S) :
  (forall acc x, never_exits (body acc x)) -> never_exits (for_fold items acc body).
Proof.
  intros Hb. revert acc. induction items as [|x items IH]; intros acc; simpl.
  - apply never_exits_ret.
  - apply never_exits_bind; auto.
Qed.

Lemma never_exits_config : never_exits (_config w).
Proof.
  unfold _config. apply never_exits_bind; [|intros home];
    apply never_exits_invoke.
Qed.

End NeverExits.

(** ** [list_teams] and [set_team] *)

Lemma team_lines_run (w : World) (teams : list Team.t) (h : list event) :
  for_each teams
    (fun team =>
       if Team.default team
       then print (Team.slug team ++ " (default)")
       else print (Team.slug team)) h
  = (map team_line teams, Returned tt).
Proof.
  unfold for_each. revert h.
  induction teams as [|team teams IH]; intros h; simpl; [reflexivity|].
  unfold bind. unfold team_line at 1.
  destruct (Team.default team); simpl; now rewrite IH.
Qed.

(** [list_teams] prints one line per team of the configuration, in the
    order of the configuration, the default teams marked, and nothing
    else; it reads the configuration file without loading a client. *)
Theorem list_teams_prints_every_team
    (w : World) (home : Path.t) (config : Config.t) (teams : list Team.t) :
  respond w [] PathHome = inr home ->
  respond w [Called PathHome] (NewConfig (config_file home)) = inr config ->
  respond w [Called PathHome; Called (NewConfig (config_file home))]
            (GetAllTeams config) = inr teams ->
  list_teams w []
  = (([Called PathHome; Called (NewConfig (config_file home));
       Called (GetAllTeams config)]
      ++ map (fun team =>
                Printed (if Team.default team
                         then Team.slug team ++ " (default)"
                         else Team.slug team)) teams)%list,
     Returned tt).
Proof.
  intros Hhome Hconfig Hteams.
  unfold list_teams, _config, bind at 1 2, invoke.
  rewrite Hhome. simpl. unfold config_file in *. rewrite Hconfig. simpl.
  unfold bind, invoke. rewrite Hteams. simpl.
  now rewrite (team_lines_run w).
Qed.

Lemma list_teams_prints_every_team_witness :
  list_teams (Sample.world "y") []
  = ([Called PathHome;
      Called (NewConfig (config_file Demo.home));
      Called (GetAllTeams (Config.mk (config_file Demo.home)));
      Printed "acme (default)";
      Printed "tools"],
     Returned tt).
Proof.
  apply (list_teams_prints_every_team (Sample.world "y") Demo.home
           (Config.mk (config_file Demo.home)) Sample.teams);
    reflexivity.
Defined.

(** [list_teams] and [set_team] have no failure branch: in no world do they
    end in [sys.exit]; whatever a collaborator raises leaves them as that
    exception, the last event of the log, and [set_team] prints nothing. *)
Theorem team_commands_never_exit
    (w : World) (team_slug : string) (h : list event) :
  (forall code, snd (list_teams w h) <> Exited code)
  /\ (forall code, snd (set_team w team_slug h) <> Exited code)
  /\ (forall e, snd (list_teams w h) = Raised e ->
        exists pre ev, fst (list_teams w h) = (pre ++ [ev])%list
                       /\ failure_of ev = Some e)
  /\ (forall e, snd (set_team w team_slug h) = Raised e ->
        exists pre ev, fst (set_team w team_slug h) = (pre ++ [ev])%list
                       /\ failure_of ev = Some e)
  /\ (forall line, ~ In (Printed line) (fst (set_team w team_slug h))).
Proof.
  split; [|split; [|split; [|split]]].
  - intros code. revert h code. unfold list_teams, for_each.
    apply never_exits_bind; [apply never_exits_config|intros config].
    apply never_exits_bind; [apply never_exits_invoke|intros teams].
    apply never_exits_for_fold. intros _ team.
    destruct (Team.default team); apply never_exits_print.
  - intros code. revert h code. unfold set_team.
    apply never_exits_bind; [apply never_exits_config|intros config].
    apply never_exits_invoke.
  - intros e He. destruct (list_teams_behaves w) as (Hd & _).
    specialize (Hd h). unfold run in Hd.
    destruct (list_teams w h) as [t o]; simpl in *; subst o.
    destruct Hd as (pre & ev & -> & _ & Hev). eauto.
  - intros e He. destruct (set_team_behaves w team_slug) as (Hd & _).
    specialize (Hd h). unfold run in Hd.
    destruct (set_team w team_slug h) as [t o]; simpl in *; subst o.
    destruct Hd as (pre & ev & -> & _ & Hev). eauto.
  - intros line. revert h.
    assert (H : always (fun ev => ev <> Printed line) (set_team w team_slug)).
    { unfold set_team.
      apply always_bind; [apply always_config; intros; discriminate|intros config].
      apply always_invoke; intros; discriminate. }
    intros h Hin. exact (H h _ Hin eq_refl).
Qed.

(** Without a configuration file [list_teams] does not print
    ["Authenticate first"]: the exception leaves the command. *)
Example list_teams_without_configuration :
  list_teams
    {| parse_identifier := DatasetIdentifier.parse;
       str_identifier := DatasetIdentifier.render;
       naturaldate := fun _ => "today";
       naturalsize := fun _ => "0 Bytes";
       str_round1 := fun _ => "50.0";
       respond := fun X _ c =>
         match c in call X return exn + X with
         | GetAllTeams _ => inl MissingConfig
         | c' => inr (Demo.nothing c')
         end |} []
  = ([Called PathHome;
      Called (NewConfig (config_file Demo.home));
      Failed (GetAllTeams (Config.mk (config_file Demo.home))) MissingConfig],
     Raised MissingConfig).
Proof. reflexivity. Qed.

(** ** Changes of the remote *)

Lemma mutations_app (a b : list event) :
  mutations (a ++ b) = mutations a + mutations b.
Proof. unfold mutations. now rewrite filter_app, length_app. Qed.

Section AtMost.

Variable w : World.

Lemma at_most_ret {A} (n : nat) (a : A) : at_most n (ret a).
Proof. intros h. apply Nat.le_0_l. Qed.

Lemma at_most_print (n : nat) (line : string) : at_most n (print line).
Proof. intros h. apply Nat.le_0_l. Qed.

Lemma at_most_print_table (n : nat) (table : Table.t) : at_most n (print_table table).
Proof. intros h. apply Nat.le_0_l. Qed.

Lemma at_most_raise {A} (n : nat) (e : exn) : at_most n (@raise A e).
Proof. intros h. apply Nat.le_0_l. Qed.

Lemma at_most_lift {A} (n : nat) (r : exn + A) : at_most n (lift r).
Proof. destruct r; [apply at_most_raise | apply at_most_ret]. Qed.

Lemma at_most_error {A} (n : nat) (message : string) : at_most n (@_error A message).
Proof. intros h. apply Nat.le_0_l. Qed.

Lemma at_most_invoke {X} (n : nat) (c : call X) :
  weight c <= n -> at_most n (invoke w c).
Proof.
  intros Hc h. unfold invoke, weight in *.
  destruct (respond w h c); unfold mutations; simpl;
    destruct c; simpl in *; lia.
Qed.

Lemma at_most_exhaust {X A} (n : nat) (c : call X) (g : generator A) :
  weight c <= n -> at_most n (exhaust c g).
Proof.
  intros Hc h. unfold exhaust, weight in *.
  destruct (failure g); unfold mutations; simpl; [|lia].
  destruct c; simpl in *; lia.
Qed.

(** A step that leaves the remote alone, then the rest. *)
Lemma at_most_bind_first {A C} (n : nat) (m : M A) (k : A -> M C) :
  at_most 0 m -> (forall a, at_most n (k a)) -> at_most n (bind m k).
Proof.
  intros Hm Hk h. specialize (Hm h). unfold bind.
  destruct (m h) as [t [a|e|code]]; simpl in *; try lia.
  specialize (Hk a (h ++ t)%list).
  destruct (k a (h ++ t)%list) as [t' o]; simpl in *.
  rewrite mutations_app. lia.
Qed.

(** A step within the bound, then a rest that leaves the remote alone. *)
Lemma at_most_bind_last {A C} (n : nat) (m : M A) (k : A -> M C) :
  at_most n m -> (forall a, at_most 0 (k a)) -> at_most n (bind m k).
Proof.
  intros Hm Hk h. specialize (Hm h). unfold bind.
  destruct (m h) as [t [a|e|code]]; simpl in *; try lia.
  specialize (Hk a (h ++ t)%list).
  destruct (k a (h ++ t)%list) as [t' o]; simpl in *.
  rewrite mutations_app. lia.
Qed.

Lemma at_most_try {A} (n : nat) (body : M A) (handler : exn -> option (M A)) :
  at_most n body -> only_errors handler -> at_most n (try_except body handler).
Proof.
  intros Hb Hh h. specialize (Hb h). unfold try_except.
  destruct (body h) as [t [a|e|code]]; simpl in *; try lia.
  destruct (handler e) as [recover|] eqn:E; simpl; [|lia].
  destruct (Hh _ _ E) as [message ->]. rewrite error_runs. simpl.
  rewrite mutations_app. unfold mutations at 2. simpl. lia.
Qed.

Lemma at_most_for_fold {A S} (items : list A) (acc : S) (body : S -> A -> M S) :
  (forall acc x, at_most 0 (body acc x)) -> at_most 0 (for_fold items acc body).
Proof.
  intros Hb. revert acc. induction items as [|x items IH]; intros acc; simpl.
  - apply at_most_ret.
  - apply at_most_bind_first; auto.
Qed.

Lemma at_most_for_return_items {A C} (items : list A) (stop : M unit)
    (body : A -> M (option C)) :
  at_most 0 stop -> (forall x, at_most 0 (body x)) ->
  at_most 0 (for_return_items items stop body).
Proof.
  intros Hs Hb. induction items as [|x items IH]; simpl.
  - apply at_most_bind_first; [exact Hs|intros _; apply at_most_ret].
  - apply at_most_bind_first; [apply Hb|].
    intros [c|]; [apply at_most_ret | exact IH].
Qed.

Lemma at_most_le {A} (a b : nat) (m : M A) : at_most a m -> a <= b -> at_most b m.
Proof. intros H Hab h. specialize (H h). lia. Qed.

Lemma at_most_load_client (n : nat) (team : option string) (offline : bool) :
  at_most n (_load_client w team offline).
Proof.
  apply at_most_le with (a := 0); [|lia]. unfold _load_client.
  apply at_most_try.
  - apply at_most_bind_first; [apply at_most_invoke; reflexivity|intros home].
    apply at_most_bind_first; [apply at_most_invoke; reflexivity|intros client].
    apply at_most_ret.
  - intros e m H. destruct e; try discriminate H; injection H as <-; eauto.
Qed.

Lemma at_most_config (n : nat) : at_most n (_config w).
Proof.
  unfold _config.
  apply at_most_bind_first; [apply at_most_invoke; reflexivity|intros home].
  apply at_most_invoke. apply Nat.le_0_l.
Qed.

End AtMost.

(** The clauses of a handler all call [_error]. *)
Ltac error_clauses :=
  let e := fresh "e" in
  let m := fresh "m" in
  let H := fresh "H" in
  intros e m H; destruct e; try discriminate H; injection H as <-; eauto.

(** Counting the changes of the remote along a command. *)
Ltac tally :=
  repeat first
    [ apply at_most_ret | apply at_most_print | apply at_most_print_table
    | apply at_most_raise | apply at_most_lift | apply at_most_error
    | apply at_most_load_client | apply at_most_config
    | apply at_most_invoke; solve [cbn; lia]
    | apply at_most_exhaust; solve [cbn; lia]
    | apply at_most_for_fold; intros ? ?
    | apply at_most_for_return_items; [|intros ?]
    | apply at_most_try; [|solve [error_clauses]]
    | apply at_most_bind_first; [solve [tally]|intros ?]
    | apply at_most_bind_last; [|intros ?; solve [tally]]
    | match goal with
      | |- at_most _ (if ?b then _ else _) => destruct b
      | |- at_most _ (match ?x with _ => _ end) => destruct x
      end ].

(** Every command changes the remote at most once in a run, and the
    commands that do not create, export, remove or upload never do: no
    call of [create_dataset], [export], [remove_remote] or [push] is in
    their logs. *)
Theorem remote_changed_at_most_once (w : World) (cmd : command) (h : list event) :
  mutations (fst (run w cmd h)) <= (if changes_remote cmd then 1 else 0).
Proof.
  revert h. change (at_most (if changes_remote cmd then 1 else 0) (run w cmd)).
  destruct cmd; simpl;
    unfold authenticate, current_team, list_teams, set_team, create_dataset,
      local, total_size, path, url, dataset_report, export_dataset, pull_dataset,
      pull_dataset_with, list_remote_datasets, remove_remote_dataset,
      dataset_list_releases, upload_data, upload_data_with, for_each, for_return;
    tally.
Qed.

(** ** [authenticate] *)

(** [authenticate] asks only for what it was not given: a call of [input]
    is in its log only when [default_team] is [None], a call of [prompt]
    only when [datasets_dir] is [None]. *)
Theorem authenticate_asks_only_what_is_missing
    (w : World) (api_key : string) (default_team : option bool)
    (datasets_dir : option Path.t) (h : list event) (ev : event) :
  In ev (fst (authenticate w api_key default_team datasets_dir h)) ->
  (asks_input ev = true -> default_team = None)
  /\ (asks_prompt ev = true -> datasets_dir = None).
Proof.
  revert h ev.
  change (always (fun ev => (asks_input ev = true -> default_team = None)
                            /\ (asks_prompt ev = true -> datasets_dir = None))
                 (authenticate w api_key default_team datasets_dir)).
  assert (Hq : forall line, (asks_input (Printed line) = true -> default_team = None)
                            /\ (asks_prompt (Printed line) = true -> datasets_dir = None))
    by (intros line; split; discriminate).
  unfold authenticate. apply always_try.
  - apply always_bind;
      [apply always_invoke; intros; split; discriminate|intros client].
    apply always_bind;
      [apply always_invoke; intros; split; discriminate|intros home].
    apply always_bind;
      [apply always_invoke; intros; split; discriminate|intros _].
    apply always_bind.
    { destruct default_team as [flag|]; [apply always_ret|].
      apply always_bind; [|intros answer; apply always_ret].
      apply always_invoke; intros; split; (reflexivity || discriminate). }
    intros flag. apply always_bind.
    { destruct datasets_dir as [dir|]; [apply always_ret|].
      apply always_bind; [|intros text; apply always_ret].
      apply always_invoke; intros; split; (reflexivity || discriminate). }
    intros dir.
    repeat (apply always_bind;
            [apply always_invoke; intros; split; discriminate|intros ?]).
    apply always_invoke; intros; split; discriminate.
  - intros e recover H. destruct e; try discriminate H.
    injection H as <-. apply always_error, Hq.
Qed.

Lemma authenticate_asks_only_what_is_missing_witness :
  (asks_input (Called (Input "Make acme the default team? [y/N] ")) = true ->
   @None bool = None)
  /\ (asks_prompt (Called (Input "Make acme the default team? [y/N] ")) = true ->
      Some Sample.cars_dir = None).
Proof.
  apply (authenticate_asks_only_what_is_missing
           (Sample.world "y") "key" None (Some Sample.cars_dir) []).
  simpl. do 3 right. left. reflexivity.
Defined.

(** The default team [authenticate] persists is decided by the flag it was
    given or, without a flag, by the answer to its question: the client's
    default team for [True] or an answer that is exactly ["Y"] or ["y"],
    [None] for anything else. *)
Theorem authenticate_default_team_decision
    (w : World) (api_key : string) (default_team : option bool)
    (datasets_dir : option Path.t) (h : list event) (ev : event)
    (client : Client.t) (chosen : option string) :
  In ev (fst (authenticate w api_key default_team datasets_dir h)) ->
  persisted ev = Some (client, chosen) ->
  exists yes : bool,
    chosen = (if yes then Some (Client.default_team client) else None)
    /\ (default_team = Some yes
        \/ (default_team = None
            /\ exists hist message answer,
                 respond w hist (Input message) = inr answer
                 /\ yes = (String.eqb answer "Y" || String.eqb answer "y"))).
Proof.
  intros Hin. revert client chosen. revert h ev Hin.
  change (always
            (fun ev =>
               forall client chosen,
                 persisted ev = Some (client, chosen) ->
                 exists yes : bool,
                   chosen = (if yes then Some (Client.default_team client) else None)
                   /\ (default_team = Some yes
                       \/ (default_team = None
                           /\ exists hist message answer,
                                respond w hist (Input message) = inr answer
                                /\ yes = (String.eqb answer "Y"
                                          || String.eqb answer "y"))))
            (authenticate w api_key default_team datasets_dir)).
  unfold authenticate. apply always_try.
  - apply always_bind; [apply always_invoke; intros; discriminate|intros client].
    apply always_bind; [apply always_invoke; intros; discriminate|intros home].
    apply always_bind; [apply always_invoke; intros; discriminate|intros _].
    apply always_bind_returns with
      (Q := fun yes : bool =>
              default_team = Some yes
              \/ (default_team = None
                  /\ exists hist message answer,
                       respond w hist (Input message) = inr answer
                       /\ yes = (String.eqb answer "Y" || String.eqb answer "y"))).
    + destruct default_team as [flag|]; [apply returns_ret; now left|].
      eapply returns_bind; [apply returns_invoke|].
      intros answer [hist E]. apply returns_ret. right. split; [reflexivity|].
      eauto.
    + destruct default_team as [flag|]; [apply always_ret|].
      apply always_bind; [|intros answer; apply always_ret].
      apply always_invoke; intros; discriminate.
    + intros yes Hyes. apply always_bind.
      { destruct datasets_dir as [dir|]; [apply always_ret|].
        apply always_bind; [|intros text; apply always_ret].
        apply always_invoke; intros; discriminate. }
      intros dir.
      repeat (apply always_bind;
              [apply always_invoke; intros; discriminate|intros ?]).
      apply always_invoke; [|intros; discriminate].
      intros c chosen [= <- <-]. exists yes. split; [reflexivity|exact Hyes].
  - intros e recover H. destruct e; try discriminate H.
    injection H as <-. apply always_error. discriminate.
Qed.

Lemma authenticate_default_team_decision_witness :
  exists yes : bool,
    @None string = (if yes then Some (Client.default_team Demo.client) else None)
    /\ (@None bool = Some yes
        \/ (@None bool = None
            /\ exists hist message answer,
                 respond (Sample.world "yes") hist (Input message) = inr answer
                 /\ yes = (String.eqb answer "Y" || String.eqb answer "y"))).
Proof.
  apply (authenticate_default_team_decision
           (Sample.world "yes") "key" None (Some Sample.cars_dir) []
           (Called (PersistClientConfiguration Demo.client None))).
  - simpl. do 7 right. left. reflexivity.
  - reflexivity.
Defined.

(** Answering ["yes"] is not answering ["y"]: no default team is persisted. *)
Example authenticate_answering_yes :
  authenticate (Sample.world "yes") "key" None (Some Sample.cars_dir) []
  = ([Called (FromApiKey "key");
      Called PathHome;
      Called (Mkdir (Demo.home // ".darwin") false true);
      Called (Input "Make acme the default team? [y/N] ");
      Called (ExpandUser Sample.cars_dir);
      Called (Mkdir Sample.cars_dir true true);
      Called (SetDatasetsDir Demo.client Sample.cars_dir);
      Called (PersistClientConfiguration Demo.client None)],
     Returned (Config.mk (config_file Demo.home))).
Proof. reflexivity. Qed.

(** [authenticate] returns exactly when a call of
    [persist_client_configuration] returned: in a run that fails, the key
    refused, a directory that cannot be made, a question left unanswered,
    no such call has returned, and the configuration a run returns is the
    one that call answered.  The call may itself be what fails: it is the
    last step, so its exception is the one that ends the run, through
    [_error] when it is [InvalidLogin]. *)
Theorem authenticate_persists_iff_it_returns
    (w : World) (api_key : string) (default_team : option bool)
    (datasets_dir : option Path.t) (h : list event) :
  ((exists ev,
      In ev (fst (authenticate w api_key default_team datasets_dir h))
      /\ persisted ev <> None)
   <-> (exists config,
          snd (authenticate w api_key default_team datasets_dir h)
          = Returned config))
  /\ (forall config,
        snd (authenticate w api_key default_team datasets_dir h) = Returned config ->
        exists hist client chosen,
          respond w hist (PersistClientConfiguration client chosen) = inr config)
  /\ (forall ev e,
        In ev (fst (authenticate w api_key default_team datasets_dir h)) ->
        attempts_persist ev = true -> failure_of ev = Some e ->
        snd (authenticate w api_key default_team datasets_dir h) = Raised e
        \/ (e = InvalidLogin
            /\ snd (authenticate w api_key default_team datasets_dir h)
               = Exited 1%Z)).
Proof.
  assert (bind_first : forall A C (m : M A) (k : A -> M C),
            always (fun ev => persisted ev = None) m ->
            (forall a, commits (k a)) -> commits (bind m k)).
  { intros A C m k Hm Hk h0. specialize (Hm h0). unfold bind.
    destruct (m h0) as [t [a|e|code]]; simpl in *.
    - specialize (Hk a (h0 ++ t)%list).
      destruct (k a (h0 ++ t)%list) as [t' o]; simpl in *. split.
      + intros (ev & Hin & Hp). apply in_app_or in Hin as [Hin|Hin].
        * now rewrite (Hm ev Hin) in Hp.
        * apply Hk. eauto.
      + intros Hr. apply Hk in Hr as (ev & Hin & Hp).
        exists ev. split; [apply in_or_app; now right|exact Hp].
    - split; [intros (ev & Hin & Hp); now rewrite (Hm ev Hin) in Hp|].
      intros [a [=]].
    - split; [intros (ev & Hin & Hp); now rewrite (Hm ev Hin) in Hp|].
      intros [a [=]]. }
  assert (step : forall X (c : call X),
            persisted (Called c) = None ->
            always (fun ev => persisted ev = None) (invoke w c)).
  { intros X c Hc. apply always_invoke; [exact Hc|reflexivity]. }
  assert (settles_first : forall A C (m : M A) (k : A -> M C),
            always (fun ev => attempts_persist ev = false) m ->
            (forall a, settles (k a)) -> settles (bind m k)).
  { intros A C m k Hm Hk h0 ev e. specialize (Hm h0). unfold bind.
    destruct (m h0) as [t [a|e0|code]]; simpl in *.
    - specialize (Hk a (h0 ++ t)%list ev e).
      destruct (k a (h0 ++ t)%list) as [t' o]; simpl in *.
      intros Hin Ha. apply in_app_or in Hin as [Hin|Hin]; [|now apply Hk].
      now rewrite (Hm ev Hin) in Ha.
    - intros Hin Ha. now rewrite (Hm ev Hin) in Ha.
    - intros Hin Ha. now rewrite (Hm ev Hin) in Ha. }
  assert (other : forall X (c : call X),
            attempts_persist (Called c) = false ->
            always (fun ev => attempts_persist ev = false) (invoke w c)).
  { intros X c Hc. apply always_invoke; [exact Hc|intros e; exact Hc]. }
  split; [|split].
  - revert h.
    change (commits (authenticate w api_key default_team datasets_dir)).
    unfold authenticate.
    assert (Hbody : forall (body : M Config.t), commits body ->
              commits (try_except body
                         (fun e => match e with
                                   | InvalidLogin => Some (_error "Invalid API key")
                                   | _ => None
                                   end))).
    { intros body Hb h0. specialize (Hb h0). unfold try_except.
      destruct (body h0) as [t [a|e|code]]; simpl in *; try exact Hb.
      destruct e; simpl; try exact Hb. split.
      - intros (ev & Hin & Hp). apply in_app_or in Hin as [Hin|[<-|[]]].
        + assert (Hr : exists a : Config.t, @Raised Config.t InvalidLogin = Returned a)
            by (apply Hb; eauto).
          destruct Hr as [a [=]].
        + now destruct Hp.
      - intros [a [=]]. }
    apply Hbody.
    apply bind_first; [now apply step|intros client].
    apply bind_first; [now apply step|intros home].
    apply bind_first; [now apply step|intros _].
    apply bind_first.
    { destruct default_team as [flag|]; [apply always_ret|].
      apply always_bind; [now apply step|intros answer; apply always_ret]. }
    intros flag. apply bind_first.
    { destruct datasets_dir as [dir|]; [apply always_ret|].
      apply always_bind; [now apply step|intros text; apply always_ret]. }
    intros dir.
    apply bind_first; [now apply step|intros dir'].
    apply bind_first; [now apply step|intros _].
    apply bind_first; [now apply step|intros _].
    intros h0. unfold invoke.
    destruct (respond w h0 _) as [e|config]; simpl; split.
    + intros (ev & [<-|[]] & Hp). now destruct Hp.
    + intros [a [=]].
    + intros _. eauto.
    + intros _. eexists. split; [left; reflexivity|discriminate].
  - assert (Hr : returns
                   (fun config => exists hist client chosen,
                        respond w hist (PersistClientConfiguration client chosen)
                        = inr config)
                   (authenticate w api_key default_team datasets_dir)).
    { unfold authenticate. apply returns_try; [|error_clauses].
      repeat (eapply returns_bind; [apply returns_any|intros ? _]).
      eapply returns_weaken; [apply returns_invoke|].
      intros config [hist E]. eauto. }
    intros config E.
    destruct (authenticate w api_key default_team datasets_dir h) as [t o] eqn:Ea.
    simpl in E. subst o. exact (Hr _ _ _ Ea).
  - assert (Hbody : settles
              (client <- invoke w (FromApiKey api_key) ;;
               home <- invoke w PathHome ;;
               invoke w (Mkdir (Path.parent (home // ".darwin" // "config.yaml"))
                           false true) ;;
               default_team <-
                 match default_team with
                 | None =>
                     answer <- invoke w (Input ("Make " ++ Client.default_team client
                                                ++ " the default team? [y/N] ")) ;;
                     ret (String.eqb answer "Y" || String.eqb answer "y")
                 | Some flag => ret flag
                 end ;;
               datasets_dir <-
                 match datasets_dir with
                 | None =>
                     text <- invoke w (Prompt "Datasets directory"
                                              "~/.darwin/datasets") ;;
                     ret (Path.of_string text)
                 | Some dir => ret dir
                 end ;;
               datasets_dir <- invoke w (ExpandUser datasets_dir) ;;
               invoke w (Mkdir datasets_dir true true) ;;
               invoke w (SetDatasetsDir client datasets_dir) ;;
               invoke w (PersistClientConfiguration client
                           (if default_team : bool
                            then Some (Client.default_team client) else None)))).
    { apply settles_first; [now apply other|intros client].
      apply settles_first; [now apply other|intros home].
      apply settles_first; [now apply other|intros _].
      apply settles_first.
      { destruct default_team as [flag|]; [apply always_ret|].
        apply always_bind; [now apply other|intros answer; apply always_ret]. }
      intros flag. apply settles_first.
      { destruct datasets_dir as [dir|]; [apply always_ret|].
        apply always_bind; [now apply other|intros text; apply always_ret]. }
      intros dir.
      apply settles_first; [now apply other|intros dir'].
      apply settles_first; [now apply other|intros _].
      apply settles_first; [now apply other|intros _].
      intros h0 ev e. unfold invoke.
      destruct (respond w h0 _) as [e0|config]; simpl.
      - intros [<-|[]] _ [= <-]. reflexivity.
      - intros [<-|[]] _ [=]. }
    intros ev e. unfold authenticate, try_except.
    specialize (Hbody h ev e). revert Hbody.
    match goal with
    | |- context [match ?body h with _ => _ end] =>
        destruct (body h) as [t [config|e0|code]]
    end; simpl.
    + intros Hbody Hin Ha Hf. now specialize (Hbody Hin Ha Hf).
    + intros Hbody Hin Ha Hf.
      assert (He : e0 = e).
      { destruct e0; simpl in Hin;
          try (apply in_app_or in Hin as [Hin|[<-|[]]]; [|discriminate Ha]);
          specialize (Hbody Hin Ha Hf); congruence. }
      subst e0. destruct e; simpl; auto.
    + intros Hbody Hin Ha Hf. now specialize (Hbody Hin Ha Hf).
Qed.

(** A key the server refuses: nothing is created and nothing persisted. *)
Example authenticate_with_a_refused_key :
  authenticate Sample.refusing "key" None None []
  = ([Failed (FromApiKey "key") InvalidLogin; Printed "Error: Invalid API key"],
     Exited 1%Z).
Proof. reflexivity. Qed.

(** The configuration cannot be written: the call is in the log, as the
    failure that ends the run. *)
Example authenticate_when_persisting_fails :
  authenticate
    {| parse_identifier := DatasetIdentifier.parse;
       str_identifier := DatasetIdentifier.render;
       naturaldate := fun _ => "today";
       naturalsize := fun _ => "0 Bytes";
       str_round1 := fun _ => "50.0";
       respond := fun X _ c =>
         match c in call X return exn + X with
         | PersistClientConfiguration _ _ => inl (OtherError "PermissionError")
         | c' => inr (Demo.nothing c')
         end |} "key" (Some true) (Some (Demo.home // "data")) []
  = ([Called (FromApiKey "key");
      Called PathHome;
      Called (Mkdir (Demo.home // ".darwin") false true);
      Called (ExpandUser (Demo.home // "data"));
      Called (Mkdir (Demo.home // "data") true true);
      Called (SetDatasetsDir Demo.client (Demo.home // "data"));
      Failed (PersistClientConfiguration Demo.client (Some "acme"))
             (OtherError "PermissionError")],
     Raised (OtherError "PermissionError")).
Proof. reflexivity. Qed.

(** ** No output from a run that fails *)

Lemma prints_app (a b : list event) : prints (a ++ b) = (prints a ++ prints b)%list.
Proof. apply filter_app. Qed.

Section Quiet.

Variable w : World.

Lemma quiet_all_or_nothing {A} (m : M A) : quiet m -> all_or_nothing m.
Proof. intros H h. apply H. Qed.

Lemma total_all_or_nothing {A} (m : M A) : total m -> all_or_nothing m.
Proof.
  intros H h. destruct (H h) as [a Ha].
  destruct (m h) as [t o]; simpl in *. now subst o.
Qed.

Lemma quiet_ret {A} (a : A) : quiet (ret a).
Proof. intros h. split; [exact I|reflexivity]. Qed.

Lemma quiet_raise {A} (e : exn) : quiet (@raise A e).
Proof. intros h. split; [reflexivity|discriminate]. Qed.

Lemma quiet_lift {A} (r : exn + A) : quiet (lift r).
Proof. destruct r; [apply quiet_raise | apply quiet_ret]. Qed.

Lemma quiet_invoke {X} (c : call X) : quiet (invoke w c).
Proof.
  intros h. unfold invoke.
  destruct (respond w h c); (split; [first [exact I|reflexivity]|]);
    simpl; intros; (reflexivity || discriminate).
Qed.

Lemma quiet_exhaust {X A} (c : call X) (g : generator A) : quiet (exhaust c g).
Proof.
  intros h. unfold exhaust.
  destruct (failure g); (split; [first [exact I|reflexivity]|]);
    simpl; intros; (reflexivity || discriminate).
Qed.

Lemma quiet_bind {A C} (m : M A) (k : A -> M C) :
  quiet m -> (forall a, quiet (k a)) -> quiet (bind m k).
Proof.
  intros Hm Hk h. destruct (Hm h) as [Hf Hr]. unfold bind.
  destruct (m h) as [t [a|e|code]]; simpl in *.
  - specialize (Hr a eq_refl). destruct (Hk a (h ++ t)%list) as [Hf' Hr'].
    destruct (k a (h ++ t)%list) as [t' o]; simpl in *.
    split.
    + destruct o; simpl in *; auto; rewrite prints_app, Hr; exact Hf'.
    + intros c ->. rewrite prints_app, Hr. exact (Hr' c eq_refl).
  - split; [exact Hf|discriminate].
  - split; [exact Hf|discriminate].
Qed.

Lemma quiet_try {A} (body : M A) (handler : exn -> option (M A)) :
  quiet body -> only_errors handler -> quiet (try_except body handler).
Proof.
  intros Hb Hh h. destruct (Hb h) as [Hf Hr]. unfold try_except.
  destruct (body h) as [t [a|e|code]]; simpl in *.
  - split; [exact I|exact Hr].
  - destruct (handler e) as [recover|] eqn:E; simpl.
    + destruct (Hh _ _ E) as [message ->]. rewrite error_runs. simpl.
      split; [|discriminate]. exists message. now rewrite prints_app, Hf.
    + split; [exact Hf|discriminate].
  - split; [exact Hf|discriminate].
Qed.

Lemma quiet_for_fold {A S} (items : list A) (acc : S) (body : S -> A -> M S) :
  (forall acc x, quiet (body acc x)) -> quiet (for_fold items acc body).
Proof.
  intros Hb. revert acc. induction items as [|x items IH]; intros acc; simpl.
  - apply quiet_ret.
  - apply quiet_bind; auto.
Qed.

Lemma quiet_for_return_items {A C} (items : list A) (stop : M unit)
    (body : A -> M (option C)) :
  quiet stop -> (forall x, quiet (body x)) ->
  quiet (for_return_items items stop body).
Proof.
  intros Hs Hb. induction items as [|x items IH]; simpl.
  - apply quiet_bind; [exact Hs|intros _; apply quiet_ret].
  - apply quiet_bind; [apply Hb|]. intros [c|]; [apply quiet_ret|exact IH].
Qed.

Lemma quiet_load_client (team : option string) (offline : bool) :
  quiet (_load_client w team offline).
Proof.
  unfold _load_client. apply quiet_try; [|error_clauses].
  apply quiet_bind; [apply quiet_invoke|intros home].
  apply quiet_bind; [apply quiet_invoke|intros client]. apply quiet_ret.
Qed.

Lemma quiet_config : quiet (_config w).
Proof.
  unfold _config. apply quiet_bind; [|intros home]; apply quiet_invoke.
Qed.

Lemma total_print (line : string) : total (print line).
Proof. intros h. now exists tt. Qed.

Lemma total_print_table (table : Table.t) : total (print_table table).
Proof. intros h. now exists tt. Qed.

Lemma total_ret {A} (a : A) : total (ret a).
Proof. intros h. now exists a. Qed.

Lemma total_bind {A C} (m : M A) (k : A -> M C) :
  total m -> (forall a, total (k a)) -> total (bind m k).
Proof.
  intros Hm Hk h. destruct (Hm h) as [a Ha]. unfold bind.
  destruct (m h) as [t o]; simpl in *; subst o.
  destruct (Hk a (h ++ t)%list) as [c Hc].
  destruct (k a (h ++ t)%list) as [t' o]; simpl in *; subst o. eauto.
Qed.

Lemma total_for_fold {A S} (items : list A) (acc : S) (body : S -> A -> M S) :
  (forall acc x, total (body acc x)) -> total (for_fold items acc body).
Proof.
  intros Hb. revert acc. induction items as [|x items IH]; intros acc; simpl.
  - apply total_ret.
  - apply total_bind; auto.
Qed.

(** Steps that print nothing, then a rest that is all or nothing. *)
Lemma all_or_nothing_bind {A C} (m : M A) (k : A -> M C) :
  quiet m -> (forall a, all_or_nothing (k a)) -> all_or_nothing (bind m k).
Proof.
  intros Hm Hk h. destruct (Hm h) as [Hf Hr]. unfold bind.
  destruct (m h) as [t [a|e|code]]; simpl in *; auto.
  specialize (Hr a eq_refl). specialize (Hk a (h ++ t)%list).
  destruct (k a (h ++ t)%list) as [t' [c|e|code]]; simpl in *; auto;
    now rewrite prints_app, Hr.
Qed.

Lemma all_or_nothing_try {A} (body : M A) (handler : exn -> option (M A)) :
  all_or_nothing body -> only_errors handler ->
  all_or_nothing (try_except body handler).
Proof.
  intros Hb Hh h. specialize (Hb h). unfold try_except.
  destruct (body h) as [t [a|e|code]]; simpl in *; auto.
  destruct (handler e) as [recover|] eqn:E; simpl; auto.
  destruct (Hh _ _ E) as [message ->]. rewrite error_runs. simpl.
  exists message. now rewrite prints_app, Hb.
Qed.

End Quiet.

(** Steps that print nothing. *)
Ltac hush :=
  repeat first
    [ apply quiet_ret | apply quiet_raise | apply quiet_lift | apply quiet_invoke
    | apply quiet_exhaust | apply quiet_load_client | apply quiet_config
    | apply quiet_for_fold; intros ? ?
    | apply quiet_for_return_items; [|intros ?]
    | apply quiet_try; [|solve [error_clauses]]
    | apply quiet_bind; [|intros ?]
    | match goal with
      | |- quiet (if ?b then _ else _) => destruct b
      | |- quiet (match ?x with _ => _ end) => destruct x
      end ].

(** Steps that print nothing, then the output. *)
Ltac output :=
  repeat first
    [ apply total_all_or_nothing;
      solve [repeat first [ apply total_print | apply total_print_table
                          | apply total_ret
                          | apply total_for_fold; intros ? ?
                          | apply total_bind; [|intros ?]
                          | match goal with
                            | |- total (if ?b then _ else _) => destruct b
                            end ]]
    | apply quiet_all_or_nothing; solve [hush]
    | apply all_or_nothing_try; [|solve [error_clauses]]
    | apply all_or_nothing_bind; [solve [hush]|intros ?]
    | match goal with
      | |- all_or_nothing (if ?b then _ else _) => destruct b
      | |- all_or_nothing (match ?x with _ => _ end) => destruct x
      end ].

Lemma always_for_return_items (P : event -> Prop) {A C} (items : list A)
    (stop : M unit) (body : A -> M (option C)) :
  always P stop -> (forall x, always P (body x)) ->
  always P (for_return_items items stop body).
Proof.
  intros Hs Hb. induction items as [|x items IH]; simpl.
  - apply always_bind; [exact Hs|intros _; apply always_ret].
  - apply always_bind; [apply Hb|]. intros [c|]; [apply always_ret|exact IH].
Qed.

(** Without a question in the log, what was written is what was printed. *)
Lemma writes_prints (t : list event) :
  (forall ev, In ev t -> asks ev = false) -> filter writes t = filter is_print t.
Proof.
  induction t as [|ev t IH]; intros H; simpl; [reflexivity|].
  unfold writes at 1. rewrite (H ev (or_introl eq_refl)), orb_false_r.
  rewrite IH; [reflexivity|]. intros ev' Hin. apply H. now right.
Qed.

(** Steps that ask nothing. *)
Ltac unasked :=
  repeat first
    [ apply always_ret
    | apply always_print; reflexivity
    | apply always_print_table; reflexivity
    | apply always_raise; reflexivity
    | apply always_lift; intros ?; reflexivity
    | apply always_error; reflexivity
    | apply always_load_client; intros; reflexivity
    | apply always_config; intros; reflexivity
    | apply always_invoke; [reflexivity|intros ?; reflexivity]
    | apply always_exhaust; intros ?; reflexivity
    | apply always_for_fold; intros ? ?
    | apply always_for_return_items; [|intros ?]
    | apply always_try;
      [|let e := fresh "e" in
        let m := fresh "m" in
        let H := fresh "H" in
        intros e m H; destruct e; try discriminate H; injection H as <-;
        apply always_error; reflexivity]
    | apply always_bind; [|intros ?]
    | match goal with
      | |- always _ (if ?b then _ else _) => destruct b
      | |- always _ (match ?x with _ => _ end) => destruct x
      end ].

(** Every command but [remove_remote_dataset], and [authenticate] when it
    has to ask, writes to standard output only once nothing can fail any
    more: a run that ends in an exception has printed nothing and asked
    nothing, and a run that ends in [sys.exit] has written the error line
    and nothing else.  No table is left half shown, no success line
    precedes an error.  [authenticate] is among them when it was given
    both the default team and the datasets directory. *)
Theorem failed_run_prints_only_the_error
    (w : World) (cmd : command) (h : list event) :
  announces cmd = false ->
  match run w cmd h with
  | (_, Returned _) => True
  | (t, Raised _) => filter writes t = []
  | (t, Exited _) =>
      exists message, filter writes t = [Printed ("Error: " ++ message)]
  end.
Proof.
  intros Hcmd.
  assert (Hp : all_or_nothing (run w cmd)).
  { destruct cmd; try discriminate Hcmd; simpl;
      unfold authenticate, current_team, list_teams, set_team, create_dataset,
        local, total_size, path, url, dataset_report, export_dataset, pull_dataset,
        pull_dataset_with, list_remote_datasets, dataset_list_releases,
        upload_data, upload_data_with, for_each, for_return;
      output. }
  assert (Ha : always (fun ev => asks ev = false) (run w cmd)).
  { destruct cmd; try discriminate Hcmd; simpl;
      try (destruct default_team as [flag|]; [|discriminate Hcmd];
           destruct datasets_dir as [dir|]; [|discriminate Hcmd]);
      unfold authenticate, current_team, list_teams, set_team, create_dataset,
        local, total_size, path, url, dataset_report, export_dataset, pull_dataset,
        pull_dataset_with, list_remote_datasets, dataset_list_releases,
        upload_data, upload_data_with, for_each, for_return;
      unasked. }
  specialize (Hp h). specialize (Ha h).
  destruct (run w cmd h) as [t o]. simpl in Ha.
  rewrite (writes_prints t Ha). exact Hp.
Qed.

Lemma failed_run_prints_only_the_error_witness :
  exists message,
    filter writes
      [Called PathHome;
       Failed (FromConfig (config_file Demo.home) None) MissingConfig;
       Printed "Error: Authenticate first"]
    = [Printed ("Error: " ++ message)].
Proof.
  apply (failed_run_prints_only_the_error
           (Demo.scripted Demo.signed_out) (CmdListRemoteDatasets false None) []).
  reflexivity.
Defined.

(** [authenticate] that has to ask is an exception: it has written its
    question when the datasets directory cannot be made. *)
Example authenticate_failing_after_the_question :
  authenticate
    {| parse_identifier := DatasetIdentifier.parse;
       str_identifier := DatasetIdentifier.render;
       naturaldate := fun _ => "today";
       naturalsize := fun _ => "0 Bytes";
       str_round1 := fun _ => "50.0";
       respond := fun X _ c =>
         match c in call X return exn + X with
         | Mkdir _ true _ => inl (OtherError "PermissionError")
         | c' => inr (Demo.nothing c')
         end |} "key" None (Some (Demo.home // "data")) []
  = ([Called (FromApiKey "key");
      Called PathHome;
      Called (Mkdir (Demo.home // ".darwin") false true);
      Called (Input "Make acme the default team? [y/N] ");
      Called (ExpandUser (Demo.home // "data"));
      Failed (Mkdir (Demo.home // "data") true true) (OtherError "PermissionError")],
     Raised (OtherError "PermissionError")).
Proof. reflexivity. Qed.

(** [remove_remote_dataset] is the other one: it has announced the
    deletion and asked when [remove_remote] fails. *)
Example removal_failing_after_the_announcement :
  remove_remote_dataset
    {| parse_identifier := DatasetIdentifier.parse;
       str_identifier := DatasetIdentifier.render;
       naturaldate := fun _ => "today";
       naturalsize := fun _ => "0 Bytes";
       str_round1 := fun _ => "50.0";
       respond := fun X _ c =>
         match c in call X return exn + X with
         | SecureContinueRequest => inr true
         | RemoveRemote _ => inl (NotFound "cars")
         | c' => inr (Demo.nothing c')
         end |} "acme/cars" []
  = ([Called PathHome;
      Called (FromConfig (config_file Demo.home) None);
      Called (GetRemoteDataset Demo.client (RefString "acme/cars"));
      Printed "About to delete acme/cars on darwin.";
      Called SecureContinueRequest;
      Failed (RemoveRemote Demo.cars) (NotFound "cars");
      Printed "Error: No dataset with name 'acme/cars'"],
     Exited 1%Z).
Proof. reflexivity. Qed.

(** ** The listings: [local] and [list_remote_datasets] *)

(** A [bind] that returned: both steps did. *)
Lemma bind_returned {A C} (m : M A) (k : A -> M C) (h t : list event) (c : C) :
  bind m k h = (t, Returned c) ->
  exists t1 a t2,
    m h = (t1, Returned a) /\ k a (h ++ t1)%list = (t2, Returned c)
    /\ t = (t1 ++ t2)%list.
Proof.
  unfold bind. destruct (m h) as [t1 [a|e|code]]; try discriminate.
  destruct (k a (h ++ t1)%list) as [t2 o] eqn:E. intros [= <- ->]. eauto 6.
Qed.

Lemma quiet_returned {A} (m : M A) (h t : list event) (a : A) :
  quiet m -> m h = (t, Returned a) -> prints t = [].
Proof.
  intros Hq E. destruct (Hq h) as [_ Hr]. rewrite E in Hr. exact (Hr a eq_refl).
Qed.

(** A loop keeps what its body keeps, item after item. *)
Lemma returns_for_fold {A S} (Inv : list A -> S -> Prop) (body : S -> A -> M S) :
  (forall done x acc, Inv done acc -> returns (Inv (done ++ [x])%list) (body acc x)) ->
  forall items done acc,
    Inv done acc -> returns (Inv (done ++ items)%list) (for_fold items acc body).
Proof.
  intros Hb. induction items as [|x items IH]; intros done acc Hacc; simpl.
  - rewrite app_nil_r. now apply returns_ret.
  - eapply returns_bind; [apply (Hb done x acc Hacc)|].
    intros acc' Hacc'.
    replace (done ++ x :: items)%list with ((done ++ [x]) ++ items)%list
      by now rewrite <- app_assoc.
    now apply IH.
Qed.

Lemma total_of_app (a b : list Z) : total_of (a ++ b) = (total_of a + total_of b)%Z.
Proof.
  unfold total_of. induction a as [|x a IH]; simpl; [reflexivity|].
  rewrite IH. lia.
Qed.

(** The size [local] shows is the sum of the sizes of the files, each
    taken from one [stat] of that file. *)
Lemma total_size_returns (w : World) (files : list Path.t) :
  returns (fun total => exists sizes,
               Forall2 (sized w) files sizes /\ total = total_of sizes)
          (total_size w files).
Proof.
  unfold total_size.
  apply (returns_for_fold
           (fun done total => exists sizes,
                Forall2 (sized w) done sizes /\ total = total_of sizes)
           _) with (done := []) (items := files).
  - intros done p total (sizes & Hs & ->).
    eapply returns_bind; [apply returns_invoke|].
    intros st Hst. apply returns_ret.
    exists (sizes ++ [Stat.st_size st])%list. split.
    + apply Forall2_app; [exact Hs|]. constructor; [|constructor].
      exists st. split; [exact Hst|reflexivity].
    + rewrite total_of_app. simpl. lia.
  - exists []. split; [constructor|reflexivity].
Qed.

Lemma add_row_local_table (rows : list Table.row) (row : Table.row) :
  Table.add_row (local_table rows) row = local_table (rows ++ [row]).
Proof. reflexivity. Qed.

(** When [local] returns it has printed one table and nothing else, made
    of one row per dataset directory of a listing that ended normally, in
    the order of the listing: the name of the directory, the number of
    files a scan of it found, the date of its [stat], and the sum of the
    sizes of the files a second scan found.  An empty listing gives a
    table with no row. *)
Theorem local_prints_one_row_per_dataset
    (w : World) (h t : list event) :
  local w h = (t, Returned tt) ->
  exists pre client listing rows,
    t = (pre ++ [PrintedTable (local_table rows)])%list
    /\ filter is_print pre = []
    /\ answered w (ListLocalDatasets client None) listing
    /\ failure listing = None
    /\ Forall2 (local_row_of w) (yielded listing) rows.
Proof.
  intros E. unfold local in E.
  apply bind_returned in E as (t1 & client & t2 & E1 & E & ->).
  apply bind_returned in E as (t3 & listing & t4 & E2 & E & ->).
  apply bind_returned in E as (t5 & table & t6 & E3 & E & ->).
  apply bind_returned in E as (t7 & [] & t8 & E4 & E & ->).
  injection E as <-.
  assert (H1 : prints t1 = [])
    by exact (quiet_returned _ _ _ _ (quiet_load_client w None true) E1).
  assert (H3 : prints t3 = [])
    by exact (quiet_returned _ _ _ _ (quiet_invoke w _) E2).
  assert (H5 : prints t5 = []).
  { refine (quiet_returned _ _ _ _ _ E3). unfold total_size. hush. }
  assert (H7 : prints t7 = [])
    by exact (quiet_returned _ _ _ _ (quiet_exhaust _ _) E4).
  assert (Hrows : exists rows,
             Forall2 (local_row_of w) (yielded listing) rows
             /\ table = local_table rows).
  { refine (returns_for_fold
              (fun done table => exists rows,
                   Forall2 (local_row_of w) done rows /\ table = local_table rows)
              _ _ (yielded listing) [] _ _ _ _ _ E3).
    - intros done p table' (rows & Hrows & ->).
      eapply returns_bind; [apply returns_invoke|intros images Himages].
      eapply returns_bind; [apply returns_invoke|intros st Hst].
      eapply returns_bind; [apply returns_invoke|intros files Hfiles].
      eapply returns_bind; [apply total_size_returns|].
      intros total (sizes & Hsizes & ->). apply returns_ret.
      eexists. split; [|apply add_row_local_table].
      apply Forall2_app; [exact Hrows|]. constructor; [|constructor].
      exists images, st, files, sizes. auto.
    - exists []. split; [constructor|reflexivity]. }
  destruct Hrows as (rows & Hrows & ->).
  exists (t1 ++ t3 ++ t5 ++ t7)%list, client, listing, rows.
  split; [now rewrite <- !app_assoc|]. split; [|split; [|split]].
  - fold (prints (t1 ++ t3 ++ t5 ++ t7)). rewrite !prints_app.
    now rewrite H1, H3, H5, H7.
  - exact (returns_invoke w _ _ _ _ E2).
  - unfold exhaust in E4. destruct (failure listing); [discriminate|reflexivity].
  - exact Hrows.
Qed.

Lemma local_prints_one_row_per_dataset_witness :
  exists pre client listing rows,
    [Called PathHome;
     Called (FromConfig (config_file Demo.home) None);
     Called (ListLocalDatasets Demo.client None);
     Called (FindFiles [Sample.trucks_dir]);
     Called (StatOf Sample.trucks_dir);
     Called (FindFiles [Sample.trucks_dir]);
     Called (StatOf (Sample.trucks_dir // "1.png"));
     Called (StatOf (Sample.trucks_dir // "2.png"));
     Called (FindFiles [Sample.cars_dir]);
     Called (StatOf Sample.cars_dir);
     Called (FindFiles [Sample.cars_dir]);
     PrintedTable
       (local_table
          [[("name", Table.Str "trucks"); ("images", Table.Int 2);
            ("sync_date", Table.Str "today"); ("size", Table.Str "some bytes")];
           [("name", Table.Str "cars"); ("images", Table.Int 0);
            ("sync_date", Table.Str "today"); ("size", Table.Str "0 Bytes")]])]
    = (pre ++ [PrintedTable (local_table rows)])%list
    /\ filter is_print pre = []
    /\ answered (Sample.world "y") (ListLocalDatasets client None) listing
    /\ failure listing = None
    /\ Forall2 (local_row_of (Sample.world "y")) (yielded listing) rows.
Proof.
  apply (local_prints_one_row_per_dataset (Sample.world "y") []).
  reflexivity.
Defined.

Lemma remote_rows_table (w : World) (datasets : list RemoteDataset.t)
    (rows : list Table.row) :
  fold_left (fun table dataset => Table.add_row table (remote_row w dataset))
            datasets (datasets_table rows)
  = datasets_table (rows ++ map (remote_row w) datasets).
Proof.
  revert rows. induction datasets as [|d datasets IH]; intros rows; simpl.
  - now rewrite app_nil_r.
  - change (Table.add_row (datasets_table rows) (remote_row w d))
      with (datasets_table (rows ++ [remote_row w d])).
    rewrite IH. now rewrite <- app_assoc.
Qed.

(** What [list_remote_datasets] gathers before it prints. *)
Lemma gathered_for_all_teams (w : World) :
  returns
    (fun datasets => exists config teams parts,
         answered w (GetAllTeams config) teams
         /\ Forall2 (fun team part => listed_for w (Some (Team.slug team)) part)
                    teams parts
         /\ datasets = List.concat parts)
    (config <- _config w ;;
     teams <- invoke w (GetAllTeams config) ;;
     for_fold teams [] (fun datasets team =>
       client <- _load_client w (Some (Team.slug team)) false ;;
       more <- invoke w (ListRemoteDatasets client) ;;
       ret (datasets ++ more)%list)).
Proof.
  eapply returns_bind; [apply returns_any|intros config _].
  eapply returns_bind; [apply returns_invoke|intros teams Hteams].
  eapply returns_weaken.
  - apply (returns_for_fold
             (fun done datasets => exists parts,
                  Forall2 (fun team part => listed_for w (Some (Team.slug team)) part)
                          done parts
                  /\ datasets = List.concat parts)
             _) with (done := []) (items := teams).
    + intros done team datasets (parts & Hparts & ->).
      eapply returns_bind; [apply returns_load_client|].
      intros client (hist & p & Hclient).
      eapply returns_bind; [apply returns_invoke|intros more Hmore].
      apply returns_ret. exists (parts ++ [more])%list. split.
      * apply Forall2_app; [exact Hparts|]. constructor; [|constructor].
        exists p, client. split; [now exists hist|exact Hmore].
      * rewrite concat_app. simpl. now rewrite app_nil_r.
    + exists []. split; [constructor|reflexivity].
  - intros datasets (parts & Hparts & ->). exists config, teams, parts. auto.
Qed.

(** When [list_remote_datasets] returns, the last thing in its log is the
    one thing it printed: the message ["No dataset available."] when it
    gathered no dataset, otherwise the table with one row per dataset.
    For one team the datasets are those listed for the client of that
    team; for all teams they are, team after team of the configuration,
    those listed for the client of each. *)
Theorem list_remote_datasets_prints_what_it_gathered
    (w : World) (all_teams : bool) (team : option string) (h t : list event) :
  list_remote_datasets w all_teams team h = (t, Returned tt) ->
  exists pre datasets,
    t = (pre ++ [match datasets with
                 | [] => Printed "No dataset available."
                 | _ :: _ =>
                     PrintedTable (datasets_table (map (remote_row w) datasets))
                 end])%list
    /\ filter is_print pre = []
    /\ (all_teams = false -> listed_for w team datasets)
    /\ (all_teams = true ->
        exists config teams parts,
          answered w (GetAllTeams config) teams
          /\ Forall2 (fun team part => listed_for w (Some (Team.slug team)) part)
                     teams parts
          /\ datasets = List.concat parts).
Proof.
  intros E. unfold list_remote_datasets in E.
  apply bind_returned in E as (pre & datasets & t2 & Eg & E & ->).
  exists pre, datasets.
  change (Table.new ["name"; "images"; "progress"] [Table.L; Table.R; Table.R])
    with (datasets_table []) in E.
  rewrite remote_rows_table in E. simpl in E.
  assert (Hlast : t2 = [datasets_output w datasets]).
  { destruct datasets as [|d datasets]; simpl in E; now injection E as <-. }
  subst t2. split; [reflexivity|]. split; [|split].
  - refine (quiet_returned _ _ _ _ _ Eg).
    destruct all_teams; hush.
  - intros ->.
    assert (Hr : returns (listed_for w team)
                   (client <- _load_client w team false ;;
                    invoke w (ListRemoteDatasets client))).
    { eapply returns_bind; [apply returns_load_client|].
      intros client (hist & p & Hclient).
      eapply returns_weaken; [apply returns_invoke|].
      intros ds Hd. exists p, client. split; [now exists hist|exact Hd]. }
    exact (Hr _ _ _ Eg).
  - intros ->. exact (gathered_for_all_teams w _ _ _ Eg).
Qed.

Lemma list_remote_datasets_prints_what_it_gathered_witness :
  exists pre datasets,
    [Called PathHome;
     Called (NewConfig (config_file Demo.home));
     Called (GetAllTeams (Config.mk (config_file Demo.home)));
     Called PathHome;
     Called (FromConfig (config_file Demo.home) (Some "acme"));
     Called (ListRemoteDatasets Demo.client);
     Called PathHome;
     Called (FromConfig (config_file Demo.home) (Some "tools"));
     Called (ListRemoteDatasets Sample.tools);
     PrintedTable
       (datasets_table
          [remote_row (Sample.world "y") Demo.cars;
           remote_row (Sample.world "y") Sample.boats])]
    = (pre ++ [match datasets with
               | [] => Printed "No dataset available."
               | _ :: _ =>
                   PrintedTable
                     (datasets_table (map (remote_row (Sample.world "y")) datasets))
               end])%list
    /\ filter is_print pre = []
    /\ (true = false -> listed_for (Sample.world "y") None datasets)
    /\ (true = true ->
        exists config teams parts,
          answered (Sample.world "y") (GetAllTeams config) teams
          /\ Forall2 (fun team part =>
                        listed_for (Sample.world "y") (Some (Team.slug team)) part)
                     teams parts
          /\ datasets = List.concat parts).
Proof.
  apply (list_remote_datasets_prints_what_it_gathered
           (Sample.world "y") true None []).
  reflexivity.
Defined.

(** ** References and lookups: [path], [pull_dataset], [export_dataset] *)

(** A reference that does not parse is not reported through [_error].
    [path] and [pull_dataset] parse before anything else: they make no
    call at all and the exception of the parser leaves them.
    [export_dataset] has loaded the client by then; it makes no further
    call and ends the same way. *)
Theorem unparsable_reference_leaves_as_exception
    (w : World) (dataset_slug : string) (e : exn) (h : list event) :
  parse_identifier w dataset_slug = inl e ->
  path w dataset_slug h = ([Threw e], Raised e)
  /\ pull_dataset w dataset_slug h = ([Threw e], Raised e)
  /\ (forall home client annotation_class_ids name,
        signed_in w home None client ->
        export_dataset w dataset_slug annotation_class_ids name []
        = ((loaded home None ++ [Threw e])%list, Raised e)).
Proof.
  intros Hparse. split; [|split].
  - unfold path. rewrite Hparse. reflexivity.
  - unfold pull_dataset, pull_dataset_with. rewrite Hparse. reflexivity.
  - intros home client ids name Hs. unfold export_dataset.
    rewrite (after_load_client _ _ _ _ _ _ Hs). rewrite Hparse. reflexivity.
Qed.

Lemma unparsable_reference_leaves_as_exception_witness :
  path (Demo.scripted Demo.usual) "acme/cars/extra" []
  = ([Threw MalformedReference], Raised MalformedReference)
  /\ pull_dataset (Demo.scripted Demo.usual) "acme/cars/extra" []
     = ([Threw MalformedReference], Raised MalformedReference)
  /\ (forall home client annotation_class_ids name,
        signed_in (Demo.scripted Demo.usual) home None client ->
        export_dataset (Demo.scripted Demo.usual) "acme/cars/extra"
          annotation_class_ids name []
        = ((loaded home None ++ [Threw MalformedReference])%list,
           Raised MalformedReference)).
Proof.
  apply (unparsable_reference_leaves_as_exception
           (Demo.scripted Demo.usual) "acme/cars/extra" MalformedReference []).
  reflexivity.
Defined.

(** The loop of [path]: what it returns is the first entry of that name,
    or nothing once every entry was passed and the generator stopped. *)
Lemma path_loop_returns {X} (c : call X) (slug : string) (g : generator Path.t) :
  returns
    (fun result =>
       match result with
       | Some p =>
           exists before after,
             yielded g = (before ++ p :: after)%list
             /\ Path.name p = slug
             /\ forall q, In q before -> Path.name q <> slug
       | None =>
           failure g = None
           /\ forall q, In q (yielded g) -> Path.name q <> slug
       end)
    (for_return c g
       (fun p => if String.eqb slug (Path.name p) then ret (Some p) else ret None)).
Proof.
  unfold for_return.
  assert (H : forall items before,
             yielded g = (before ++ items)%list ->
             (forall q, In q before -> Path.name q <> slug) ->
             returns
               (fun result =>
                  match result with
                  | Some p =>
                      exists before after,
                        yielded g = (before ++ p :: after)%list
                        /\ Path.name p = slug
                        /\ forall q, In q before -> Path.name q <> slug
                  | None =>
                      failure g = None
                      /\ forall q, In q (yielded g) -> Path.name q <> slug
                  end)
               (for_return_items items (exhaust c g)
                  (fun p => if String.eqb slug (Path.name p)
                            then ret (Some p) else ret None))).
  { induction items as [|p items IH]; intros before Hy Hb; simpl.
    - eapply returns_bind with (Q := fun _ => failure g = None).
      + intros h t a. unfold exhaust. now destruct (failure g).
      + intros _ Hf. apply returns_ret. split; [exact Hf|].
        rewrite Hy, app_nil_r. exact Hb.
    - destruct (String.eqb_spec slug (Path.name p)) as [Heq|Hne].
      + intros h t a. rewrite bind_ret_run. intros [= _ <-].
        exists before, items. auto.
      + intros h t a. rewrite bind_ret_run. revert h t a.
        apply (IH (before ++ [p])%list).
        * now rewrite <- app_assoc.
        * intros q Hq. apply in_app_or in Hq as [Hq|[<-|[]]]; auto. }
  apply (H (yielded g) []); [reflexivity|intros q []].
Qed.

(** What [path] returns, in any world: a path is the first entry of the
    listing for the team of the reference whose directory name is the
    dataset slug of the reference; [None] means that the listing ended
    without raising and had no entry of that name. *)
Theorem path_returns_first_entry_of_that_name
    (w : World) (dataset_slug : string) (h t : list event)
    (result : option Path.t) :
  path w dataset_slug h = (t, Returned result) ->
  exists identifier client listing,
    parse_identifier w dataset_slug = inr identifier
    /\ answered w (ListLocalDatasets client
                     (DatasetIdentifier.team_slug identifier)) listing
    /\ match result with
       | Some p =>
           exists before after,
             yielded listing = (before ++ p :: after)%list
             /\ Path.name p = DatasetIdentifier.dataset_slug identifier
             /\ forall q, In q before ->
                          Path.name q <> DatasetIdentifier.dataset_slug identifier
       | None =>
           failure listing = None
           /\ forall q, In q (yielded listing) ->
                        Path.name q <> DatasetIdentifier.dataset_slug identifier
       end.
Proof.
  revert h t result.
  change (returns
            (fun result => exists identifier client listing,
                 parse_identifier w dataset_slug = inr identifier
                 /\ answered w (ListLocalDatasets client
                                  (DatasetIdentifier.team_slug identifier)) listing
                 /\ match result with
                    | Some p =>
                        exists before after,
                          yielded listing = (before ++ p :: after)%list
                          /\ Path.name p = DatasetIdentifier.dataset_slug identifier
                          /\ forall q, In q before ->
                               Path.name q <> DatasetIdentifier.dataset_slug identifier
                    | None =>
                        failure listing = None
                        /\ forall q, In q (yielded listing) ->
                             Path.name q <> DatasetIdentifier.dataset_slug identifier
                    end)
            (path w dataset_slug)).
  unfold path.
  eapply returns_bind; [apply returns_lift; intros a E; exact E|].
  intros identifier Hparse.
  eapply returns_bind; [apply returns_any|intros client _].
  apply returns_try; [|error_clauses]. cbv zeta.
  eapply returns_bind; [apply returns_invoke|intros listing Hlisting].
  eapply returns_weaken; [apply path_loop_returns|].
  intros result Hresult. exists identifier, client, listing. auto.
Qed.

Lemma path_returns_first_entry_of_that_name_witness :
  exists identifier client listing,
    parse_identifier (Sample.world "y") "acme/cars" = inr identifier
    /\ answered (Sample.world "y")
         (ListLocalDatasets client (DatasetIdentifier.team_slug identifier)) listing
    /\ exists before after,
         yielded listing = (before ++ Sample.cars_dir :: after)%list
         /\ Path.name Sample.cars_dir = DatasetIdentifier.dataset_slug identifier
         /\ forall q, In q before ->
                      Path.name q <> DatasetIdentifier.dataset_slug identifier.
Proof.
  apply (path_returns_first_entry_of_that_name
           (Sample.world "y") "acme/cars" []
           [Called PathHome;
            Called (FromConfig (config_file Demo.home) None);
            Called (ListLocalDatasets Demo.client (Some "acme"))]
           (Some Sample.cars_dir)).
  reflexivity.
Defined.

(** [pull_dataset] hands to [pull] only what [get_release] returned: in any
    world, a call of [pull] in its log is for the dataset that
    [get_remote_dataset] answered for the reference as typed, and for a
    release that [get_release] answered for that dataset and a version
    that is the version of the reference itself, or ["latest"] when the
    reference has none (or an empty one, which [or] takes for none). *)
Theorem pull_dataset_pulls_what_get_release_returned
    (w : World) (dataset_slug : string) (h : list event) (ev : event)
    (dataset : RemoteDataset.t) (release : Release.t) :
  In ev (fst (pull_dataset w dataset_slug h)) ->
  pull_of ev = Some (dataset, release) ->
  exists identifier client version,
    parse_identifier w dataset_slug = inr identifier
    /\ (DatasetIdentifier.version identifier = None -> version = "latest")
    /\ (forall v, DatasetIdentifier.version identifier = Some v -> v <> "" ->
                  version = v)
    /\ (DatasetIdentifier.version identifier = Some "" -> version = "latest")
    /\ answered w (GetRemoteDataset client (RefString dataset_slug)) dataset
    /\ answered w (GetRelease dataset version) release.
Proof.
  intros Hin. revert dataset release. revert h ev Hin.
  change (always
            (fun ev => forall dataset release,
                 pull_of ev = Some (dataset, release) ->
                 exists identifier client version,
                   parse_identifier w dataset_slug = inr identifier
                   /\ (DatasetIdentifier.version identifier = None ->
                       version = "latest")
                   /\ (forall v, DatasetIdentifier.version identifier = Some v ->
                                 v <> "" -> version = v)
                   /\ (DatasetIdentifier.version identifier = Some "" ->
                       version = "latest")
                   /\ answered w (GetRemoteDataset client (RefString dataset_slug))
                        dataset
                   /\ answered w (GetRelease dataset version) release)
            (pull_dataset w dataset_slug)).
  unfold pull_dataset, pull_dataset_with.
  eapply always_bind_returns;
    [apply returns_lift; intros a E; exact E
    |apply always_lift; intros; discriminate|].
  intros identifier Hparse.
  destruct (or_latest_spec (DatasetIdentifier.version identifier))
    as (Hnone & Hsome & Hempty).
  apply always_bind;
    [apply always_load_client; intros; discriminate|intros client].
  eapply always_bind_returns.
  - apply returns_try; [apply returns_invoke|error_clauses].
  - apply always_try; [apply always_invoke; intros; discriminate|].
    intros e recover H. destruct e; try discriminate H;
      injection H as <-; apply always_error; discriminate.
  - intros dataset Hdataset.
    apply always_bind; [|intros release; apply always_print; discriminate].
    apply always_try.
    + eapply always_bind_returns;
        [apply returns_invoke|apply always_invoke; intros; discriminate|].
      intros release Hrelease.
      apply always_bind; [|intros _; apply always_ret].
      apply always_invoke; [intros d r [= <- <-]|intros e d r [= <- <-]];
        exists identifier, client,
               (or_latest (DatasetIdentifier.version identifier));
        auto 7.
    + intros e recover H. destruct e; try discriminate H.
      injection H as <-. apply always_error. discriminate.
Qed.

Lemma pull_dataset_pulls_what_get_release_returned_witness :
  exists identifier client version,
    parse_identifier (Demo.scripted Demo.usual) "acme/cars:v1" = inr identifier
    /\ (DatasetIdentifier.version identifier = None -> version = "latest")
    /\ (forall v, DatasetIdentifier.version identifier = Some v -> v <> "" ->
                  version = v)
    /\ (DatasetIdentifier.version identifier = Some "" -> version = "latest")
    /\ answered (Demo.scripted Demo.usual)
         (GetRemoteDataset client (RefString "acme/cars:v1")) Demo.cars
    /\ answered (Demo.scripted Demo.usual)
         (GetRelease Demo.cars version) Demo.v1.
Proof.
  apply (pull_dataset_pulls_what_get_release_returned
           (Demo.scripted Demo.usual) "acme/cars:v1" []
           (Called (Pull Demo.cars Demo.v1))).
  - simpl. do 4 right. left. reflexivity.
  - reflexivity.
Defined.

(** ** [help] *)

Lemma lookup_absent (name : string) (choices : list (string * Argparse.parser)) :
  (forall p, ~ In (name, p) choices) -> Argparse.lookup name choices = None.
Proof.
  induction choices as [|[key p] choices IH]; simpl; intros H; [reflexivity|].
  destruct (String.eqb_spec key name) as [->|Hne].
  - exfalso. apply (H p). now left.
  - apply IH. intros q Hq. apply (H q). now right.
Qed.

Lemma first_subparser_absent (name : string) (actions : list Argparse.action) :
  (forall choices entries p,
     In (Argparse.SubParsersAction choices entries) actions ->
     ~ In (name, p) choices) ->
  first_subparser name actions = None.
Proof.
  induction actions as [|[choices entries|] actions IH]; simpl; intros H.
  - reflexivity.
  - rewrite lookup_absent.
    + apply IH. intros c e p Hin. apply (H c e p). now right.
    + intros p. apply (H choices entries p). now left.
  - apply IH. intros c e p Hin. apply (H c e p). now right.
Qed.

(** [help] for a command that no sub-parsers action of the parser knows
    raises [StopIteration] before anything is printed. *)
Theorem help_for_unknown_command_raises
    (parser : Argparse.parser) (name : string) (h : list event) :
  name <> "" ->
  (forall choices entries p,
     In (Argparse.SubParsersAction choices entries) (Argparse._actions parser) ->
     ~ In (name, p) choices) ->
  help parser (Some name) h
  = ([Threw (OtherError "StopIteration")], Raised (OtherError "StopIteration")).
Proof.
  intros Hname Hno. unfold help.
  destruct name as [|a name]; [congruence|].
  now rewrite (first_subparser_absent _ _ Hno).
Qed.

Lemma help_for_unknown_command_raises_witness :
  help (Argparse.Parser (Some "darwin")
          [Argparse.OtherAction;
           Argparse.SubParsersAction
             [("team", Argparse.Parser (Some "teams") []);
              ("dataset", Argparse.Parser (Some "datasets") [])]
             [Argparse.mk_choice "team" (Some "List or pick teams");
              Argparse.mk_choice "dataset" None]])
       (Some "model") []
  = ([Threw (OtherError "StopIteration")], Raised (OtherError "StopIteration")).
Proof.
  apply help_for_unknown_command_raises; [discriminate|].
  intros choices entries p [H|[H|[]]]; [discriminate H|].
  injection H as <- _. intros [H|[H|[]]]; discriminate H.
Defined.

Lemma lines_run {A} (f : A -> string) (items : list A) (h : list event) :
  for_each items (fun x => print (f x)) h
  = (map (fun x => Printed (f x)) items, Returned tt).
Proof.
  unfold for_each. revert h.
  induction items as [|x items IH]; intros h; simpl; [reflexivity|].
  unfold bind. simpl. now rewrite IH.
Qed.

(** The run of [help] on the parser itself. *)
Lemma help_run (parser : Argparse.parser) (h : list event) :
  help parser None h
  = (Printed (str_optional (Argparse.description parser))
     :: Printed (nl ++ "Commands:") :: command_lines parser,
     Returned tt).
Proof.
  unfold help, command_lines. rewrite bind_ret_run.
  unfold bind at 1. simpl. unfold bind at 1. simpl.
  generalize (filter Argparse.is_subparsers (Argparse._actions parser)).
  intros actions.
  assert (H : forall h0,
             for_each actions
               (fun action =>
                  for_each (sorted_by_dest (Argparse._choices_actions action))
                    (fun choice => print (command_line choice))) h0
             = (flat_map
                  (fun action =>
                     map (fun choice => Printed (command_line choice))
                         (sorted_by_dest (Argparse._choices_actions action)))
                  actions, Returned tt)).
  { unfold for_each at 1. induction actions as [|a actions IH]; intros h0; simpl.
    - reflexivity.
    - unfold bind. rewrite lines_run. now rewrite IH. }
  now rewrite H.
Qed.

Lemma insert_by_dest_permutation (c : Argparse.choice) (l : list Argparse.choice) :
  Permutation (c :: l) (insert_by_dest c l).
Proof.
  induction l as [|d l IH]; simpl; [reflexivity|].
  destruct (String.leb _ _); [reflexivity|].
  rewrite perm_swap. now apply perm_skip.
Qed.

Lemma sorted_by_dest_permutation (l : list Argparse.choice) :
  Permutation l (sorted_by_dest l).
Proof.
  induction l as [|c l IH]; simpl; [reflexivity|].
  rewrite <- insert_by_dest_permutation. now apply perm_skip.
Qed.

Lemma insert_by_dest_sorted (c : Argparse.choice) (l : list Argparse.choice) :
  Sorted dest_le l -> Sorted dest_le (insert_by_dest c l).
Proof.
  induction l as [|d l IH]; simpl; intros Hs.
  - repeat constructor.
  - destruct (String.leb (Argparse.dest c) (Argparse.dest d)) eqn:E.
    + constructor; [exact Hs|]. constructor. exact E.
    + inversion Hs as [|? ? Hl Hd]; subst.
      constructor; [now apply IH|].
      assert (Hdc : dest_le d c).
      { destruct (String.leb_total (Argparse.dest c) (Argparse.dest d)) as [H|H];
          [congruence|exact H]. }
      destruct l as [|d' l]; simpl.
      * constructor. exact Hdc.
      * destruct (String.leb (Argparse.dest c) (Argparse.dest d')).
        -- constructor. exact Hdc.
        -- inversion Hd; subst. now constructor.
Qed.

Lemma sorted_by_dest_sorted (l : list Argparse.choice) :
  Sorted dest_le (sorted_by_dest l).
Proof.
  induction l as [|c l IH]; simpl; [constructor|now apply insert_by_dest_sorted].
Qed.

Lemma length_append (a b : string) :
  String.length (a ++ b) = String.length a + String.length b.
Proof. induction a as [|x a IH]; simpl; [reflexivity|now rewrite IH]. Qed.

Lemma length_spaces (n : nat) : String.length (spaces n) = n.
Proof. induction n as [|n IH]; simpl; [reflexivity|now rewrite IH]. Qed.

(** [help] on the parser itself prints the description, the heading, and
    then, sub-parsers action by sub-parsers action, one line per command
    of the action, sorted by command name: each block is a permutation
    of the commands of its action, in ascending order of name.  In every
    line the help text follows the name filled up to 19 characters, so it
    starts at column 24 for a name of at most 19 characters, and a longer
    name is not cut. *)
Theorem help_lists_commands_sorted (parser : Argparse.parser) (h : list event) :
  exists blocks,
    help parser None h
    = (Printed (str_optional (Argparse.description parser))
       :: Printed (nl ++ "Commands:")
       :: List.concat
            (map (map (fun c =>
                         Printed (command_lead c
                                  ++ str_optional (Argparse.help c))))
                 blocks),
       Returned tt)
    /\ Forall2
         (fun action block =>
            Permutation (Argparse._choices_actions action) block
            /\ Sorted dest_le block)
         (filter Argparse.is_subparsers (Argparse._actions parser)) blocks
    /\ (forall c,
          String.length (command_lead c)
          = 5 + Nat.max 19 (String.length (Argparse.dest c))
          /\ prefix_of ("    " ++ Argparse.dest c) (command_lead c) = true).
Proof.
  exists (map (fun action => sorted_by_dest (Argparse._choices_actions action))
              (filter Argparse.is_subparsers (Argparse._actions parser))).
  split; [|split].
  - rewrite help_run. unfold command_lines. do 3 f_equal.
    rewrite flat_map_concat_map, map_map. f_equal.
    apply map_ext. intros action. apply map_ext. intros c.
    unfold command_line, command_lead. now rewrite !append_assoc.
  - induction (filter Argparse.is_subparsers (Argparse._actions parser))
      as [|a actions IH]; simpl; constructor; [|exact IH].
    split; [apply sorted_by_dest_permutation|apply sorted_by_dest_sorted].
  - intros c. split.
    + unfold command_lead, ljust.
      rewrite !length_append, length_spaces.
      change (String.length "    ") with 4.
      change (String.length " ") with 1. lia.
    + unfold command_lead, ljust.
      replace ("    " ++ (Argparse.dest c
                          ++ spaces (19 - String.length (Argparse.dest c)))
                      ++ " ")
        with (("    " ++ Argparse.dest c)
                ++ spaces (19 - String.length (Argparse.dest c)) ++ " ")
        by now rewrite !append_assoc.
      apply prefix_of_append.
Qed.

(** The commands of a small parser, registered out of order. *)
Example help_of_a_small_parser :
  help (Argparse.Parser (Some "darwin")
          [Argparse.OtherAction;
           Argparse.SubParsersAction
             [("team", Argparse.Parser (Some "teams") []);
              ("dataset", Argparse.Parser (Some "datasets") [])]
             [Argparse.mk_choice "team" (Some "List or pick teams");
              Argparse.mk_choice "dataset" None]])
       None []
  = ([Printed "darwin";
      Printed (nl ++ "Commands:");
      Printed "    dataset             None";
      Printed "    team                List or pick teams"],
     Returned tt).
Proof. reflexivity. Qed.
